(** * IB-sampling: patch extraction and patient fold splitting

    A shallow embedding of [prepare_dataset.py] and [ib_sampling/utils.py].
    Python integers are [Z]; Python exceptions are the [Raise] branch of
    [result]; Python lists are [list]. *)

From Stdlib Require Import ZArith QArith Qround Lia Lqa List String Ascii DecimalString DecimalN.
From Stdlib Require Import Floats Uint63.
From stdpp Require Import base tactics option list list_numbers strings sorting.

Local Open Scope Z_scope.

(* ===================================================================== *)
(** * Part I: definitions                                                 *)
(* ===================================================================== *)

(** ** Python run-time: exceptions, [range], [list[-1]] *)

Module Py.

Inductive exn : Type :=
| ZeroDivisionError
| IndexError
| ValueError.

Inductive result (A : Type) : Type :=
| Ok (a : A)
| Raise (e : exn).
Arguments Ok {A} a.
Arguments Raise {A} e.

#[global] Instance result_ret : MRet result := @Ok.
#[global] Instance result_bind : MBind result := λ A B k m,
  match m with
  | Ok a => k a
  | Raise e => Raise e
  end.

(** [len(range(start, stop, step))] as CPython computes it. *)
Definition range_len (start stop step : Z) : Z :=
  if 0 <? step then
    if start <? stop then (stop - start - 1) / step + 1 else 0
  else
    if stop <? start then (start - stop - 1) / (- step) + 1 else 0.

(** [list(range(start, stop, step))]; a zero step is a [ValueError]. *)
Definition range (start stop step : Z) : result (list Z) :=
  if step =? 0 then Raise ValueError
  else Ok ((λ i, start + i * step) <$> seqZ 0 (range_len start stop step)).

(** [l[-1]]. *)
Definition last_item {A} (l : list A) : result A :=
  match last l with
  | Some a => Ok a
  | None => Raise IndexError
  end.

(** [a // b] and [a % b]: floor division, as [Z.div] and [Z.modulo]
    are, with a zero divisor raising. *)
Definition floordiv (a b : Z) : result Z :=
  if b =? 0 then Raise ZeroDivisionError else Ok (a / b).
Definition modulo (a b : Z) : result Z :=
  if b =? 0 then Raise ZeroDivisionError else Ok (a mod b).

(** A slice bound [i] on a sequence of length [n]: negative bounds
    count from the end, and the result is clamped to [[0, n]]. *)
Definition slice_bound (n i : Z) : Z :=
  if i <? 0 then Z.max 0 (i + n) else Z.min i n.

(** [l[start:stop]] *)
Definition slice {A} (start stop : Z) (l : list A) : list A :=
  let n := Z.of_nat (length l) in
  let a := slice_bound n start in
  let b := slice_bound n stop in
  take (Z.to_nat (b - a)) (drop (Z.to_nat a) l).

(** The position [l[i]] refers to: negative indices count from the end. *)
Definition item_pos {A} (l : list A) (i : Z) : result nat :=
  let n := Z.of_nat (length l) in
  let i := if i <? 0 then i + n else i in
  if (0 <=? i) && (i <? n) then Ok (Z.to_nat i) else Raise IndexError.

(** [l[i]] *)
Definition item {A} (l : list A) (i : Z) : result A :=
  k ← item_pos l i;
  match l !! k with
  | Some a => Ok a
  | None => Raise IndexError
  end.

(** [l[i] = v] *)
Definition set_item {A} (l : list A) (i : Z) (v : A) : result (list A) :=
  k ← item_pos l i;
  Ok (<[k:=v]> l).

(** [sub in s] *)
Fixpoint contains (sub s : string) : bool :=
  String.prefix sub s ||
  match s with
  | EmptyString => false
  | String _ s' => contains sub s'
  end.

(** [s.replace(old, '')] for a non-empty [old]: scan from the left;
    where [old] starts, drop it ([skip] counts the characters of the
    match still to drop) and go on after it. *)
Fixpoint remove_go (old : string) (skip : nat) (s : string) : string :=
  match s with
  | EmptyString => EmptyString
  | String c s' =>
      match skip with
      | S k => remove_go old k s'
      | O =>
          if String.prefix old s
          then remove_go old (String.length old - 1) s'
          else String c (remove_go old 0 s')
      end
  end.
Definition remove (old s : string) : string := remove_go old 0 s.

(** [s.split(sep)] for a one-character separator. *)
Fixpoint split (sep : ascii) (s : string) : list string :=
  match s with
  | EmptyString => [EmptyString]
  | String c s' =>
      if decide (c = sep) then EmptyString :: split sep s'
      else match split sep s' with
           | t :: ts => String c t :: ts
           | [] => [String c EmptyString]
           end
  end.

(** [sep.join(parts)] *)
Definition join (sep : string) (parts : list string) : string :=
  String.concat sep parts.

(** [os.path.basename(path)]: what follows the last slash. *)
Definition basename (path : string) : string :=
  default EmptyString (last (split "/"%char path)).

Fixpoint zeros (k : nat) : string :=
  match k with
  | O => EmptyString
  | S k => String "0"%char (zeros k)
  end.

(** [f"{n:04d}"]: decimal, zero-padded to width 4, the sign first. *)
Definition format_04d (n : Z) : string :=
  let digits := NilZero.string_of_uint (N.to_uint (Z.abs_N n)) in
  if n <? 0 then "-" +:+ zeros (3 - String.length digits) +:+ digits
  else zeros (4 - String.length digits) +:+ digits.

End Py.

Import Py.

(** ** [prepare_dataset.py] *)

(** [ensure_size(start, end, min_size, max_dim)] *)
Definition ensure_size (start end_ min_size max_dim : Z) : Z * Z :=
  let size := end_ - start in
  if min_size <=? size then (start, end_)
  else
    let extra := min_size - size in
    let start := Z.max 0 (start - extra / 2) in
    let end_ := Z.min max_dim (end_ + extra - extra / 2) in
    if end_ - start <? min_size then
      if start =? 0 then (start, Z.min max_dim (start + min_size))
      else (Z.max 0 (end_ - min_size), end_)
    else (start, end_).

(** [generate_indices(dim, patch, stride)] *)
Definition generate_indices (dim patch stride : Z) : result (list Z) :=
  if dim <=? patch then Ok [0]
  else
    starts ← range 0 (dim - patch + 1) stride;
    final ← last_item starts;
    if negb (final =? dim - patch) then Ok (starts ++ [dim - patch])
    else Ok starts.

(** The two file names [save_patch] writes a patch under. *)
Definition modality_filename (pid modality patch_type : string) (patch_idx : Z) : string :=
  pid +:+ "_" +:+ modality +:+ "_" +:+ patch_type +:+ "_" +:+ format_04d patch_idx
      +:+ ".nii.gz".
Definition label_filename (pid patch_type : string) (patch_idx : Z) : string :=
  pid +:+ "_label_" +:+ patch_type +:+ "_" +:+ format_04d patch_idx +:+ ".nii.gz".

(** [name.replace('.nii.gz', '').replace('.nii', '')], which both files
    use to take the extension off a file name. *)
Definition strip_ext (filename : string) : string :=
  remove ".nii" (remove ".nii.gz" filename).

(** ** [prepare_dataset.py]: arrays *)

(** A numpy array of three axes: its [shape] and its voxels, addressed
    [voxels !! z !! y !! x]. In [process_case] the intensities and labels
    are exact rationals; what [normalize_volume] does in floating point
    is the subject of the section on floating point below. *)
Record volume (A : Type) := Volume {
  shape : Z * Z * Z;
  voxels : list (list (list A));
}.
Arguments Volume {A} shape voxels.
Arguments shape {A} v.
Arguments voxels {A} v.

(** [arr.ravel()] *)
Definition flatten {A} (v : volume A) : list A := concat (concat (voxels v)).

(** An element-wise operation, giving a new array. *)
Definition vmap {A B} (f : A → B) (v : volume A) : volume B :=
  Volume (shape v)
         ((λ plane : list (list A), (λ row : list A, f <$> row) <$> plane) <$> voxels v).

Definition slice_len (n start stop : Z) : Z :=
  Z.max 0 (slice_bound n stop - slice_bound n start).

(** [arr[z0:z1, y0:y1, x0:x1]] *)
Definition getitem3 {A} (v : volume A) (zs ys xs : Z * Z) : volume A :=
  let '(d0, d1, d2) := shape v in
  Volume (slice_len d0 zs.1 zs.2, slice_len d1 ys.1 ys.2, slice_len d2 xs.1 xs.2)
         ((λ plane : list (list A),
             (λ row : list A, slice xs.1 xs.2 row) <$> slice ys.1 ys.2 plane)
            <$> slice zs.1 zs.2 (voxels v)).

(** [np.where(mask)]: the coordinates of the true voxels in C order. The
    three arrays numpy returns are the three projections of this list. *)
Definition where3 (mask : volume bool) : list (Z * Z * Z) :=
  concat (imap (λ z plane,
    concat (imap (λ y row,
      concat (imap (λ x (b : bool),
        if b then [(Z.of_nat z, Z.of_nat y, Z.of_nat x)] else []) row))
      plane))
    (voxels mask)).

(** [c.min()] and [c.max()]: a [ValueError] on an empty array. *)
Definition array_min (c : list Z) : result Z :=
  match c with
  | [] => Raise ValueError
  | x :: c => Ok (foldl Z.min x c)
  end.
Definition array_max (c : list Z) : result Z :=
  match c with
  | [] => Raise ValueError
  | x :: c => Ok (foldl Z.max x c)
  end.

(** [a < b] on rationals, as a boolean. *)
Definition Qltb (a b : Q) : bool := negb (Qle_bool b a).

#[global] Instance Qle_dec : RelDecision Qle.
Proof.
  intros x y. destruct (Qlt_le_dec y x) as [Hlt|Hle]; [right|left].
  - by apply Qlt_not_le.
  - done.
Defined.

(** [np.percentile(a, q)] on the flattened array, default (linear)
    method: the virtual index [(n - 1) q / 100] is split into its floor
    [j] and fraction [g], and the result interpolates between the
    [j]-th and the next sorted value. numpy (1.22 and later) fails with
    an [IndexError] on an empty array. *)
Definition percentile (a : list Q) (q : Q) : result Q :=
  let n := Z.of_nat (length a) in
  if n =? 0 then Raise IndexError
  else
    let sorted := merge_sort Qle a in
    let h := (inject_Z (n - 1) * q / 100)%Q in
    let j := Qfloor h in
    let g := (h - inject_Z j)%Q in
    let lo := default 0%Q (sorted !! Z.to_nat j) in
    let hi := default 0%Q (sorted !! Z.to_nat (Z.min (j + 1) (n - 1))) in
    Ok (lo + (hi - lo) * g)%Q.

(** [np.clip(x, lo, hi)] on one element: [minimum(maximum(x, lo), hi)]. *)
Definition clip (lo hi x : Q) : Q :=
  let x := if Qle_bool lo x then x else lo in
  if Qle_bool x hi then x else hi.

(** [normalize_volume(img)] in exact arithmetic; it is
    [Ieee.normalize_volume] below, read over the rationals. *)
Definition normalize_volume (img : volume Q) : result (volume Q) :=
  p1 ← percentile (flatten img) 1;
  p99 ← percentile (flatten img) 99;
  if Qle_bool p99 p1 then Ok (vmap (λ _, 0%Q) img)
  else
    let img := vmap (clip p1 p99) img in
    Ok (vmap (λ x, (x - p1) / (p99 - p1))%Q img).

(** ** Floating point

    [normalize_volume] above computes in exact rationals; that is the
    arithmetic [process_case] is modelled in, where only the names, the
    shapes and the order of the arrays matter. The code itself computes
    in numpy's floating point, where a difference can overflow to
    infinity and a quotient can be NaN. [Arith] is the arithmetic the
    function runs in: the element type, the operations of lines 30-34
    and [np.percentile]. *)
Class Arith := {
  num : Type;
  num_zero : num;
  num_one : num;
  num_sub : num → num → num;
  num_div : num → num → num;
  (** [<=], false when an operand is NaN *)
  num_le : num → num → bool;
  (** neither NaN nor infinite *)
  num_finite : num → bool;
  (** [np.percentile(a, q)] on the flattened array; [q] in percent *)
  np_percentile : list num → Z → result num;
}.

(** What IEEE 754 arithmetic with rounding to nearest and gradual
    underflow promises of these operations, for [float32] as for
    [float64]. Rounding is monotone and leaves 0 and 1 as they are, which
    gives [ieee_sub_nonneg], [ieee_sub_mono], [ieee_div_unit] and
    [ieee_div_mono], also where a result overflows to an infinity; two
    different finite numbers differ by a multiple of the smallest
    subnormal number, so their difference does not round to zero
    ([ieee_sub_pos]); an operation on an infinity or a NaN gives no
    finite result ([ieee_sub_finite]); [<=] is a total preorder away
    from NaN. *)
Class IEEE (A : Arith) : Prop := {
  ieee_le_zero_one : num_le num_zero num_zero = true ∧ num_le num_zero num_one = true;
  ieee_le_total (a b : num) :
    num_finite a = true → num_finite b = true →
    num_le a b = true ∨ num_le b a = true;
  ieee_le_trans (a b c : num) :
    num_le a b = true → num_le b c = true → num_le a c = true;
  ieee_sub_finite (a b : num) :
    num_finite (num_sub a b) = true → num_finite a = true ∧ num_finite b = true;
  ieee_sub_nonneg (a c : num) :
    num_finite a = true → num_finite c = true → num_le c a = true →
    num_le num_zero (num_sub a c) = true;
  ieee_sub_mono (a b c : num) :
    num_finite a = true → num_finite b = true → num_finite c = true →
    num_le a b = true → num_le (num_sub a c) (num_sub b c) = true;
  ieee_sub_pos (a b : num) :
    num_finite a = true → num_finite b = true → num_le b a = false →
    num_le (num_sub b a) num_zero = false;
  ieee_div_unit (u d : num) :
    num_le num_zero u = true → num_le u d = true →
    num_finite d = true → num_le d num_zero = false →
    num_le num_zero (num_div u d) = true ∧ num_le (num_div u d) num_one = true;
  ieee_div_mono (a b d : num) :
    num_le a b = true → num_finite d = true → num_le d num_zero = false →
    num_le (num_div a d) (num_div b d) = true;
}.

Module Ieee.
Section arith.
Context `{A : Arith}.

(** [np.isnan(x)]: NaN is the one value that is not [<=] itself. *)
Definition isnan (x : num) : bool := negb (num_le x x).

(** [np.maximum] and [np.minimum]: a NaN operand is the result. *)
Definition maximum (a b : num) : num :=
  if isnan a then a else if isnan b then b else if num_le b a then a else b.
Definition minimum (a b : num) : num :=
  if isnan a then a else if isnan b then b else if num_le a b then a else b.

(** [np.clip(x, a_min, a_max)] on one element:
    [minimum(maximum(x, a_min), a_max)]. *)
Definition clip (a_min a_max x : num) : num := minimum (maximum x a_min) a_max.

(** [normalize_volume(img)], lines 28-34. *)
Definition normalize_volume (img : volume num) : result (volume num) :=
  p1 ← np_percentile (flatten img) 1;
  p99 ← np_percentile (flatten img) 99;
  if num_le p99 p1 then Ok (vmap (λ _, num_zero) img)
  else
    let img := vmap (clip p1 p99) img in
    Ok (vmap (λ x, num_div (num_sub x p1) (num_sub p99 p1)) img).

(** [normalize_volume] once more, with arrays as numpy has them:
    references into a store, where [np.zeros_like], [np.clip], [-] and
    [/] each allocate their result and [img = ...] only rebinds the
    name. It says what the call does to the arrays that exist already. *)
Definition store : Type := list (volume num).
Definition new_array (a : volume num) (h : store) : nat * store :=
  (length h, h ++ [a]).
Definition array_at (h : store) (r : nat) : result (volume num) :=
  match h !! r with
  | Some a => Ok a
  | None => Raise ValueError
  end.
Definition normalize_volume_in (img : nat) (h : store) : result (nat * store) :=
  a ← array_at h img;
  p1 ← np_percentile (flatten a) 1;
  p99 ← np_percentile (flatten a) 99;
  if num_le p99 p1 then Ok (new_array (vmap (λ _, num_zero) a) h)
  else
    let '(img, h) := new_array (vmap (clip p1 p99) a) h in
    a ← array_at h img;
    let '(diff, h) := new_array (vmap (λ x, num_sub x p1) a) h in
    d ← array_at h diff;
    Ok (new_array (vmap (λ x, num_div x (num_sub p99 p1)) d) h).

End arith.
End Ieee.

(** Exact arithmetic: the rationals, where nothing overflows. *)
Definition exact : Arith := {|
  num := Q;
  num_zero := 0%Q;
  num_one := 1%Q;
  num_sub := Qminus;
  num_div := Qdiv;
  num_le := Qle_bool;
  num_finite := λ _, true;
  np_percentile a q := percentile a (inject_Z q);
|}.

(** numpy's [float64], the kernel's binary64 numbers. *)
Definition float_of_Z (z : Z) : float :=
  if z <? 0 then PrimFloat.opp (PrimFloat.of_uint63 (Uint63.of_Z (- z)))
  else PrimFloat.of_uint63 (Uint63.of_Z z).

(** [np.floor(v)] for a virtual index [0 ≤ v ≤ n - 1], as an integer:
    the number of [k = 1, ..., n - 1] that are at most [v]. *)
Definition floor_index (n : Z) (v : float) : Z :=
  Z.of_nat (length (filter (λ k, Is_true (PrimFloat.leb (float_of_Z k) v))
                           (seqZ 1 (n - 1)))).

(** The order [arr.partition] puts the floats in: NaN after every number. *)
Definition nan_last (a b : float) : Prop :=
  Is_true (PrimFloat.is_nan b || PrimFloat.leb a b).

(** numpy's [_lerp(a, b, t)]: [a + (b - a) * t], and [b - (b - a) * (1 - t)]
    where [t >= 0.5]. *)
Definition lerp (a b t : float) : float :=
  let diff_b_a := PrimFloat.sub b a in
  if PrimFloat.leb 0.5%float t
  then PrimFloat.sub b (PrimFloat.mul diff_b_a (PrimFloat.sub 1%float t))
  else PrimFloat.add a (PrimFloat.mul diff_b_a t).

(** [np.percentile(a, q)] on a flat [float64] array, linear method
    (numpy 1.22 and later): the virtual index [(n - 1) * (q / 100)], the
    two neighbours in the sorted array, both the last element when the
    virtual index is not below [n - 1], their interpolation by [_lerp];
    NaN when the array holds one; an [IndexError] on an empty array. *)
Definition percentile64 (a : list float) (q : Z) : result float :=
  let n := Z.of_nat (length a) in
  if n =? 0 then Raise IndexError
  else
    let arr := merge_sort nan_last a in
    let quantile := PrimFloat.div (float_of_Z q) 100%float in
    let virtual_index := PrimFloat.mul (float_of_Z (n - 1)) quantile in
    let above := PrimFloat.leb (float_of_Z (n - 1)) virtual_index in
    let below := PrimFloat.ltb virtual_index 0%float in
    let previous_index :=
      if below then 0 else if above then -1 else floor_index n virtual_index in
    let next_index :=
      if below then 0 else if above then -1 else floor_index n virtual_index + 1 in
    previous ← item arr previous_index;
    next ← item arr next_index;
    let gamma := PrimFloat.sub virtual_index (float_of_Z previous_index) in
    final ← item arr (-1);
    if PrimFloat.is_nan final then Ok final else Ok (lerp previous next gamma).

Definition binary64 : Arith := {|
  num := float;
  num_zero := 0%float;
  num_one := 1%float;
  num_sub := PrimFloat.sub;
  num_div := PrimFloat.div;
  num_le := PrimFloat.leb;
  num_finite := PrimFloat.is_finite;
  np_percentile := percentile64;
|}.

(** The closed interval [[0, 1]]. *)
Definition unit_interval `{A : Arith} (y : num) : Prop :=
  num_le num_zero y = true ∧ num_le y num_one = true.

(** ** [prepare_dataset.py]: writing patches *)

(** What [nib.load] gives and [nib.save] takes: the data and the affine. *)
Definition affine : Type := list (list Q).
Record nifti := Nifti { get_fdata : volume Q; nii_affine : affine }.

(** The files written so far by [nib.save], oldest first. Directories
    are not part of it: the [mkdir] calls (lines 89-90 and 195, each with
    [exist_ok=True]) make directories, also for a case that is skipped
    afterwards, and write no file. *)
Definition fs : Type := list (string * nifti).

(** Code that writes files and may raise. *)
Definition io (A : Type) : Type := fs → fs * result A.
#[global] Instance io_ret : MRet io := λ A a s, (s, Ok a).
#[global] Instance io_bind : MBind io := λ A B k m s,
  match m s with
  | (s', Ok a) => k a s'
  | (s', Raise e) => (s', Raise e)
  end.
Definition lift {A} (r : result A) : io A := λ s, (s, r).
Definition nib_save (img : nifti) (path : string) : io unit :=
  λ s, (s ++ [(path, img)], Ok ()).

(** A [for] loop that carries the variable [acc] through its body. *)
Fixpoint for_each {A S} (l : list A) (body : S → A → io S) (acc : S) : io S :=
  match l with
  | [] => mret acc
  | a :: l => acc ← body acc a; for_each l body acc
  end.

(** [out_dir / name] *)
Definition path_join (out_dir name : string) : string := out_dir +:+ "/" +:+ name.

(** [save_patch(pid, patch_type, patch_idx, modalities, label, out_dir, affine)] *)
Definition save_patch (pid patch_type : string) (patch_idx : Z)
    (modalities : list (string * volume Q)) (label : volume Q)
    (out_dir : string) (aff : affine) : io unit :=
  _ ← for_each modalities
        (λ _ '(modality, data),
           nib_save (Nifti data aff)
                    (path_join out_dir (modality_filename pid modality patch_type patch_idx)))
        ();
  nib_save (Nifti label aff) (path_join out_dir (label_filename pid patch_type patch_idx)).

(** ** [prepare_dataset.py]: [process_case] *)

(** [scipy.ndimage.label]: the labelled array and the number of components. *)
Class Labeller := ndi_label : volume bool → volume Z * Z.

(** [s.lower()] on ASCII letters. *)
Definition lower_ascii (c : ascii) : ascii :=
  let n := nat_of_ascii c in
  if (65 <=? n)%nat && (n <=? 90)%nat then ascii_of_nat (n + 32) else c.
Fixpoint lower (s : string) : string :=
  match s with
  | EmptyString => EmptyString
  | String c s => String (lower_ascii c) (lower s)
  end.

(** [d[k] = v] on a dict, kept in insertion order. *)
Fixpoint dict_set {V} (k : string) (v : V) (d : list (string * V)) : list (string * V) :=
  match d with
  | [] => [(k, v)]
  | (k', v') :: d => if decide (k' = k) then (k, v) :: d else (k', v') :: dict_set k v d
  end.

(** Lines 92-101: sort the files [case_dir.glob("*.nii*")] yields into
    the modalities and the ground truth. A file is its name and what
    [nib.load] reads from it. *)
Definition discover (case_files : list (string * nifti))
    (modalities_filter : option (list string))
  : list (string * nifti) * option nifti :=
  foldl (λ '(modality_paths, gt_path) '(name, img),
           if String.prefix "gt" (lower name) then (modality_paths, Some img)
           else
             let modality := strip_ext name in
             if match modalities_filter with
                | None => true
                | Some allowed => bool_decide (modality ∈ allowed)
                end
             then (dict_set modality img modality_paths, gt_path)
             else (modality_paths, gt_path))
        ([], None) case_files.

(** Lines 124-134: the box of component [comp], padded and clamped,
    before [ensure_size]. *)
Definition component_box (labeled : volume Z) (label_shape : Z * Z * Z) (comp : Z)
  : result ((Z * Z) * (Z * Z) * (Z * Z)) :=
  let mask := vmap (λ v, v =? comp) labeled in
  let coords := where3 mask in
  zmin ← array_min ((λ c, c.1.1) <$> coords);
  ymin ← array_min ((λ c, c.1.2) <$> coords);
  xmin ← array_min ((λ c, c.2) <$> coords);
  zmax ← array_max ((λ c, c.1.1) <$> coords);
  ymax ← array_max ((λ c, c.1.2) <$> coords);
  xmax ← array_max ((λ c, c.2) <$> coords);
  let pad := 10 in
  let zmin := Z.max (zmin - pad) 0 in
  let ymin := Z.max (ymin - pad) 0 in
  let xmin := Z.max (xmin - pad) 0 in
  let zmax := Z.min (zmax + pad + 1) label_shape.1.1 in
  let ymax := Z.min (ymax + pad + 1) label_shape.1.2 in
  let xmax := Z.min (xmax + pad + 1) label_shape.2 in
  Ok ((zmin, zmax), (ymin, ymax), (xmin, xmax)).

Section process_case.
Context (pid : string) (modalities : list (string * volume Q)) (label : volume Q).
Context (patch_size stride : Z * Z * Z) (aff : affine).

(** Lines 136-144: the body of the loop over components, after the box. *)
Definition save_positive (lesion_dir : string) (box : (Z * Z) * (Z * Z) * (Z * Z))
    (pos_idx : Z) : io Z :=
  let '((zmin, zmax), (ymin, ymax), (xmin, xmax)) := box in
  let '(zmin, zmax) := ensure_size zmin zmax patch_size.1.1 (shape label).1.1 in
  let '(ymin, ymax) := ensure_size ymin ymax patch_size.1.2 (shape label).1.2 in
  let '(xmin, xmax) := ensure_size xmin xmax patch_size.2 (shape label).2 in
  let label_patch := getitem3 label (zmin, zmax) (ymin, ymax) (xmin, xmax) in
  let modality_patches :=
    (λ '(m, img), (m, getitem3 img (zmin, zmax) (ymin, ymax) (xmin, xmax)))
      <$> modalities in
  _ ← save_patch pid "positive" pos_idx modality_patches label_patch lesion_dir aff;
  mret (pos_idx + 1).

(** Lines 122-144, given what [ndi.label] returned. *)
Definition positive_loop (lesion_dir : string) (labeled : volume Z) (num : Z) : io Z :=
  comps ← lift (range 1 (num + 1) 1);
  for_each comps
    (λ pos_idx comp,
       box ← lift (component_box labeled (shape label) comp);
       save_positive lesion_dir box pos_idx)
    0.

(** Lines 154-161: the body of the innermost loop. *)
Definition negative_window (background_dir : string) (neg_idx : Z) (w : Z * Z * Z)
  : io Z :=
  let '(z, y, x) := w in
  let z_end := z + patch_size.1.1 in
  let y_end := y + patch_size.1.2 in
  let x_end := x + patch_size.2 in
  let label_patch := getitem3 label (z, z_end) (y, y_end) (x, x_end) in
  if existsb (Qltb 0) (flatten label_patch) then mret neg_idx
  else
    let modality_patches :=
      (λ '(m, img), (m, getitem3 img (z, z_end) (y, y_end) (x, x_end)))
        <$> modalities in
    _ ← save_patch pid "negative" neg_idx modality_patches label_patch background_dir aff;
    mret (neg_idx + 1).

(** Lines 147-161. *)
Definition negative_loop (background_dir : string) : io Z :=
  z_starts ← lift (generate_indices (shape label).1.1 patch_size.1.1 stride.1.1);
  y_starts ← lift (generate_indices (shape label).1.2 patch_size.1.2 stride.1.2);
  x_starts ← lift (generate_indices (shape label).2 patch_size.2 stride.2);
  for_each z_starts
    (λ neg_idx z,
       for_each y_starts
         (λ neg_idx y,
            for_each x_starts
              (λ neg_idx x, negative_window background_dir neg_idx (z, y, x))
              neg_idx)
         neg_idx)
    0.

End process_case.

(** [process_case]: [pid] is [case_dir.name], [case_files] what the glob
    over [case_dir] yields. The value is [None] when the case is skipped
    and otherwise the two counts the function prints. The two [mkdir]
    calls of lines 89-90 come first and write no file, so they do not
    show in [fs]. *)
Definition process_case `{Labeller} (pid : string) (case_files : list (string * nifti))
    (output_dir : string) (patch_size stride : Z * Z * Z)
    (modalities_filter : option (list string)) : io (option (Z * Z)) :=
  let lesion_dir := path_join output_dir "lesion_patches" in
  let background_dir := path_join output_dir "background_patches" in
  let '(modality_paths, gt_path) := discover case_files modalities_filter in
  match gt_path, modality_paths with
  | None, _ | _, [] => mret None
  | Some gt_img, (_, first_img) :: _ =>
      modalities ← for_each modality_paths
        (λ modalities '(modality, img),
           data ← lift (normalize_volume (get_fdata img));
           mret (dict_set modality data modalities))
        [];
      let aff := nii_affine first_img in
      let label := get_fdata gt_img in
      let '(labeled, num) := ndi_label (vmap (Qltb 0) label) in
      pos_idx ← positive_loop pid modalities label patch_size aff lesion_dir labeled num;
      neg_idx ← negative_loop pid modalities label patch_size stride aff background_dir;
      mret (Some (pos_idx, neg_idx))
  end.

(** ** [ib_sampling/utils.py] *)

(** The generator behind [np.random]: [rng_seed] is [np.random.seed],
    [random_interval g m] draws an integer of [[0, m]] as numpy's
    [random_interval] does. *)
Class BitGenerator := {
  rng_state : Type;
  rng_seed : Z → rng_state;
  random_interval : rng_state → N → N * rng_state;
}.

(** What numpy promises of [random_interval]. *)
Class BoundedGenerator (G : BitGenerator) : Prop :=
  random_interval_bound : ∀ (g : rng_state) (m : N), (fst (random_interval g m) ≤ m)%N.

Section utils.
Context `{G : BitGenerator}.

(** [x[i], x[j] = x[j], x[i]] *)
Definition swap_items {A} (i j : nat) (x : list A) : result (list A) :=
  match x !! j, x !! i with
  | Some xj, Some xi => Ok (<[j:=xi]> (<[i:=xj]> x))
  | _, _ => Raise IndexError
  end.

(** [np.random.shuffle(x)] on a Python list: for [i = n-1, ..., 1] draw
    [j] in [[0, i]] and swap [x[i]] with [x[j]]. *)
Fixpoint shuffle_from {A} (i : nat) (g : rng_state) (x : list A)
  : result (list A * rng_state) :=
  match i with
  | O => Ok (x, g)
  | S i' =>
      let '(j, g) := random_interval g (N.of_nat i) in
      x ← swap_items i (N.to_nat j) x;
      shuffle_from i' g x
  end.
Definition shuffle {A} (g : rng_state) (x : list A) : result (list A * rng_state) :=
  shuffle_from (length x - 1) g x.

(** The body of the loop over [all_files]: the patient ID a file name
    contributes, [None] where the loop [continue]s. *)
Definition patient_id_of (filename : string) : option string :=
  if contains "label" filename then None
  else
    let parts := split "_"%char (strip_ext filename) in
    if (length parts <? 4)%nat then None
    else Some (join "_" (slice 0 (-3) parts)).

(** [patient_ids.add(patient_id)]; the set is kept in insertion order,
    one of the orders Python may iterate it in. *)
Definition set_add (x : string) (s : list string) : list string :=
  if decide (x ∈ s) then s else s ++ [x].

Definition collect_patient_ids (all_files : list string) : list string :=
  fold_left
    (λ ids file_path,
       match patient_id_of (basename file_path) with
       | Some patient_id => set_add patient_id ids
       | None => ids
       end)
    all_files [].

(** [folds[-2].extend(folds[-1]); folds.pop()] *)
Definition merge_tail {A} (folds : list (list A)) : result (list (list A)) :=
  penult ← item folds (-2);
  final ← item folds (-1);
  folds ← set_item folds (-2) (penult ++ final);
  Ok (removelast folds).

(** Lines 52-59: chunk the shuffled IDs and merge the tail once. *)
Definition make_folds {A} (patient_ids : list A) (max_splits : Z)
  : result (list (list A)) :=
  let num_patients := Z.of_nat (length patient_ids) in
  q ← floordiv num_patients max_splits;
  let num_val_patients := Z.max 1 q in
  starts ← range 0 num_patients num_val_patients;
  let folds := (λ i, slice i (i + num_val_patients) patient_ids) <$> starts in
  if max_splits <? Z.of_nat (length folds) then merge_tail folds else Ok folds.

(** [args]: [split], and [max_splits] with [getattr]'s default 7. *)
Record args := { split_ : Z; max_splits : option Z }.

(** Lines 61-63. *)
Definition select_fold {A} (folds : list (list A)) (split : Z)
  : result (list A * list A) :=
  val_fold_index ← modulo (split - 1) (Z.of_nat (length folds));
  val_patient_ids ← item folds val_fold_index;
  let train_patient_ids :=
    concat (imap (λ i fold, if decide (Z.of_nat i = val_fold_index) then [] else fold)
                 folds) in
  Ok (train_patient_ids, val_patient_ids).

(** [train_validate_dicts]: [g] is the state of the global generator
    when the function is entered, the two lists are what [glob]
    finds in [lesion_patches] and [background_patches]. The result is
    [(train_patient_ids, val_patient_ids)] and the generator's state;
    what the function prints is left out. *)
Definition train_validate_dicts (g : rng_state)
    (lesion_files background_files : list string) (a : args)
  : result (list string * list string * rng_state) :=
  let all_files := lesion_files ++ background_files in
  let patient_ids := collect_patient_ids all_files in
  let patient_ids := merge_sort String.le patient_ids in
  let g := rng_seed 42 in
  '(patient_ids, g) ← shuffle g patient_ids;
  folds ← make_folds patient_ids (default 7 (max_splits a));
  '(train_patient_ids, val_patient_ids) ← select_fold folds (split_ a);
  Ok (train_patient_ids, val_patient_ids, g).

End utils.

(** A small linear congruential generator standing in for numpy's
    Mersenne Twister, to run the splitter on concrete corpora. *)
Definition lcg : BitGenerator := {|
  rng_state := N;
  rng_seed z := Z.to_N z;
  random_interval g m := ((g * 7 + 3) mod (m + 1), (g * 5 + 1) mod 65536)%N;
|}.

(** ** Specification vocabulary *)

(** The union of the windows [[s, s + patch)] over [starts] is [[0, dim)]. *)
Definition window_cover (dim patch : Z) (starts : list Z) : Prop :=
  ∀ v : Z, (∃ s, s ∈ starts ∧ s ≤ v < s + patch) ↔ 0 ≤ v < dim.

(** The files one call of [save_patch] leaves behind, in the order
    they are written. *)
Definition patch_files (pid patch_type : string) (patch_idx : Z)
    (modalities : list (string * volume Q)) (label : volume Q)
    (out_dir : string) (aff : affine) : fs :=
  ((λ '(modality, data),
      (path_join out_dir (modality_filename pid modality patch_type patch_idx),
       Nifti data aff)) <$> modalities)
  ++ [(path_join out_dir (label_filename pid patch_type patch_idx), Nifti label aff)].

(** The sub-volume a box cuts out of an array, and out of each modality. *)
Definition crop {A} (v : volume A) (box : (Z * Z) * (Z * Z) * (Z * Z)) : volume A :=
  getitem3 v box.1.1 box.1.2 box.2.
Definition crop_all (modalities : list (string * volume Q))
    (box : (Z * Z) * (Z * Z) * (Z * Z)) : list (string * volume Q) :=
  (λ '(m, img), (m, crop img box)) <$> modalities.

(** The window of size [patch_size] that starts at [w]. *)
Definition window_box (patch_size : Z * Z * Z) (w : Z * Z * Z)
  : (Z * Z) * (Z * Z) * (Z * Z) :=
  ((w.1.1, w.1.1 + patch_size.1.1), (w.1.2, w.1.2 + patch_size.1.2),
   (w.2, w.2 + patch_size.2)).

(** The candidate windows, in the order the three nested loops visit them. *)
Definition candidates (z_starts y_starts x_starts : list Z) : list (Z * Z * Z) :=
  z ← z_starts; y ← y_starts; x ← x_starts; [(z, y, x)].

(** No voxel of the array is non-zero. *)
Definition all_zero (v : volume Q) : Prop := Forall (λ x, x == 0)%Q (flatten v).

#[global] Instance Qeq_decision : RelDecision Qeq := Qeq_dec.

(** The candidate windows over which the label is all zero. *)
Definition accepted_windows (label : volume Q) (patch_size : Z * Z * Z)
    (z_starts y_starts x_starts : list Z) : list (Z * Z * Z) :=
  filter (λ w, all_zero (crop label (window_box patch_size w)))
         (candidates z_starts y_starts x_starts).

(** The voxel at [(z, y, x)], if the array has one there. *)
Definition voxel_at {A} (v : volume A) (z y x : nat) : option A :=
  plane ← voxels v !! z; row ← plane !! y; row !! x.

(** The nesting of [voxels] agrees with [shape]. *)
Definition wf_volume {A} (v : volume A) : Prop :=
  Z.of_nat (length (voxels v)) = (shape v).1.1 ∧
  Forall (λ plane : list (list A),
            Z.of_nat (length plane) = (shape v).1.2 ∧
            Forall (λ row : list A, Z.of_nat (length row) = (shape v).2) plane)
         (voxels v).

(** [c] is a voxel of component [comp] of the labelled array. *)
Definition in_component (labeled : volume Z) (comp : Z) (c : Z * Z * Z) : Prop :=
  ∃ z y x : nat,
    c = (Z.of_nat z, Z.of_nat y, Z.of_nat x) ∧ voxel_at labeled z y x = Some comp.

(** [[lo, hi]] is the least interval that holds the coordinates [proj c]
    of the component's voxels. *)
Definition bounding_interval (labeled : volume Z) (comp : Z)
    (proj : Z * Z * Z → Z) (lo hi : Z) : Prop :=
  (∃ c, in_component labeled comp c ∧ proj c = lo) ∧
  (∃ c, in_component labeled comp c ∧ proj c = hi) ∧
  ∀ c, in_component labeled comp c → lo ≤ proj c ≤ hi.

(** [[lo, hi]] widened by 10 voxels on each side and clamped to the
    axis, as a half-open interval. *)
Definition padded (lo hi extent : Z) : Z * Z :=
  (Z.max (lo - 10) 0, Z.min (hi + 10 + 1) extent).

(** The voxel [c] lies in the box. *)
Definition inside (box : (Z * Z) * (Z * Z) * (Z * Z)) (c : Z * Z * Z) : Prop :=
  box.1.1.1 ≤ c.1.1 < box.1.1.2 ∧
  box.1.2.1 ≤ c.1.2 < box.1.2.2 ∧
  box.2.1 ≤ c.2 < box.2.2.

(** The box after [ensure_size] on each axis. *)
Definition enforce (patch_size label_shape : Z * Z * Z)
    (box : (Z * Z) * (Z * Z) * (Z * Z)) : (Z * Z) * (Z * Z) * (Z * Z) :=
  (ensure_size box.1.1.1 box.1.1.2 patch_size.1.1 label_shape.1.1,
   ensure_size box.1.2.1 box.1.2.2 patch_size.1.2 label_shape.1.2,
   ensure_size box.2.1 box.2.2 patch_size.2 label_shape.2).

(** How many chunks of length [c] a list of length [n] is cut into. *)
Definition chunk_count (n c : Z) : Z := if 0 <? n then (n - 1) / c + 1 else 0.

(** The patient IDs the corpus [all_files] holds. *)
Definition corpus_id (all_files : list string) (p : string) : Prop :=
  ∃ file_path, file_path ∈ all_files ∧ patient_id_of (basename file_path) = Some p.

(** The interval [[a, b)] lies inside [[a', b')]. *)
Definition interval_within (a b a' b' : Z) : Prop := a' ≤ a ∧ b ≤ b'.

(** ** [prepare_dataset.py]: [main] *)

(** What [argparse] hands to [main]: the patch size (default 128 on each
    axis), the stride if one was given, the modality allow-list if one
    was given. *)
Record cli_args := CliArgs {
  cli_patch_size : Z * Z * Z;
  cli_stride : option (Z * Z * Z);
  cli_modalities : option (list string);
}.

(** An entry of [input_dir]: its name, whether it is a directory and,
    for a directory, the files the glob of [process_case] yields in it. *)
Record dir_entry := DirEntry {
  entry_name : string;
  entry_is_dir : bool;
  entry_files : list (string * nifti);
}.

(** [tuple(s // 2 for s in patch_size)] *)
Definition default_stride (patch_size : Z * Z * Z) : Z * Z * Z :=
  (patch_size.1.1 / 2, patch_size.1.2 / 2, patch_size.2 / 2).

(** [sorted(input_dir.iterdir())]: siblings are ordered by their names. *)
Definition sorted_entries (entries : list dir_entry) : list dir_entry :=
  merge_sort (λ e1 e2, String.le (entry_name e1) (entry_name e2)) entries.

(** [main]: [entries] is what [input_dir.iterdir()] yields. *)
Definition main `{Labeller} (entries : list dir_entry) (output_dir : string)
    (a : cli_args) : io unit :=
  let patch_size := cli_patch_size a in
  let stride :=
    match cli_stride a with
    | None => default_stride patch_size
    | Some stride => stride
    end in
  let modalities_filter := cli_modalities a in
  for_each (sorted_entries entries)
    (λ _ case,
       if entry_is_dir case then
         _ ← process_case (entry_name case) (entry_files case) output_dir
               patch_size stride modalities_filter;
         mret ()
       else mret ())
    ().

(** ** More specification vocabulary *)

(** The box lies inside an array of the given shape. *)
Definition box_within (box : (Z * Z) * (Z * Z) * (Z * Z)) (sh : Z * Z * Z) : Prop :=
  (0 ≤ box.1.1.1 ≤ box.1.1.2 ∧ box.1.1.2 ≤ sh.1.1) ∧
  (0 ≤ box.1.2.1 ≤ box.1.2.2 ∧ box.1.2.2 ≤ sh.1.2) ∧
  (0 ≤ box.2.1 ≤ box.2.2 ∧ box.2.2 ≤ sh.2).

(** The lengths of the three sides of a box. *)
Definition box_shape (box : (Z * Z) * (Z * Z) * (Z * Z)) : Z * Z * Z :=
  (box.1.1.2 - box.1.1.1, box.1.2.2 - box.1.2.1, box.2.2 - box.2.1).

(** What a loop of [save_patch] calls leaves behind: groups of files,
    one per patch, numbered from [n0], each over the modalities. *)
Definition patches_written (pid : string) (modalities : list (string * volume Q))
    (aff : affine) (patch_type out_dir : string) (n0 : Z) (s s' : fs) (n : Z) : Prop :=
  ∃ groups : list (list (string * volume Q) * volume Q),
    Forall (λ g, g.1.*1 = modalities.*1) groups ∧
    s' = s ++ concat (imap (λ i g, patch_files pid patch_type (n0 + Z.of_nat i)
                                     g.1 g.2 out_dir aff) groups) ∧
    n = n0 + Z.of_nat (length groups).

(* ===================================================================== *)
(** * Part II: theorems                                                   *)
(* ===================================================================== *)

(** ** IntervalSizeEnforcer *)

Ltac unfold_ensure_size :=
  unfold ensure_size; cbv zeta;
  repeat match goal with
  | |- context [?a <=? ?b] => destruct (Z.leb_spec a b)
  | |- context [?a <? ?b] => destruct (Z.ltb_spec a b)
  | |- context [?a =? ?b] => destruct (Z.eqb_spec a b)
  end; cbn [fst snd].

(** C2: for [0 ≤ start < end ≤ max_dim] and [min_size ≤ max_dim] the
    interval returned by [ensure_size] is at least [min_size] long, stays
    inside [[0, max_dim]] and contains the original interval. *)
Theorem ensure_size_widens (start end_ min_size max_dim : Z) :
  0 ≤ start < end_ → end_ ≤ max_dim → min_size ≤ max_dim →
  let '(start', end') := ensure_size start end_ min_size max_dim in
  min_size ≤ end' - start' ∧ 0 ≤ start' ∧ end' ≤ max_dim ∧
  interval_within start end_ start' end'.
Proof.
  intros Hse Hem Hmm. unfold interval_within.
  unfold_ensure_size; Z.div_mod_to_equations; lia.
Qed.

Lemma ensure_size_widens_witness :
  let '(start', end') := ensure_size 3 5 8 20 in
  8 ≤ end' - start' ∧ 0 ≤ start' ∧ end' ≤ 20 ∧ interval_within 3 5 start' end'.
Proof. apply (ensure_size_widens 3 5 8 20); lia. Defined.

(** C9: when the axis is shorter than the requested minimum,
    [ensure_size] returns the whole axis [(0, max_dim)]. *)
Theorem ensure_size_saturates (start end_ min_size max_dim : Z) :
  0 ≤ start < end_ → end_ ≤ max_dim → max_dim < min_size →
  ensure_size start end_ min_size max_dim = (0, max_dim).
Proof.
  intros Hse Hem Hmm.
  unfold_ensure_size; f_equal; Z.div_mod_to_equations; lia.
Qed.

Lemma ensure_size_saturates_witness : ensure_size 6 7 11 10 = (0, 10).
Proof. apply ensure_size_saturates; lia. Defined.

(** ** SlidingWindowIndexer *)

Section range_facts.

Lemma range_len_pos (stop step : Z) :
  0 < step → 0 < stop → range_len 0 stop step = (stop - 1) / step + 1.
Proof.
  intros Hstep Hstop. unfold range_len.
  destruct (Z.ltb_spec 0 step); [|lia].
  destruct (Z.ltb_spec 0 stop); [|lia].
  f_equal. f_equal. lia.
Qed.

Lemma range_pos (stop step : Z) :
  0 < step → 0 < stop →
  range 0 stop step = Ok ((λ i, 0 + i * step) <$> seqZ 0 ((stop - 1) / step + 1)).
Proof.
  intros Hstep Hstop. unfold range.
  destruct (Z.eqb_spec step 0); [lia|].
  by rewrite range_len_pos.
Qed.

Lemma head_fmap_seqZ (f : Z → Z) (k : Z) :
  0 ≤ k → head (f <$> seqZ 0 (k + 1)) = Some (f 0).
Proof. intros Hk. by rewrite seqZ_cons by lia. Qed.

Lemma last_fmap_seqZ (f : Z → Z) (k : Z) :
  0 ≤ k → last (f <$> seqZ 0 (k + 1)) = Some (f k).
Proof.
  intros Hk. rewrite seqZ_app, fmap_app by lia.
  rewrite (seqZ_cons (0 + k) 1), (seqZ_nil _ (Z.pred 1)) by lia.
  cbn. by rewrite last_snoc.
Qed.

Lemma elem_of_fmap_seqZ (step k s : Z) :
  s ∈ (λ i, 0 + i * step) <$> seqZ 0 (k + 1) ↔ ∃ i, 0 ≤ i ≤ k ∧ s = i * step.
Proof.
  rewrite list_elem_of_fmap. setoid_rewrite elem_of_seqZ.
  split; intros (i & H1 & H2); exists i; lia.
Qed.

End range_facts.

(** The starts returned for [dim > patch] and a positive stride: the
    multiples of [stride] up to [dim - patch], and [dim - patch] itself. *)
Lemma generate_indices_starts (dim patch stride : Z) :
  patch < dim → 1 ≤ stride →
  ∃ l, generate_indices dim patch stride = Ok l ∧
       head l = Some 0 ∧ last l = Some (dim - patch) ∧
       ∀ s, s ∈ l ↔ (∃ i, 0 ≤ i ≤ (dim - patch) / stride ∧ s = i * stride)
                    ∨ s = dim - patch.
Proof.
  intros Hdim Hstride. unfold generate_indices.
  destruct (Z.leb_spec dim patch); [lia|].
  rewrite range_pos by lia. cbn [mbind result_bind].
  replace (dim - patch + 1 - 1) with (dim - patch) by lia.
  set (k := (dim - patch) / stride).
  assert (0 ≤ k) as Hk by (apply Z.div_pos; lia).
  unfold last_item. rewrite last_fmap_seqZ by done. cbn [mbind result_bind].
  destruct (Z.eqb_spec (0 + k * stride) (dim - patch)) as [Heq|Hne]; cbn [negb].
  - eexists; split; [done|]. split; [by rewrite head_fmap_seqZ|].
    split; [by rewrite last_fmap_seqZ, Heq|].
    intros s. rewrite elem_of_fmap_seqZ. split; [tauto|].
    intros [?| ->]; [done|]. exists k. lia.
  - eexists; split; [done|]. split.
    + rewrite seqZ_cons by lia. done.
    + split; [by rewrite last_snoc|].
      intros s. rewrite elem_of_app, elem_of_fmap_seqZ, list_elem_of_singleton.
      tauto.
Qed.

(** C1 (as amended): for [dim ≤ patch] the result is [[0]]; for
    [dim > patch ≥ 1] and [stride ≥ 1] the first start is [0] and the last
    is [dim - patch], and the windows cover exactly [[0, dim)] whenever
    [stride ≤ patch]; for (300, 128, 64) the starts are [0, 64, 128, 172]. *)
Theorem generate_indices_cover (dim patch stride : Z) :
  1 ≤ patch → 1 ≤ stride →
  (dim ≤ patch → generate_indices dim patch stride = Ok [0]) ∧
  (patch < dim →
   ∃ l, generate_indices dim patch stride = Ok l ∧
        head l = Some 0 ∧ last l = Some (dim - patch) ∧
        (stride ≤ patch → window_cover dim patch l)) ∧
  generate_indices 300 128 64 = Ok [0; 64; 128; 172].
Proof.
  intros Hpatch Hstride. split; [|split; [|done]].
  - intros Hle. unfold generate_indices.
    by destruct (Z.leb_spec dim patch); [|lia].
  - intros Hdim.
    destruct (generate_indices_starts dim patch stride) as (l & Hl & Hhd & Hlast & Hin);
      [done..|].
    exists l. split; [done|]. split; [done|]. split; [done|].
    intros Hsp v. split.
    + intros (s & Hs & Hv). apply Hin in Hs as [(i & Hi & ->)| ->]; [|lia].
      assert (0 ≤ i * stride) by nia.
      pose proof (Z.mul_div_le (dim - patch) stride ltac:(lia)).
      assert (i * stride ≤ (dim - patch) / stride * stride) by nia. lia.
    + intros Hv. destruct (Z.lt_ge_cases v (dim - patch)) as [Hlt|Hge].
      * exists (v / stride * stride). split.
        -- apply Hin. left. exists (v / stride). split; [|done].
           split; [apply Z.div_pos; lia|].
           apply Z.div_le_mono; lia.
        -- pose proof (Z.mul_div_le v stride ltac:(lia)).
           pose proof (Z.mul_succ_div_gt v stride ltac:(lia)). lia.
      * exists (dim - patch). split; [|lia]. apply Hin. by right.
Qed.

Lemma generate_indices_cover_witness :
  ∃ l, generate_indices 300 128 64 = Ok l ∧
       head l = Some 0 ∧ last l = Some (300 - 128) ∧ window_cover 300 128 l.
Proof.
  destruct (generate_indices_cover 300 128 64) as (_ & H & _); [lia..|].
  destruct H as (l & Hl & Hhead & Hlast & Hcover); [lia|].
  exists l. split; [exact Hl|]. split; [exact Hhead|]. split; [exact Hlast|].
  apply Hcover. lia.
Defined.

(** C1 as stated fails when the stride exceeds the patch length: for
    (10, 2, 5) the starts are [0, 5, 8] and position 3 lies in no window. *)
Lemma generate_indices_gap :
  generate_indices 10 2 5 = Ok [0; 5; 8] ∧ ¬ window_cover 10 2 [0; 5; 8].
Proof.
  split; [done|]. intros Hcover.
  destruct (proj2 (Hcover 3)) as (s & Hs & Hv); [lia|].
  rewrite !elem_of_cons, elem_of_nil in Hs. lia.
Qed.

(** ** PatientFoldSplitter: the seeded shuffle *)

Section shuffle_facts.
Context `{G : BitGenerator}.

Lemma swap_items_Permutation {A} (i j : nat) (x x' : list A) :
  swap_items i j x = Ok x' → x' ≡ₚ x.
Proof.
  unfold swap_items.
  destruct (x !! j) as [xj|] eqn:Hj; [|done].
  destruct (x !! i) as [xi|] eqn:Hi; [|done].
  intros [= <-]. by apply Permutation_insert_swap.
Qed.

Lemma swap_items_Ok {A} (i j : nat) (x : list A) :
  (i < length x)%nat → (j < length x)%nat → ∃ x', swap_items i j x = Ok x'.
Proof.
  intros Hi Hj. unfold swap_items.
  destruct (lookup_lt_is_Some_2 x j Hj) as [xj ->].
  destruct (lookup_lt_is_Some_2 x i Hi) as [xi ->]. eauto.
Qed.

Lemma shuffle_from_Permutation {A} (i : nat) (g g' : rng_state) (x x' : list A) :
  shuffle_from i g x = Ok (x', g') → x' ≡ₚ x.
Proof.
  revert g x. induction i as [|i IH]; intros g x; cbn [shuffle_from].
  - by intros [= <- _].
  - destruct (random_interval g (N.of_nat (S i))) as [j g1].
    destruct (swap_items (S i) (N.to_nat j) x) as [x1|] eqn:Hswap; [|done].
    cbn [mbind result_bind]. intros Hrec%IH.
    by rewrite Hrec, (swap_items_Permutation _ _ _ _ Hswap).
Qed.

Lemma shuffle_from_Ok `{!BoundedGenerator G} {A} (i : nat) (g : rng_state)
    (x : list A) :
  (i < length x)%nat ∨ i = 0%nat → ∃ r, shuffle_from i g x = Ok r.
Proof.
  revert g x. induction i as [|i IH]; intros g x Hi; cbn [shuffle_from]; [eauto|].
  destruct Hi as [Hi|]; [|done].
  pose proof (random_interval_bound g (N.of_nat (S i))) as Hj.
  destruct (random_interval g (N.of_nat (S i))) as [j g1]. cbn [fst] in Hj.
  destruct (swap_items_Ok (S i) (N.to_nat j) x) as [x1 Hswap]; [lia..|].
  rewrite Hswap. cbn [mbind result_bind]. apply IH. left.
  apply swap_items_Permutation, Permutation_length in Hswap. lia.
Qed.

Lemma shuffle_Permutation {A} (g g' : rng_state) (x x' : list A) :
  shuffle g x = Ok (x', g') → x' ≡ₚ x.
Proof. apply shuffle_from_Permutation. Qed.

Lemma shuffle_Ok `{!BoundedGenerator G} {A} (g : rng_state) (x : list A) :
  ∃ r, shuffle g x = Ok r.
Proof. apply shuffle_from_Ok. destruct x; cbn [length]; lia. Qed.

End shuffle_facts.

(** ** PatientFoldSplitter: chunking *)

Section fold_facts.
Context {A : Type}.
Implicit Types (l : list A) (folds : list (list A)).

Lemma slice_nonneg (a b : Z) l :
  0 ≤ a → 0 ≤ b →
  slice a b l = take (Z.to_nat b - Z.to_nat a) (drop (Z.to_nat a) l).
Proof.
  intros Ha Hb. unfold slice, slice_bound.
  destruct (Z.ltb_spec a 0); [lia|]. destruct (Z.ltb_spec b 0); [lia|].
  destruct (Z.le_gt_cases a (Z.of_nat (length l))) as [Hal|Hal].
  - rewrite (Z.min_l a) by done.
    destruct (Z.le_gt_cases b (Z.of_nat (length l))) as [Hbl|Hbl].
    + rewrite (Z.min_l b) by done. f_equal. lia.
    + rewrite (Z.min_r b) by lia.
      rewrite !take_ge; [done|rewrite length_drop; lia..].
  - rewrite (Z.min_r a) by lia.
    rewrite (drop_ge l (Z.to_nat a)), (drop_ge l (Z.to_nat _)) by lia.
    by rewrite !take_nil.
Qed.

(** The first [m] chunks of length [c], concatenated. *)
Lemma chunks_concat l (c m : nat) :
  concat ((λ i, slice i (i + Z.of_nat c) l) <$>
          ((λ i, 0 + i * Z.of_nat c) <$> seqZ 0 (Z.of_nat m)))
  = take (m * c) l.
Proof.
  induction m as [|m IH]; [done|].
  rewrite seqZ_S, !fmap_app, concat_app, IH. cbn [fmap list_fmap concat].
  rewrite app_nil_r, slice_nonneg by lia.
  replace (Z.to_nat (0 + (0 + Z.of_nat m) * Z.of_nat c)) with (m * c)%nat by lia.
  rewrite take_take_drop. f_equal. lia.
Qed.

Lemma chunks_concat_Z l (c m : Z) :
  0 ≤ c → 0 ≤ m →
  concat ((λ i, slice i (i + c) l) <$> ((λ i, 0 + i * c) <$> seqZ 0 m))
  = take (Z.to_nat m * Z.to_nat c) l.
Proof.
  intros Hc Hm. rewrite <- chunks_concat. by rewrite !Z2Nat.id.
Qed.

Lemma merge_tail_snoc2 folds (a b : list A) :
  merge_tail (folds ++ [a; b]) = Ok (folds ++ [a ++ b]).
Proof.
  unfold merge_tail, item, set_item, item_pos.
  rewrite length_app. cbn [length].
  destruct (Z.ltb_spec (-2) 0); [|lia]. destruct (Z.ltb_spec (-1) 0); [|lia].
  replace (-2 + Z.of_nat (length folds + 2)) with (Z.of_nat (length folds)) by lia.
  replace (-1 + Z.of_nat (length folds + 2)) with (Z.of_nat (S (length folds))) by lia.
  destruct (Z.leb_spec 0 (Z.of_nat (length folds))); [|lia].
  destruct (Z.ltb_spec (Z.of_nat (length folds)) (Z.of_nat (length folds + 2))); [|lia].
  destruct (Z.leb_spec 0 (Z.of_nat (S (length folds)))); [|lia].
  destruct (Z.ltb_spec (Z.of_nat (S (length folds))) (Z.of_nat (length folds + 2))); [|lia].
  cbn [andb mbind result_bind]. rewrite !Nat2Z.id.
  rewrite (list_lookup_middle folds [b] a (length folds)) by done.
  cbn [mbind result_bind].
  rewrite (lookup_app_r folds) by lia.
  replace (S (length folds) - length folds)%nat with 1%nat by lia.
  cbn [lookup list_lookup mbind result_bind].
  rewrite insert_app_r_alt by lia. rewrite Nat.sub_diag. cbn [insert list_insert].
  f_equal. replace (folds ++ [a ++ b; b]) with ((folds ++ [a ++ b]) ++ [b]).
  - apply removelast_last.
  - by rewrite <- app_assoc.
Qed.

Lemma merge_tail_short folds :
  (length folds < 2)%nat → merge_tail folds = Raise IndexError.
Proof.
  intros Hlen. unfold merge_tail, item, item_pos.
  destruct (Z.ltb_spec (-2) 0); [|lia].
  destruct (Z.leb_spec 0 (-2 + Z.of_nat (length folds))); [lia|done].
Qed.

Lemma snoc2_decompose folds :
  (2 ≤ length folds)%nat → ∃ init a b, folds = init ++ [a; b].
Proof.
  intros Hlen.
  destruct folds as [|b folds _] using rev_ind; [cbn in Hlen; lia|].
  destruct folds as [|a folds _] using rev_ind;
    [rewrite length_app in Hlen; cbn in Hlen; lia|].
  exists folds, a, b. by rewrite <- app_assoc.
Qed.

Lemma merge_tail_concat folds folds' :
  merge_tail folds = Ok folds' →
  concat folds' = concat folds ∧ S (length folds') = length folds.
Proof.
  intros Hm. destruct (Nat.lt_ge_cases (length folds) 2) as [Hlt|Hge].
  - by rewrite merge_tail_short in Hm.
  - destruct (snoc2_decompose folds Hge) as (init & a & b & ->).
    rewrite merge_tail_snoc2 in Hm. injection Hm as <-.
    rewrite !concat_app, !length_app. cbn. rewrite !app_nil_r.
    split; [done|lia].
Qed.

Lemma make_folds_unfold l (max_splits : Z) :
  max_splits ≠ 0 →
  let n := Z.of_nat (length l) in
  let c := Z.max 1 (n / max_splits) in
  let chunks := (λ i, slice i (i + c) l) <$>
                ((λ i, 0 + i * c) <$> seqZ 0 (chunk_count n c)) in
  make_folds l max_splits =
    (if max_splits <? Z.of_nat (length chunks) then merge_tail chunks else Ok chunks)
  ∧ concat chunks = l ∧ Z.of_nat (length chunks) = chunk_count n c.
Proof.
  intros Hms n c chunks. split; [|split].
  - unfold make_folds, floordiv, range, range_len.
    destruct (Z.eqb_spec max_splits 0); [done|]. cbn [mbind result_bind].
    fold n. fold c. destruct (Z.eqb_spec c 0); [lia|].
    destruct (Z.ltb_spec 0 c); [|lia]. cbn [mbind result_bind].
    replace (n - 0 - 1) with (n - 1) by lia. done.
  - subst chunks. unfold chunk_count.
    destruct (Z.ltb_spec 0 n) as [Hn|Hn].
    + assert (0 ≤ (n - 1) / c) by (apply Z.div_pos; lia).
      pose proof (Z.mul_succ_div_gt (n - 1) c ltac:(lia)) as Hgt.
      rewrite chunks_concat_Z by lia. apply take_ge. subst n. nia.
    + rewrite seqZ_nil by lia. destruct l; [done|cbn in n; lia].
  - subst chunks. rewrite !length_fmap, length_seqZ. unfold chunk_count.
    destruct (Z.ltb_spec 0 n); [|lia].
    assert (0 ≤ (n - 1) / c) by (apply Z.div_pos; lia). lia.
Qed.

Lemma make_folds_concat l (max_splits : Z) folds :
  make_folds l max_splits = Ok folds → concat folds = l.
Proof.
  destruct (decide (max_splits = 0)) as [->|Hms].
  - unfold make_folds, floordiv. done.
  - destruct (make_folds_unfold l max_splits Hms) as (-> & Hcat & _).
    case_match; [|by intros [= <-]].
    intros [Hc _]%merge_tail_concat. by rewrite Hc.
Qed.

Lemma make_folds_Ok l (max_splits : Z) :
  1 ≤ max_splits → l ≠ [] →
  ∃ folds, make_folds l max_splits = Ok folds ∧ folds ≠ [].
Proof.
  intros Hms Hl.
  destruct (make_folds_unfold l max_splits ltac:(lia)) as (-> & Hcat & Hlen).
  match goal with |- context [merge_tail ?c] => set (chunks := c) in * end.
  assert (chunks ≠ []) as Hne by (intros Heq; rewrite Heq in Hcat; by subst l).
  destruct (Z.ltb_spec max_splits (Z.of_nat (length chunks))) as [Hlt|Hge].
  - destruct (snoc2_decompose chunks ltac:(lia)) as (init & a & b & ->).
    rewrite merge_tail_snoc2. eexists; split; [done|]. by destruct init.
  - eauto.
Qed.

Lemma imap_skip_none folds (P : nat → Prop) `{∀ i, Decision (P i)} :
  (∀ i, ¬ P i) →
  imap (λ i fold, if decide (P i) then [] else fold) folds = folds.
Proof.
  revert P H. induction folds as [|f folds IH]; intros P Hdec HP; [done|].
  rewrite imap_cons. destruct (decide (P 0%nat)) as [?%HP|_]; [done|].
  f_equal. apply (IH (P ∘ S)). intros i. apply HP.
Qed.

Lemma imap_skip_one folds (k : nat) (P : nat → Prop) `{∀ i, Decision (P i)} :
  (∀ i, P i ↔ i = k) →
  imap (λ i fold, if decide (P i) then [] else fold) folds
  = take k folds ++ [] :: drop (S k) folds ∨ (length folds ≤ k)%nat.
Proof.
  revert k P H. induction folds as [|f folds IH]; intros k P Hdec HP.
  - right. cbn. lia.
  - rewrite imap_cons. destruct k as [|k].
    + left. destruct (decide (P 0%nat)) as [_|Hn]; [|by destruct Hn; apply HP].
      cbn. f_equal. apply (imap_skip_none folds (P ∘ S)).
      intros i Hi. apply HP in Hi. done.
    + destruct (decide (P 0%nat)) as [Hp|_]; [by apply HP in Hp|].
      destruct (IH k (P ∘ S) _) as [IHk|IHk].
      * intros i. unfold compose. rewrite HP. lia.
      * left. cbn. f_equal. exact IHk.
      * right. cbn. lia.
Qed.

Lemma select_fold_Permutation folds (split : Z) (train val : list A) :
  select_fold folds split = Ok (train, val) →
  val ∈ folds ∧ train ++ val ≡ₚ concat folds.
Proof.
  unfold select_fold, modulo, item, item_pos.
  destruct (Z.eqb_spec (Z.of_nat (length folds)) 0) as [|Hlen]; [done|].
  cbn [mbind result_bind].
  pose proof (Z.mod_pos_bound (split - 1) (Z.of_nat (length folds)) ltac:(lia)) as Hr.
  set (r := (split - 1) mod Z.of_nat (length folds)) in *.
  destruct (Z.ltb_spec r 0); [lia|].
  destruct (Z.leb_spec 0 r); [|lia].
  destruct (Z.ltb_spec r (Z.of_nat (length folds))); [|lia].
  cbn [andb mbind result_bind].
  destruct (folds !! Z.to_nat r) as [v|] eqn:Hv; [|done].
  cbn [mbind result_bind]. intros [= <- <-].
  split; [by eapply list_elem_of_lookup_2|].
  destruct (imap_skip_one folds (Z.to_nat r) (λ i, Z.of_nat i = r)) as [->|Hge].
  - intros i. lia.
  - rewrite concat_app. cbn [concat app].
    rewrite <- (take_drop_middle folds (Z.to_nat r) v Hv) at 3.
    rewrite concat_app. cbn [concat].
    rewrite <- !app_assoc. f_equiv. apply Permutation_app_comm.
  - apply lookup_lt_Some in Hv. lia.
Qed.

Lemma select_fold_Ok folds (split : Z) :
  folds ≠ [] → ∃ r, select_fold folds split = Ok r.
Proof.
  intros Hne. unfold select_fold, modulo, item, item_pos.
  assert (0 < length folds)%nat by (destruct folds; [done|cbn; lia]).
  destruct (Z.eqb_spec (Z.of_nat (length folds)) 0) as [|Hlen]; [lia|].
  cbn [mbind result_bind].
  pose proof (Z.mod_pos_bound (split - 1) (Z.of_nat (length folds)) ltac:(lia)) as Hr.
  set (r := (split - 1) mod Z.of_nat (length folds)) in *.
  destruct (Z.ltb_spec r 0); [lia|].
  destruct (Z.leb_spec 0 r); [|lia].
  destruct (Z.ltb_spec r (Z.of_nat (length folds))); [|lia].
  cbn [andb mbind result_bind].
  destruct (lookup_lt_is_Some_2 folds (Z.to_nat r) ltac:(lia)) as [v ->].
  cbn [mbind result_bind]. eauto.
Qed.

End fold_facts.

(** ** PatientFoldSplitter: the ID set *)

Lemma set_add_spec (x : string) (s : list string) :
  NoDup s → NoDup (set_add x s) ∧ ∀ p, p ∈ set_add x s ↔ p ∈ s ∨ p = x.
Proof.
  intros Hs. unfold set_add. destruct (decide (x ∈ s)) as [Hin|Hnin].
  - split; [done|]. intros p. split; [tauto|]. by intros [?| ->].
  - split.
    + apply NoDup_app. split; [done|]. split; [|apply NoDup_singleton].
      intros p Hp ->%list_elem_of_singleton. done.
    + intros p. by rewrite elem_of_app, list_elem_of_singleton.
Qed.

Lemma collect_patient_ids_from (all_files acc : list string) :
  NoDup acc →
  let ids :=
    fold_left
      (λ ids file_path,
         match patient_id_of (basename file_path) with
         | Some patient_id => set_add patient_id ids
         | None => ids
         end)
      all_files acc in
  NoDup ids ∧ ∀ p, p ∈ ids ↔ p ∈ acc ∨ corpus_id all_files p.
Proof.
  revert acc. induction all_files as [|f files IH]; intros acc Hacc; cbn.
  - split; [done|]. intros p. split; [tauto|].
    intros [?|(? & []%elem_of_nil & _)]. done.
  - destruct (patient_id_of (basename f)) as [q|] eqn:Hq.
    + destruct (set_add_spec q acc Hacc) as [Hnd Hin].
      destruct (IH _ Hnd) as [IH1 IH2]. split; [done|].
      intros p. rewrite IH2, Hin. unfold corpus_id. split.
      * intros [[?| ->]|(f' & Hf' & Hp)]; [by left| |].
        -- right. exists f. split; [left|done].
        -- right. exists f'. split; [by right|done].
      * intros [?|(f' & [->|Hf']%elem_of_cons & Hp)]; [by left; left| |].
        -- left. right. congruence.
        -- right. by exists f'.
    + destruct (IH _ Hacc) as [IH1 IH2]. split; [done|].
      intros p. rewrite IH2. unfold corpus_id. split.
      * intros [?|(f' & Hf' & Hp)]; [by left|].
        right. exists f'. split; [by right|done].
      * intros [?|(f' & [->|Hf']%elem_of_cons & Hp)]; [by left|congruence|].
        right. by exists f'.
Qed.

Lemma collect_patient_ids_spec (all_files : list string) :
  NoDup (collect_patient_ids all_files) ∧
  ∀ p, p ∈ collect_patient_ids all_files ↔ corpus_id all_files p.
Proof.
  destruct (collect_patient_ids_from all_files [] (NoDup_nil_2)) as [Hnd Hin].
  split; [done|]. intros p. unfold collect_patient_ids. rewrite (Hin p).
  split; [|tauto]. by intros [[]%elem_of_nil|?].
Qed.

Lemma lcg_bounded : BoundedGenerator lcg.
Proof.
  intros g m. cbn.
  pose proof (N.mod_upper_bound (g * 7 + 3) (m + 1) ltac:(lia)). lia.
Qed.

Lemma corpus_id_Permutation (files1 files2 : list string) :
  files1 ≡ₚ files2 → ∀ p, corpus_id files1 p ↔ corpus_id files2 p.
Proof.
  intros Hperm p. unfold corpus_id.
  split; intros (f & Hf & Hp); exists f; split; try done.
  - by rewrite <- Hperm.
  - by rewrite Hperm.
Qed.

Lemma sorted_ids_unique (ids1 ids2 : list string) :
  NoDup ids1 → NoDup ids2 → (∀ p, p ∈ ids1 ↔ p ∈ ids2) →
  merge_sort String.le ids1 = merge_sort String.le ids2.
Proof.
  intros Hnd1 Hnd2 Hsame.
  apply (Sorted_unique String.le); [apply Sorted_merge_sort; apply _..|].
  rewrite !merge_sort_Permutation. by apply NoDup_Permutation.
Qed.

(** The number of folds: the chunk count, less one when it exceeds
    [max_splits]. *)
Lemma make_folds_length {A} (l : list A) (max_splits : Z) (folds : list (list A)) :
  make_folds l max_splits = Ok folds →
  let n := Z.of_nat (length l) in
  let k := chunk_count n (Z.max 1 (n / max_splits)) in
  Z.of_nat (length folds) = if max_splits <? k then k - 1 else k.
Proof.
  destruct (decide (max_splits = 0)) as [->|Hms]; [done|].
  destruct (make_folds_unfold l max_splits Hms) as (-> & _ & Hlen).
  match type of Hlen with context [length ?c] => set (chunks := c) in * end.
  cbv zeta. rewrite <- Hlen.
  destruct (Z.ltb_spec max_splits (Z.of_nat (length chunks))).
  - intros [_ Hl]%merge_tail_concat. lia.
  - by intros [= <-].
Qed.

(** C3 fails on the code: five patients and [max_splits = 3] give chunks
    of one patient, five chunks, and after the single merge four folds;
    twenty patients and the default [max_splits = 7] give nine folds. *)
Theorem make_folds_exceeds_max_splits :
  make_folds ["p1"; "p2"; "p3"; "p4"; "p5"] 3
    = Ok [["p1"]; ["p2"]; ["p3"]; ["p4"; "p5"]] ∧
  (∃ folds, make_folds ["p1"; "p2"; "p3"; "p4"; "p5"] 3 = Ok folds ∧
            3 < Z.of_nat (length folds)) ∧
  (∃ folds, make_folds (seqZ 1 20) 7 = Ok folds ∧ Z.of_nat (length folds) = 9).
Proof.
  split; [by vm_compute|]. split.
  - exists [["p1"]; ["p2"]; ["p3"]; ["p4"; "p5"]]. split; [by vm_compute|].
    cbn [length]. lia.
  - destruct (make_folds (seqZ 1 20) 7) as [folds|] eqn:Hfolds; [|by vm_compute in Hfolds].
    exists folds. split; [done|]. by rewrite (make_folds_length _ _ _ Hfolds).
Qed.

(** C4: for a non-empty corpus, whatever [split] and [max_splits] are,
    the train and validation lists that [train_validate_dicts] returns
    are disjoint, hold no ID twice, and together hold exactly the
    patient IDs of the corpus, as do the folds they are taken from; and
    for [max_splits ≥ 1] the function does return. *)
Theorem train_validate_partition `{G : BitGenerator} `{!BoundedGenerator G}
    (g : rng_state) (lesion_files background_files : list string) (a : args) :
  (∃ p, corpus_id (lesion_files ++ background_files) p) →
  (∀ train val g',
     train_validate_dicts g lesion_files background_files a = Ok (train, val, g') →
     NoDup (train ++ val) ∧
     (∀ p, p ∈ train → p ∉ val) ∧
     (∀ p, p ∈ train ∨ p ∈ val ↔ corpus_id (lesion_files ++ background_files) p) ∧
     ∃ folds, val ∈ folds ∧ train ++ val ≡ₚ concat folds ∧ NoDup (concat folds) ∧
              ∀ p, p ∈ concat folds ↔ corpus_id (lesion_files ++ background_files) p) ∧
  (1 ≤ default 7 (max_splits a) →
   ∃ train val g',
     train_validate_dicts g lesion_files background_files a = Ok (train, val, g')).
Proof.
  intros [p0 Hp0].
  destruct (collect_patient_ids_spec (lesion_files ++ background_files)) as [Hnd Hin].
  set (ids := merge_sort String.le (collect_patient_ids (lesion_files ++ background_files))).
  assert (ids ≡ₚ collect_patient_ids (lesion_files ++ background_files)) as Hids
    by apply merge_sort_Permutation.
  unfold train_validate_dicts. fold ids. split.
  - intros train val g'.
    destruct (shuffle (rng_seed 42) ids) as [[shuffled g1]|] eqn:Hsh; [|done].
    cbn [mbind result_bind].
    destruct (make_folds shuffled _) as [folds|] eqn:Hfolds; [|done].
    cbn [mbind result_bind].
    destruct (select_fold folds (split_ a)) as [[train' val']|] eqn:Hsel; [|done].
    cbn [mbind result_bind]. intros [= <- <- <-].
    apply shuffle_Permutation in Hsh. apply make_folds_concat in Hfolds.
    apply select_fold_Permutation in Hsel as [Hval Hsel].
    assert (concat folds ≡ₚ collect_patient_ids (lesion_files ++ background_files))
      as Hall by (by rewrite Hfolds, Hsh).
    assert (NoDup (train' ++ val')) as Hnd' by (by rewrite Hsel, Hall).
    split; [done|]. split; [|split].
    + intros p Hp Hv. apply NoDup_app in Hnd' as (_ & Hdisj & _). by apply (Hdisj p).
    + intros p. rewrite <- elem_of_app, Hsel, Hall. apply Hin.
    + exists folds. split; [done|]. split; [done|]. split; [by rewrite Hall|].
      intros p. rewrite Hall. apply Hin.
  - intros Hms.
    destruct (shuffle_Ok (rng_seed 42) ids) as [[shuffled g1] Hsh]. rewrite Hsh.
    cbn [mbind result_bind].
    assert (shuffled ≠ []) as Hne.
    { apply shuffle_Permutation in Hsh. intros ->.
      apply Hin in Hp0. rewrite <- Hids, <- Hsh in Hp0. by apply elem_of_nil in Hp0. }
    destruct (make_folds_Ok shuffled _ Hms Hne) as (folds & -> & Hfne).
    cbn [mbind result_bind].
    destruct (select_fold_Ok folds (split_ a) Hfne) as [[train val] ->].
    cbn [mbind result_bind]. eauto.
Qed.

Lemma train_validate_partition_witness :
  ∃ train val g',
    train_validate_dicts (G:=lcg) 0%N
      ["out/lesion_patches/P1_T1_positive_0000.nii.gz";
       "out/lesion_patches/P1_label_positive_0000.nii.gz";
       "out/lesion_patches/P2_T1_positive_0000.nii.gz"]
      ["out/background_patches/P3_T1_negative_0000.nii.gz"]
      {| split_ := 2; max_splits := Some 2 |} = Ok (train, val, g') ∧
    NoDup (train ++ val).
Proof.
  destruct (train_validate_partition (G:=lcg) (BoundedGenerator0:=lcg_bounded) 0%N
      ["out/lesion_patches/P1_T1_positive_0000.nii.gz";
       "out/lesion_patches/P1_label_positive_0000.nii.gz";
       "out/lesion_patches/P2_T1_positive_0000.nii.gz"]
      ["out/background_patches/P3_T1_negative_0000.nii.gz"]
      {| split_ := 2; max_splits := Some 2 |}) as [Hpart Hret].
  - exists "P1", "out/lesion_patches/P1_T1_positive_0000.nii.gz".
    split; [left|reflexivity].
  - destruct Hret as (train & val & g' & Hrun); [cbn; lia|].
    exists train, val, g'. split; [exact Hrun|].
    exact (proj1 (Hpart train val g' Hrun)).
Defined.

(** C5: the partition depends only on the set of patient IDs in the
    corpus and on [args]: neither the state the global generator was
    left in nor the order in which the files are listed changes it. *)
Theorem train_validate_deterministic `{G : BitGenerator} (g1 g2 : rng_state)
    (lesion1 background1 lesion2 background2 : list string) (a : args) :
  (∀ p, corpus_id (lesion1 ++ background1) p ↔ corpus_id (lesion2 ++ background2) p) →
  train_validate_dicts g1 lesion1 background1 a
  = train_validate_dicts g2 lesion2 background2 a.
Proof.
  intros Hsame. unfold train_validate_dicts.
  destruct (collect_patient_ids_spec (lesion1 ++ background1)) as [Hnd1 Hin1].
  destruct (collect_patient_ids_spec (lesion2 ++ background2)) as [Hnd2 Hin2].
  rewrite (sorted_ids_unique _ _ Hnd1 Hnd2); [done|].
  intros p. by rewrite Hin1, Hin2.
Qed.

Lemma train_validate_deterministic_witness :
  train_validate_dicts (G:=lcg) 0%N
    ["P2_T1_positive_0000.nii.gz"; "P1_T1_positive_0000.nii.gz"]
    ["P3_T1_negative_0000.nii.gz"] {| split_ := 1; max_splits := Some 3 |}
  = train_validate_dicts (G:=lcg) 911%N
    ["P1_T1_positive_0000.nii.gz"; "P2_T1_positive_0000.nii.gz"]
    ["P3_T1_negative_0000.nii.gz"] {| split_ := 1; max_splits := Some 3 |}.
Proof.
  apply (train_validate_deterministic (G:=lcg)).
  apply corpus_id_Permutation. apply perm_swap.
Defined.

(** ** File names and patient IDs *)

Section string_facts.
Implicit Types (s a b old sub : string) (c sep : ascii).

Lemma append_cons c a b : String c a +:+ b = String c (a +:+ b).
Proof. done. Qed.

Lemma append_empty b : EmptyString +:+ b = b.
Proof. done. Qed.

Lemma prefix_empty s : String.prefix EmptyString s = true.
Proof. by destruct s. Qed.

Lemma prefix_cons c old d s :
  String.prefix (String c old) (String d s)
  = bool_decide (c = d) && String.prefix old s.
Proof. cbn. by destruct (ascii_dec c d); case_bool_decide. Qed.

Lemma prefix_app_same sub s : String.prefix sub (sub +:+ s) = true.
Proof.
  induction sub as [|c sub IH]; [apply prefix_empty|].
  rewrite ?append_cons, ?append_empty. rewrite prefix_cons, IH. by case_bool_decide.
Qed.

Lemma prefix_length old s :
  String.prefix old s = true → (String.length old ≤ String.length s)%nat.
Proof.
  revert s. induction old as [|c old IH]; intros [|d s]; cbn [String.length];
    [lia..|done|].
  rewrite prefix_cons. intros [_ ?%IH]%andb_prop. lia.
Qed.

Lemma prefix_shorter a b s :
  String.prefix (a +:+ b) s = true → String.prefix a s = true.
Proof.
  revert s. induction a as [|c a IH]; intros s; [by rewrite prefix_empty|].
  destruct s as [|d s]; [done|]. rewrite ?append_cons, ?append_empty. rewrite !prefix_cons.
  intros [-> ?%IH]%andb_prop. done.
Qed.

Lemma contains_cons sub c s :
  contains sub (String c s) = String.prefix sub (String c s) || contains sub s.
Proof. done. Qed.

Lemma contains_char c d s :
  contains (String c EmptyString) (String d s)
  = bool_decide (c = d) || contains (String c EmptyString) s.
Proof. by rewrite contains_cons, prefix_cons, prefix_empty, andb_true_r. Qed.

Lemma contains_char_app c a b :
  contains (String c EmptyString) (a +:+ b)
  = contains (String c EmptyString) a || contains (String c EmptyString) b.
Proof.
  induction a as [|d a IH]; [by destruct b|].
  rewrite ?append_cons, ?append_empty. by rewrite !contains_char, IH, orb_assoc.
Qed.

Lemma contains_app_r sub a b :
  contains sub b = true → contains sub (a +:+ b) = true.
Proof.
  intros Hb. induction a as [|d a IH]; [done|].
  rewrite ?append_cons, ?append_empty. rewrite contains_cons, IH. apply orb_true_r.
Qed.

Lemma contains_prefix sub s : String.prefix sub s = true → contains sub s = true.
Proof. intros Hp. destruct s; cbn [contains]; by rewrite Hp. Qed.

Lemma contains_app_same sub s : contains sub (sub +:+ s) = true.
Proof. apply contains_prefix, prefix_app_same. Qed.

Lemma contains_shorter a b s :
  contains a s = false → contains (a +:+ b) s = false.
Proof.
  induction s as [|d s IH].
  - cbn [contains]. rewrite !orb_false_r. intros Ha.
    destruct (String.prefix (a +:+ b) EmptyString) eqn:Hp; [|done].
    by rewrite (prefix_shorter _ _ _ Hp) in Ha.
  - rewrite !contains_cons. intros [Hp Hc]%orb_false_elim.
    rewrite (IH Hc), orb_false_r.
    destruct (String.prefix (a +:+ b) (String d s)) eqn:Hp'; [|done].
    by rewrite (prefix_shorter _ _ _ Hp') in Hp.
Qed.

(** *** [split] and [join] *)

Lemma split_nonempty sep s : ∃ t ts, split sep s = t :: ts.
Proof.
  induction s as [|c s (t & ts & IH)]; cbn [split]; [eauto|].
  destruct (decide (c = sep)); [eauto|]. rewrite IH. eauto.
Qed.

Lemma split_lacks sep s :
  contains (String sep EmptyString) s = false → split sep s = [s].
Proof.
  induction s as [|c s IH]; [done|].
  rewrite contains_char. intros [Hc Hs]%orb_false_elim.
  cbn [split]. apply bool_decide_eq_false in Hc.
  destruct (decide (c = sep)); [congruence|]. by rewrite IH.
Qed.

Lemma split_app sep a b :
  split sep (a +:+ String sep b) = split sep a ++ split sep b.
Proof.
  induction a as [|c a IH]; rewrite ?append_cons, ?append_empty; cbn [split].
  - by destruct (decide (sep = sep)).
  - destruct (decide (c = sep)); [by rewrite IH|].
    rewrite IH. by destruct (split_nonempty sep a) as (t & ts & ->).
Qed.

Lemma join_split sep s : join (String sep EmptyString) (split sep s) = s.
Proof.
  unfold join. induction s as [|c s IH]; [done|]. cbn [split].
  destruct (split_nonempty sep s) as (t & ts & Hs). rewrite Hs in *.
  destruct (decide (c = sep)) as [->|].
  - by rewrite <- IH.
  - rewrite <- IH. by destruct ts.
Qed.

(** *** [replace(old, '')] *)

Lemma prefix_app_sep old c a b :
  contains (String c EmptyString) old = false →
  String.prefix old (a +:+ String c b) = String.prefix old a.
Proof.
  revert a. induction old as [|o old IH]; intros a Hold.
  - by rewrite !prefix_empty.
  - rewrite contains_char in Hold. apply orb_false_elim in Hold as [Ho Hold].
    apply bool_decide_eq_false in Ho.
    destruct a as [|d a]; rewrite ?append_cons, ?append_empty.
    + rewrite prefix_cons. case_bool_decide; [congruence|done].
    + by rewrite !prefix_cons, IH.
Qed.

Lemma remove_go_app_sep old c (k : nat) a b :
  contains (String c EmptyString) old = false → old ≠ EmptyString →
  (k ≤ String.length a)%nat →
  remove_go old k (a +:+ String c b)
  = remove_go old k a +:+ String c (remove_go old 0 b).
Proof.
  intros Hold Hne. revert k.
  induction a as [|d a IH]; intros k Hk; rewrite ?append_cons, ?append_empty.
  - cbn [String.length] in Hk. replace k with 0%nat by lia.
    cbn [remove_go]; rewrite ?append_empty.
    destruct old as [|o old]; [done|].
    rewrite contains_char in Hold. apply orb_false_elim in Hold as [Ho _].
    apply bool_decide_eq_false in Ho.
    rewrite prefix_cons. by case_bool_decide; [congruence|].
  - cbn [String.length] in Hk. cbn [remove_go]. destruct k as [|k].
    + rewrite <- append_cons, prefix_app_sep by done.
      destruct (String.prefix old (String d a)) eqn:Hp.
      * apply IH. apply prefix_length in Hp. cbn [String.length] in Hp. lia.
      * rewrite ?append_cons, ?append_empty. by rewrite IH by lia.
    + apply IH. lia.
Qed.

Lemma remove_app_sep old c a b :
  contains (String c EmptyString) old = false → old ≠ EmptyString →
  remove old (a +:+ String c b) = remove old a +:+ String c (remove old b).
Proof. intros. apply remove_go_app_sep; [done..|lia]. Qed.

Lemma remove_go_lacks old c (k : nat) s :
  contains (String c EmptyString) s = false →
  contains (String c EmptyString) (remove_go old k s) = false.
Proof.
  revert k. induction s as [|d s IH]; intros k; [done|].
  rewrite contains_char. intros [Hd Hs]%orb_false_elim.
  cbn [remove_go]. destruct k; [|by apply IH].
  destruct (String.prefix old (String d s)); [by apply IH|].
  by rewrite contains_char, Hd, IH.
Qed.

Lemma remove_absent old s : contains old s = false → remove old s = s.
Proof.
  unfold remove. induction s as [|d s IH]; [done|].
  rewrite contains_cons. intros [Hp Hs]%orb_false_elim.
  cbn [remove_go]. by rewrite Hp, IH.
Qed.

(** *** [{:04d}] *)

Lemma zeros_lacks c (k : nat) : c ≠ "0"%char → contains (String c EmptyString) (zeros k) = false.
Proof.
  intros Hc. induction k as [|k IH]; [done|]. cbn [zeros].
  rewrite contains_char, IH. by case_bool_decide.
Qed.

Lemma string_of_uint_lacks (d : Decimal.uint) :
  contains "_" (NilEmpty.string_of_uint d) = false.
Proof.
  induction d; cbn [NilEmpty.string_of_uint]; [done|..];
    by rewrite contains_char, IHd.
Qed.

Lemma format_04d_lacks (n : Z) : contains "_" (format_04d n) = false.
Proof.
  assert (∀ d, contains "_" (NilZero.string_of_uint d) = false) as Hd.
  { intros d. destruct d; try done; apply (string_of_uint_lacks (_ d)). }
  unfold format_04d. destruct (n <? 0).
  - rewrite append_cons, append_empty.
    by rewrite contains_char, contains_char_app, zeros_lacks, Hd.
  - by rewrite contains_char_app, zeros_lacks, Hd.
Qed.

End string_facts.

Lemma slice_drop_last3 {A} (l : list A) (x y z : A) :
  slice 0 (-3) (l ++ [x; y; z]) = l.
Proof.
  unfold slice, slice_bound. rewrite length_app. cbn [length].
  destruct (Z.ltb_spec 0 0); [lia|]. destruct (Z.ltb_spec (-3) 0); [|lia].
  rewrite Z.min_l, Z.max_r by lia.
  replace (Z.to_nat (-3 + Z.of_nat (length l + 3) - 0)) with (length l) by lia.
  change (Z.to_nat 0) with 0%nat. by rewrite drop_0, take_app_length.
Qed.

Lemma strip_ext_tokens (pid modality patch_type tail : string) :
  contains ".nii" pid = false →
  contains "_" modality = false →
  contains "_" patch_type = false →
  contains "_" tail = false →
  ∃ x y z,
    split "_" (strip_ext (pid +:+ "_" +:+ modality +:+ "_" +:+ patch_type +:+ "_" +:+ tail))
    = split "_" pid ++ [x; y; z].
Proof.
  intros Hpid Hmod Htype Htail. unfold strip_ext.
  rewrite !(append_cons "_" EmptyString), !append_empty.
  rewrite !(remove_app_sep ".nii.gz" "_") by done.
  rewrite !(remove_app_sep ".nii" "_") by done.
  rewrite (remove_absent ".nii.gz" pid) by apply (contains_shorter ".nii" ".gz" pid Hpid).
  rewrite (remove_absent ".nii" pid) by done.
  rewrite !split_app.
  rewrite !(split_lacks "_" (remove _ (remove _ _)))
    by (by unfold remove; do 2 apply remove_go_lacks).
  eauto.
Qed.

(** C10 (as amended): when the patient ID holds no [".nii"], the
    modality name and the patch type hold no underscore and the file name
    does not hold ["label"], parsing the modality file name that
    [save_patch] writes gives the patient ID back; the label file of
    any patch contributes no ID. *)
Theorem patient_id_round_trip (pid modality patch_type : string) (patch_idx : Z) :
  contains ".nii" pid = false →
  contains "_" modality = false →
  contains "_" patch_type = false →
  contains "label" (modality_filename pid modality patch_type patch_idx) = false →
  patient_id_of (modality_filename pid modality patch_type patch_idx) = Some pid ∧
  ∀ pid' patch_type' patch_idx',
    patient_id_of (label_filename pid' patch_type' patch_idx') = None.
Proof.
  intros Hpid Hmod Htype Hlabel. split.
  - unfold patient_id_of. rewrite Hlabel. unfold modality_filename.
    destruct (strip_ext_tokens pid modality patch_type
                (format_04d patch_idx +:+ ".nii.gz")) as (x & y & z & ->); [done..| |].
    { by rewrite contains_char_app, format_04d_lacks. }
    destruct (split_nonempty "_" pid) as (t & ts & Hsplit).
    rewrite slice_drop_last3, join_split.
    destruct (Nat.ltb_spec (length (split "_" pid ++ [x; y; z])) 4) as [Hlt|]; [|done].
    rewrite length_app, Hsplit in Hlt. cbn in Hlt. lia.
  - intros pid' patch_type' patch_idx'. unfold patient_id_of, label_filename.
    rewrite contains_app_r; [done|].
    rewrite !append_cons, append_empty, contains_cons.
    apply orb_true_iff. right. apply contains_prefix.
    by rewrite !prefix_cons, prefix_empty.
Qed.

Lemma patient_id_round_trip_witness :
  patient_id_of (modality_filename "P1" "T1" "positive" 3) = Some "P1" ∧
  ∀ pid' patch_type' patch_idx',
    patient_id_of (label_filename pid' patch_type' patch_idx') = None.
Proof. apply (patient_id_round_trip "P1" "T1" "positive" 3); reflexivity. Defined.

(** C10 as stated fails for a modality name with an underscore: the last
    three tokens then start inside the modality name. *)
Lemma patient_id_underscore_modality :
  patient_id_of (modality_filename "P1" "T1_pre" "positive" 0) = Some "P1_T1" ∧
  patient_id_of (modality_filename "P1" "T1_pre" "positive" 0) ≠ Some "P1".
Proof. split; [by vm_compute|]. vm_compute. discriminate. Qed.

(** ** VolumeNormalizer *)

Lemma fmap_concat {A B} (f : A → B) (ls : list (list A)) :
  f <$> concat ls = concat ((λ l : list A, f <$> l) <$> ls).
Proof.
  induction ls as [|l ls IH]; [done|]. cbn. by rewrite fmap_app, IH.
Qed.

Section volume_facts.
Context {A B : Type}.
Implicit Types (v : volume A) (f : A → B).

Lemma flatten_vmap f v : flatten (vmap f v) = f <$> flatten v.
Proof.
  unfold flatten, vmap. cbn [voxels]. by rewrite !fmap_concat.
Qed.

Lemma vmap_vmap {C} (g : B → C) f v : vmap g (vmap f v) = vmap (g ∘ f) v.
Proof.
  unfold vmap. cbn [shape voxels]. f_equal.
  rewrite <- list_fmap_compose. apply list_fmap_ext. intros _ plane _.
  unfold compose. rewrite <- list_fmap_compose. apply list_fmap_ext. intros _ row _.
  unfold compose. by rewrite <- list_fmap_compose.
Qed.

End volume_facts.

Lemma percentile_Ok (a : list Q) (q : Q) :
  a ≠ [] → ∃ p, percentile a q = Ok p.
Proof.
  intros Ha. unfold percentile.
  destruct (Z.eqb_spec (Z.of_nat (length a)) 0) as [Hn|_]; [|eauto].
  destruct a; [done|cbn in Hn; lia].
Qed.

(** *** [normalize_volume] in floating point *)

Lemma Ok_inj {A} (a b : A) : Ok a = Ok b → a = b.
Proof. congruence. Qed.

Lemma vmap_ext {A B} (f g : A → B) (v : volume A) :
  (∀ x, f x = g x) → vmap f v = vmap g v.
Proof.
  intros Hfg. unfold vmap. f_equal.
  apply list_fmap_ext. intros _ plane _. apply list_fmap_ext. intros _ row _.
  apply list_fmap_ext. intros _ x _. apply Hfg.
Qed.

(** Over the rationals the floating-point text of [normalize_volume] is
    the function [process_case] is modelled with. *)
Lemma normalize_volume_exact (img : volume Q) :
  Ieee.normalize_volume (A := exact) img = normalize_volume img.
Proof.
  unfold Ieee.normalize_volume, normalize_volume.
  cbn [np_percentile num num_le num_zero num_sub num_div exact].
  change (inject_Z 1) with 1%Q. change (inject_Z 99) with 99%Q.
  destruct (percentile (flatten img) 1) as [p1|]; [|reflexivity].
  destruct (percentile (flatten img) 99) as [p99|]; [|reflexivity].
  cbn [mbind result_bind num_le exact].
  destruct (Qle_bool p99 p1); [reflexivity|].
  f_equal. change (vmap (λ x : Q, ((x - p1) / (p99 - p1))%Q)
                        (vmap (Ieee.clip (A := exact) p1 p99) img)
                   = vmap (λ x : Q, ((x - p1) / (p99 - p1))%Q) (vmap (clip p1 p99) img)).
  f_equal. apply vmap_ext. intros x.
  assert (∀ y : Q, Ieee.isnan (A := exact) y = false) as Hnan.
  { intros y. unfold Ieee.isnan. cbn [num_le exact].
    by rewrite (proj2 (Qle_bool_iff y y) (Qle_refl y)). }
  unfold Ieee.clip, Ieee.minimum, Ieee.maximum, clip. by rewrite !Hnan.
Qed.

Lemma exact_IEEE : IEEE exact.
Proof.
  split; cbn [num num_zero num_one num_sub num_div num_le num_finite exact].
  - done.
  - intros a b _ _. rewrite !Qle_bool_iff.
    destruct (Qlt_le_dec a b); [left|right]; lra.
  - intros a b c. rewrite !Qle_bool_iff. lra.
  - done.
  - intros a c _ _. rewrite !Qle_bool_iff. lra.
  - intros a b c _ _ _. rewrite !Qle_bool_iff. lra.
  - intros a b _ _ Hba. apply not_true_is_false. rewrite Qle_bool_iff.
    apply not_true_iff_false in Hba. rewrite Qle_bool_iff in Hba. lra.
  - intros u d Hu Hud _ Hd. rewrite !Qle_bool_iff in *.
    apply not_true_iff_false in Hd. rewrite Qle_bool_iff in Hd.
    split; [apply Qle_shift_div_l|apply Qle_shift_div_r]; lra.
  - intros a b d Hab _ Hd. rewrite !Qle_bool_iff in *.
    apply not_true_iff_false in Hd. rewrite Qle_bool_iff in Hd.
    apply Qmult_le_compat_r; [done|]. apply Qinv_le_0_compat. lra.
Qed.

Section ieee_facts.
Context `{A : Arith} `{!IEEE A}.
Implicit Types (x y lo hi : num).

Lemma ieee_le_refl x : num_finite x = true → num_le x x = true.
Proof. intros Hx. by destruct (ieee_le_total x x Hx Hx). Qed.

Lemma isnan_finite x : num_finite x = true → Ieee.isnan x = false.
Proof. intros Hx. unfold Ieee.isnan. by rewrite ieee_le_refl. Qed.

Lemma ieee_lt_le x y :
  num_finite x = true → num_finite y = true → num_le y x = false → num_le x y = true.
Proof. intros Hx Hy Hyx. destruct (ieee_le_total x y Hx Hy); congruence. Qed.

(** [np.clip] on finite numbers with [p1 <= p99]. *)
Lemma clip_between (p1 p99 : num) x :
  num_finite p1 = true → num_finite p99 = true → num_finite x = true →
  num_le p1 p99 = true →
  num_finite (Ieee.clip p1 p99 x) = true ∧
  num_le p1 (Ieee.clip p1 p99 x) = true ∧
  num_le (Ieee.clip p1 p99 x) p99 = true ∧
  (num_le p1 x = true → num_le x p99 = true → Ieee.clip p1 p99 x = x) ∧
  (num_le x p1 = true → num_le (Ieee.clip p1 p99 x) p1 = true) ∧
  (num_le p99 x = true → num_le p99 (Ieee.clip p1 p99 x) = true).
Proof.
  intros H1 H99 Hx Hle.
  pose proof (ieee_le_refl p1 H1). pose proof (ieee_le_refl p99 H99).
  unfold Ieee.clip, Ieee.maximum. rewrite !isnan_finite by done.
  destruct (num_le p1 x) eqn:H1x; unfold Ieee.minimum; rewrite !isnan_finite by done.
  - destruct (num_le x p99) eqn:Hx99.
    + repeat split; done.
    + pose proof (ieee_lt_le p99 x H99 Hx Hx99). repeat split; try done.
      intros Hx1. by apply (ieee_le_trans p99 x p1).
  - rewrite Hle. pose proof (ieee_lt_le x p1 Hx H1 H1x). repeat split; try done.
    intros H99x. by apply (ieee_le_trans p99 x p1).
Qed.

(** The rescaled value of a finite voxel lies in [[0, 1]] when the
    difference of the percentiles is finite. *)
Lemma rescale_unit (p1 p99 : num) x :
  num_le p99 p1 = false → num_finite (num_sub p99 p1) = true →
  num_finite x = true →
  unit_interval (num_div (num_sub (Ieee.clip p1 p99 x) p1) (num_sub p99 p1)).
Proof.
  intros Hlt Hd Hx. destruct (ieee_sub_finite _ _ Hd) as [H99 H1].
  pose proof (ieee_lt_le p1 p99 H1 H99 Hlt) as Hle.
  destruct (clip_between p1 p99 x H1 H99 Hx Hle) as (Hc & Hlo & Hhi & _).
  apply ieee_div_unit; [| |done|].
  - by apply ieee_sub_nonneg.
  - by apply ieee_sub_mono.
  - by apply ieee_sub_pos.
Qed.

(** On the store, the result is a fresh array holding the value
    [normalize_volume] computes, and the arrays that were there are as
    they were. *)
Lemma normalize_volume_in_fresh (h : Ieee.store) (img : nat) (a out : volume num) :
  h !! img = Some a → Ieee.normalize_volume a = Ok out →
  ∃ r fresh, Ieee.normalize_volume_in img h = Ok (r, h ++ fresh) ∧
             (h ++ fresh) !! r = Some out.
Proof.
  intros Ha. unfold Ieee.normalize_volume, Ieee.normalize_volume_in, Ieee.array_at.
  rewrite Ha. cbn [mbind result_bind].
  destruct (np_percentile (flatten a) 1) as [p1|]; [|done].
  destruct (np_percentile (flatten a) 99) as [p99|]; [|done].
  cbn [mbind result_bind]. destruct (num_le p99 p1).
  - intros Hout%Ok_inj. subst out. exists (length h), [vmap (λ _, num_zero) a].
    split; [done|]. by rewrite list_lookup_middle.
  - intros Hout%Ok_inj. subst out. unfold Ieee.new_array.
    rewrite (list_lookup_middle h [] _ (length h)) by done.
    cbn [mbind result_bind].
    rewrite (list_lookup_middle (h ++ [_]) [] _ (length (h ++ [_]))) by done.
    cbn [mbind result_bind].
    eexists _, [_; _; _]. split.
    { rewrite <- !app_assoc. cbn [app]. reflexivity. }
    rewrite lookup_app_r by (rewrite !length_app; cbn [length]; lia).
    rewrite !length_app. cbn [length].
    replace (length h + 2 - length h)%nat with 2%nat by lia.
    cbn [lookup list_lookup]. f_equal. by rewrite vmap_vmap.
Qed.

End ieee_facts.

(** *** Where [np.percentile] is defined *)

Lemma item_Ok {A} (l : list A) (i : Z) :
  - Z.of_nat (length l) ≤ i < Z.of_nat (length l) → ∃ x, item l i = Ok x.
Proof.
  intros Hi. unfold item, item_pos.
  set (j := if i <? 0 then i + Z.of_nat (length l) else i).
  assert (0 ≤ j < Z.of_nat (length l)) as Hj
    by (unfold j; destruct (Z.ltb_spec i 0); lia).
  destruct (Z.leb_spec 0 j); [|lia].
  destruct (Z.ltb_spec j (Z.of_nat (length l))); [|lia].
  cbn [andb mbind result_bind].
  destruct (lookup_lt_is_Some_2 l (Z.to_nat j) ltac:(lia)) as [x ->]. eauto.
Qed.

Lemma floor_index_bound (n : Z) (v : float) :
  1 ≤ n → 0 ≤ floor_index n v ≤ n - 1.
Proof.
  intros Hn. unfold floor_index.
  pose proof (length_filter (λ k, Is_true (PrimFloat.leb (float_of_Z k) v))
                            (seqZ 1 (n - 1))) as Hlen.
  rewrite length_seqZ in Hlen. lia.
Qed.

Lemma floor_index_below (n : Z) (v : float) :
  2 ≤ n → PrimFloat.leb (float_of_Z (n - 1)) v = false → floor_index n v ≤ n - 2.
Proof.
  intros Hn Hv. unfold floor_index.
  replace (seqZ 1 (n - 1)) with (seqZ 1 (n - 2) ++ [n - 1]).
  2:{ replace (n - 1) with ((n - 2) + 1) at 2 by lia.
      rewrite (seqZ_app 1 (n - 2) 1) by lia.
      f_equal. change (seqZ (1 + (n - 2)) 1) with [Z.of_nat 0 + (1 + (n - 2))].
      f_equal. lia. }
  rewrite filter_app, length_app.
  rewrite filter_cons.
  destruct (decide (Is_true (PrimFloat.leb (float_of_Z (n - 1)) v))) as [Hyes|_];
    [by rewrite Hv in Hyes|].
  rewrite filter_nil. cbn [length].
  pose proof (length_filter (λ k, Is_true (PrimFloat.leb (float_of_Z k) v))
                            (seqZ 1 (n - 2))) as Hlen.
  rewrite length_seqZ in Hlen. lia.
Qed.

(** In either arithmetic the two percentiles of [normalize_volume] are
    defined exactly on the arrays that have an element. *)
Lemma np_percentile_defined (q : Z) :
  q = 1 ∨ q = 99 →
  (∀ a : list Q, a ≠ [] ↔ ∃ p, np_percentile (Arith := exact) a q = Ok p) ∧
  (∀ a : list float, a ≠ [] ↔ ∃ p, np_percentile (Arith := binary64) a q = Ok p).
Proof.
  intros Hq. split; intros a; (split; [|by intros [p Hp] ->]); intros Ha.
  - by apply percentile_Ok.
  - cbn [np_percentile binary64]. unfold percentile64.
    assert (length (merge_sort nan_last a) = length a) as Hlen
      by (by rewrite merge_sort_Permutation).
    set (arr := merge_sort nan_last a) in *. set (n := Z.of_nat (length a)).
    assert (1 ≤ n) by (destruct a; [done|cbn in n; lia]).
    destruct (Z.eqb_spec n 0); [lia|]. cbv zeta.
    set (v := PrimFloat.mul (float_of_Z (n - 1)) (PrimFloat.div (float_of_Z q) 100)).
    assert (∃ i j : Z,
              (if PrimFloat.ltb v 0 then 0
               else if PrimFloat.leb (float_of_Z (n - 1)) v then -1
                    else floor_index n v) = i ∧
              (if PrimFloat.ltb v 0 then 0
               else if PrimFloat.leb (float_of_Z (n - 1)) v then -1
                    else floor_index n v + 1) = j ∧
              - n ≤ i < n ∧ - n ≤ j < n) as (i & j & -> & -> & Hi & Hj).
    { destruct (PrimFloat.ltb v 0); [exists 0, 0; lia|].
      destruct (PrimFloat.leb (float_of_Z (n - 1)) v) eqn:Habove;
        [exists (-1), (-1); lia|].
      eexists _, _. split; [done|]. split; [done|].
      pose proof (floor_index_bound n v ltac:(lia)).
      destruct (Z.eq_dec n 1) as [Hn1|Hn1].
      - exfalso. unfold v in Habove. rewrite Hn1 in Habove.
        by destruct Hq as [-> | ->]; vm_compute in Habove.
      - pose proof (floor_index_below n v ltac:(lia) Habove). lia. }
    destruct (item_Ok arr i) as [previous ->]; [lia|].
    destruct (item_Ok arr j) as [next ->]; [lia|].
    destruct (item_Ok arr (-1)) as [final ->]; [lia|].
    cbn [mbind result_bind]. destruct (PrimFloat.is_nan final); eauto.
Qed.

(** C8 (as amended): in IEEE arithmetic, on a volume whose two
    percentiles are defined, [normalize_volume] returns an array of the
    same shape: all zeros when the 99th percentile is at most the 1st,
    and otherwise every intensity clipped by [np.clip] and rescaled by
    [(x - p1) / (p99 - p1)]. The output lies in [[0, 1]] in the first
    case, and in the second when every voxel is finite and [p99 - p1]
    does not overflow; the clipped value of a finite voxel then lies
    between [p1] and [p99] and is the voxel itself where the voxel does.
    The result is a new array: the input and every other array of the
    store are left as they were. *)
Theorem normalize_volume_spec `{A : Arith} `{!IEEE A}
    (h : Ieee.store) (img : nat) (a : volume num) (p1 p99 : num) :
  h !! img = Some a →
  np_percentile (flatten a) 1 = Ok p1 →
  np_percentile (flatten a) 99 = Ok p99 →
  ∃ out r fresh,
    Ieee.normalize_volume a = Ok out ∧
    Ieee.normalize_volume_in img h = Ok (r, h ++ fresh) ∧
    (h ++ fresh) !! r = Some out ∧
    (h ++ fresh) !! img = Some a ∧
    shape out = shape a ∧
    (num_le p99 p1 = true →
     out = vmap (λ _, num_zero) a ∧ Forall unit_interval (flatten out)) ∧
    (num_le p99 p1 = false →
     out = vmap (λ x, num_div (num_sub (Ieee.clip p1 p99 x) p1) (num_sub p99 p1)) a ∧
     (Forall (λ x, num_finite x = true) (flatten a) →
      num_finite (num_sub p99 p1) = true →
      Forall (λ x, num_le p1 (Ieee.clip p1 p99 x) = true ∧
                   num_le (Ieee.clip p1 p99 x) p99 = true ∧
                   (num_le p1 x = true → num_le x p99 = true →
                    Ieee.clip p1 p99 x = x)) (flatten a) ∧
      Forall unit_interval (flatten out))).
Proof.
  intros Ha Hp1 Hp99.
  assert (∃ out, Ieee.normalize_volume a = Ok out ∧ shape out = shape a ∧
            (num_le p99 p1 = true → out = vmap (λ _, num_zero) a) ∧
            (num_le p99 p1 = false →
             out = vmap (λ x, num_div (num_sub (Ieee.clip p1 p99 x) p1)
                                      (num_sub p99 p1)) a))
    as (out & Hout & Hshape & Hzero & Hscaled).
  { unfold Ieee.normalize_volume. rewrite Hp1, Hp99. cbn [mbind result_bind].
    destruct (num_le p99 p1); eexists; (split; [done|]); (split; [done|]).
    - done.
    - split; [done|]. intros _. by rewrite vmap_vmap. }
  destruct (normalize_volume_in_fresh h img a out Ha Hout) as (r & fresh & Hrun & Hr).
  exists out, r, fresh. do 2 (split; [done|]). split; [done|].
  split; [by apply lookup_app_l_Some|]. split; [done|]. split.
  - intros Hle. split; [by apply Hzero|]. rewrite (Hzero Hle), flatten_vmap.
    apply Forall_fmap, Forall_true. intros x. apply ieee_le_zero_one.
  - intros Hlt. split; [by apply Hscaled|]. intros Hfin Hd.
    destruct (ieee_sub_finite _ _ Hd) as [H99 H1].
    pose proof (ieee_lt_le p1 p99 H1 H99 Hlt) as Hle. split.
    + eapply Forall_impl; [exact Hfin|]. intros x Hx. cbn beta in Hx.
      destruct (clip_between p1 p99 x H1 H99 Hx Hle) as (_ & ? & ? & ? & _). done.
    + rewrite (Hscaled Hlt), flatten_vmap. apply Forall_fmap.
      eapply Forall_impl; [exact Hfin|]. intros x Hx. by apply rescale_unit.
Qed.

Lemma normalize_volume_spec_witness :
  ∃ p1 p99 out r fresh,
    np_percentile (Arith := exact) [0; 1; 2; 3; 4; 5]%Q 1 = Ok p1 ∧
    np_percentile (Arith := exact) [0; 1; 2; 3; 4; 5]%Q 99 = Ok p99 ∧
    Ieee.normalize_volume (A := exact) (Volume (1, 2, 3) [[[0; 1; 2]; [3; 4; 5]]]%Q)
    = Ok out ∧
    Ieee.normalize_volume_in (A := exact) 0
      [Volume (1, 2, 3) [[[0; 1; 2]; [3; 4; 5]]]%Q]
    = Ok (r, [Volume (1, 2, 3) [[[0; 1; 2]; [3; 4; 5]]]%Q] ++ fresh) ∧
    Forall (unit_interval (A := exact)) (flatten out).
Proof.
  destruct (np_percentile (Arith := exact) [0; 1; 2; 3; 4; 5]%Q 1) as [p1|] eqn:H1;
    [|by vm_compute in H1].
  destruct (np_percentile (Arith := exact) [0; 1; 2; 3; 4; 5]%Q 99) as [p99|] eqn:H99;
    [|by vm_compute in H99].
  destruct (normalize_volume_spec (A := exact) (IEEE0 := exact_IEEE)
              [Volume (1, 2, 3) [[[0; 1; 2]; [3; 4; 5]]]%Q] 0
              (Volume (1, 2, 3) [[[0; 1; 2]; [3; 4; 5]]]%Q) p1 p99 eq_refl H1 H99)
    as (out & r & fresh & Hout & Hrun & _ & _ & _ & Hzero & Hscaled).
  exists p1, p99, out, r, fresh. do 4 (split; [done|]).
  destruct (num_le (Arith := exact) p99 p1) eqn:Hle.
  - by destruct (Hzero eq_refl).
  - destruct (Hscaled eq_refl) as [_ Hunit]. apply Hunit; [|done].
    by repeat constructor.
Defined.

(** C8 as stated fails in two ways. On an array without elements
    [np.percentile] raises, in either arithmetic. And in [float64] the
    finite volume [[-1.5e308, 0, 1.5e308]] has [p1 = -1.47e308] and
    [p99 = 1.47e308], whose difference overflows to infinity: the voxels
    come out as [0, 0, inf / inf], and NaN is not in [[0, 1]]. *)
Lemma normalize_volume_overflow :
  Ieee.normalize_volume (A := exact) (Volume (0, 0, 0) []) = Raise IndexError ∧
  Ieee.normalize_volume (A := binary64) (Volume (0, 0, 0) []) = Raise IndexError ∧
  Forall (λ x, num_finite (Arith := binary64) x = true)
         [-0x1.ab36d48e1acfp+1023; 0; 0x1.ab36d48e1acfp+1023]%float ∧
  Ieee.normalize_volume (A := binary64)
    (Volume (1, 1, 3) [[[-0x1.ab36d48e1acfp+1023; 0; 0x1.ab36d48e1acfp+1023]]]%float)
  = Ok (Volume (1, 1, 3) [[[0; 0; nan]]]%float) ∧
  ¬ unit_interval (A := binary64) nan.
Proof.
  split; [done|]. split; [done|]. split; [by repeat constructor|].
  split; [by vm_compute|]. by intros [Hnan _].
Qed.

(** ** Loops that write files *)

Section io_facts.
Context {A S : Type}.
Implicit Types (body : S → A → io S) (acc : S) (s : fs).

Lemma for_each_cons (a : A) (l : list A) body acc s :
  for_each (a :: l) body acc s =
  match body acc a s with
  | (s', Ok acc') => for_each l body acc' s'
  | (s', Raise e) => (s', Raise e)
  end.
Proof. done. Qed.

Lemma for_each_ext (l : list A) body1 body2 acc s :
  (∀ acc a s, body1 acc a s = body2 acc a s) →
  for_each l body1 acc s = for_each l body2 acc s.
Proof.
  intros Hext. revert acc s. induction l as [|a l IH]; intros acc s; [done|].
  rewrite !for_each_cons, Hext. destruct (body2 acc a s) as [s' [acc'|e]]; [|done].
  apply IH.
Qed.

Lemma for_each_app (l1 l2 : list A) body acc s :
  for_each (l1 ++ l2) body acc s =
  match for_each l1 body acc s with
  | (s', Ok acc') => for_each l2 body acc' s'
  | (s', Raise e) => (s', Raise e)
  end.
Proof.
  revert acc s. induction l1 as [|a l1 IH]; intros acc s; [done|].
  cbn [app]. rewrite !for_each_cons.
  destruct (body acc a s) as [s' [acc'|e]]; [|done]. apply IH.
Qed.

Lemma for_each_singleton (a : A) body acc s :
  for_each [a] body acc s = body acc a s.
Proof.
  rewrite for_each_cons. by destruct (body acc a s) as [s' [acc'|e]].
Qed.

End io_facts.

(** Nested loops visit the concatenation of the inner lists. *)
Lemma for_each_nested {A B S} (l : list A) (f : A → list B)
    (body : S → B → io S) (acc : S) (s : fs) :
  for_each l (λ acc a, for_each (f a) body acc) acc s
  = for_each (l ≫= f) body acc s.
Proof.
  revert acc s. induction l as [|a l IH]; intros acc s; [done|].
  rewrite for_each_cons. cbn [mbind list_bind]. rewrite for_each_app.
  destruct (for_each (f a) body acc s) as [s' [acc'|e]]; [|done]. apply IH.
Qed.

Lemma save_patch_run (pid patch_type : string) (patch_idx : Z)
    (modalities : list (string * volume Q)) (label : volume Q)
    (out_dir : string) (aff : affine) (s : fs) :
  save_patch pid patch_type patch_idx modalities label out_dir aff s
  = (s ++ patch_files pid patch_type patch_idx modalities label out_dir aff, Ok ()).
Proof.
  unfold save_patch, patch_files. unfold mbind at 1. unfold io_bind.
  assert (∀ u s,
    for_each modalities
      (λ (_ : ()) '(modality, data),
         nib_save (Nifti data aff)
           (path_join out_dir (modality_filename pid modality patch_type patch_idx)))
      u s
    = (s ++ ((λ '(modality, data),
               (path_join out_dir (modality_filename pid modality patch_type patch_idx),
                Nifti data aff)) <$> modalities), Ok ())) as ->.
  { induction modalities as [|[m d] ms IH]; intros u s'.
    - by rewrite app_nil_r; destruct u.
    - rewrite for_each_cons. unfold nib_save at 1. rewrite IH.
      by rewrite <- app_assoc. }
  unfold nib_save. by rewrite <- app_assoc.
Qed.

(** ** NegativeWindowFilter *)

Lemma elem_of_concat {A} (x : A) (ls : list (list A)) :
  x ∈ concat ls ↔ ∃ l, l ∈ ls ∧ x ∈ l.
Proof.
  induction ls as [|l ls IH]; cbn [concat].
  - split; [by intros ?%elem_of_nil|]. by intros (l & ?%elem_of_nil & _).
  - rewrite elem_of_app, IH. split.
    + intros [Hx|(l' & Hl' & Hx)]; [exists l|exists l'];
        (split; [|done]); [left|by right].
    + intros (l' & [->|Hl']%elem_of_cons & Hx); [by left|]. right. eauto.
Qed.

Lemma elem_of_slice {A} (x : A) (start stop : Z) (l : list A) :
  x ∈ slice start stop l → x ∈ l.
Proof.
  unfold slice. intros (i & Hi & _)%elem_of_take.
  rewrite lookup_drop in Hi. by eapply list_elem_of_lookup_2.
Qed.

Lemma elem_of_flatten_getitem3 {A} (x : A) (v : volume A) (zs ys xs : Z * Z) :
  x ∈ flatten (getitem3 v zs ys xs) → x ∈ flatten v.
Proof.
  unfold flatten, getitem3. destruct (shape v) as [[d0 d1] d2]. cbn [voxels].
  rewrite !elem_of_concat.
  intros (row' & (plane' & Hplane' & Hrow')%elem_of_concat & Hx).
  apply list_elem_of_fmap in Hplane' as (plane & -> & Hplane%elem_of_slice).
  apply list_elem_of_fmap in Hrow' as (row & -> & Hrow%elem_of_slice).
  apply elem_of_slice in Hx.
  exists row. split; [|done]. apply elem_of_concat. eauto.
Qed.

Lemma any_positive_false (l : list Q) :
  Forall (λ x, 0 <= x)%Q l →
  existsb (Qltb 0) l = false ↔ Forall (λ x, x == 0)%Q l.
Proof.
  induction 1 as [|x l Hx Hl IH]; cbn [existsb]; [done|].
  rewrite orb_false_iff, IH, Forall_cons. unfold Qltb.
  rewrite negb_false_iff, Qle_bool_iff. split; intros [H1 H2]; (split; [|done]); lra.
Qed.

Section negative_facts.
Context (pid : string) (modalities : list (string * volume Q)) (label : volume Q).
Context (patch_size : Z * Z * Z) (aff : affine) (background_dir : string).
Context (Hlabel : Forall (λ x, 0 <= x)%Q (flatten label)).

Local Abbreviation ok w := (all_zero (crop label (window_box patch_size w))).
Local Abbreviation files i w :=
  (patch_files pid "negative" i (crop_all modalities (window_box patch_size w))
               (crop label (window_box patch_size w)) background_dir aff).

Lemma negative_window_run (neg_idx : Z) (w : Z * Z * Z) (s : fs) :
  negative_window pid modalities label patch_size aff background_dir neg_idx w s
  = if decide (ok w) then (s ++ files neg_idx w, Ok (neg_idx + 1))
    else (s, Ok neg_idx).
Proof.
  destruct w as [[z y] x]. unfold negative_window.
  change (getitem3 label _ _ _) with (crop label (window_box patch_size (z, y, x))).
  pose proof (any_positive_false (flatten (crop label (window_box patch_size (z, y, x)))))
    as Hany.
  destruct (existsb _ _) eqn:Hexists.
  - destruct (decide (ok (z, y, x))) as [Hok|]; [|done].
    apply Hany in Hok; [congruence|].
    apply Forall_forall. intros v Hv%elem_of_flatten_getitem3.
    by eapply Forall_forall in Hlabel.
  - destruct (decide (ok (z, y, x))) as [|Hnok].
    + unfold mbind, io_bind. rewrite save_patch_run. done.
    + destruct Hnok. apply Hany; [|done].
      apply Forall_forall. intros v Hv%elem_of_flatten_getitem3.
      by eapply Forall_forall in Hlabel.
Qed.

Lemma negative_flat_run (ws : list (Z * Z * Z)) (n0 : Z) (s : fs) :
  for_each ws (negative_window pid modalities label patch_size aff background_dir) n0 s
  = (s ++ concat (imap (λ i w, files (n0 + Z.of_nat i) w) (filter (λ w, ok w) ws)),
     Ok (n0 + Z.of_nat (length (filter (λ w, ok w) ws)))).
Proof.
  revert n0 s. induction ws as [|w ws IH]; intros n0 s.
  - cbn. rewrite app_nil_r, Z.add_0_r. done.
  - rewrite for_each_cons, negative_window_run, filter_cons.
    destruct (decide (ok w)) as [Hok|Hnok].
    + rewrite IH. cbn [imap concat length]. rewrite <- app_assoc.
      rewrite Z.add_0_r. f_equal; [|f_equal; lia]. do 3 f_equal.
      apply imap_ext. intros i w' _. unfold compose.
      by replace (n0 + 1 + Z.of_nat i) with (n0 + Z.of_nat (S i)) by lia.
    + apply IH.
Qed.

End negative_facts.

Lemma generate_indices_Ok (dim patch stride : Z) :
  1 ≤ stride → ∃ starts, generate_indices dim patch stride = Ok starts.
Proof.
  intros Hstride. destruct (Z.le_gt_cases dim patch) as [Hle|Hgt].
  - unfold generate_indices. destruct (Z.leb_spec dim patch); [eauto|lia].
  - destruct (generate_indices_starts dim patch stride) as (l & -> & _); [lia..|eauto].
Qed.

(** C6: over a label volume with no negative voxel, the negative phase
    of [process_case] writes exactly the candidate windows whose label
    sub-volume is all zero, in loop order and numbered from 0: a window is
    written iff none of its label voxels is non-zero, so every label patch
    written is all zero, and the windows passed over raise nothing. The
    phase raises only where [generate_indices] does, before any window is
    looked at, which strides of at least 1 exclude. *)
Theorem negative_patches_all_zero (pid : string)
    (modalities : list (string * volume Q)) (label : volume Q)
    (patch_size stride : Z * Z * Z) (aff : affine) (background_dir : string)
    (s : fs) :
  Forall (λ x, 0 <= x)%Q (flatten label) →
  (∀ z_starts y_starts x_starts,
     generate_indices (shape label).1.1 patch_size.1.1 stride.1.1 = Ok z_starts →
     generate_indices (shape label).1.2 patch_size.1.2 stride.1.2 = Ok y_starts →
     generate_indices (shape label).2 patch_size.2 stride.2 = Ok x_starts →
     negative_loop pid modalities label patch_size stride aff background_dir s
     = (s ++ concat (imap
               (λ i w, patch_files pid "negative" (Z.of_nat i)
                         (crop_all modalities (window_box patch_size w))
                         (crop label (window_box patch_size w)) background_dir aff)
               (accepted_windows label patch_size z_starts y_starts x_starts)),
        Ok (Z.of_nat (length (accepted_windows label patch_size
                                z_starts y_starts x_starts)))) ∧
     (∀ w, w ∈ accepted_windows label patch_size z_starts y_starts x_starts ↔
           w ∈ candidates z_starts y_starts x_starts ∧
           all_zero (crop label (window_box patch_size w))) ∧
     Forall (λ w, all_zero (crop label (window_box patch_size w)))
            (accepted_windows label patch_size z_starts y_starts x_starts)) ∧
  (∀ e,
     generate_indices (shape label).1.1 patch_size.1.1 stride.1.1 = Raise e ∨
     generate_indices (shape label).1.2 patch_size.1.2 stride.1.2 = Raise e ∨
     generate_indices (shape label).2 patch_size.2 stride.2 = Raise e →
     ∃ e', negative_loop pid modalities label patch_size stride aff background_dir s
           = (s, Raise e')) ∧
  (1 ≤ stride.1.1 → 1 ≤ stride.1.2 → 1 ≤ stride.2 →
   ∃ z_starts y_starts x_starts,
     generate_indices (shape label).1.1 patch_size.1.1 stride.1.1 = Ok z_starts ∧
     generate_indices (shape label).1.2 patch_size.1.2 stride.1.2 = Ok y_starts ∧
     generate_indices (shape label).2 patch_size.2 stride.2 = Ok x_starts).
Proof.
  intros Hlabel. split; [|split].
  - intros zs ys xs Hzs Hys Hxs. split; [|split].
    + unfold negative_loop. rewrite Hzs, Hys, Hxs. unfold lift.
      unfold mbind at 1 2 3. unfold io_bind.
      erewrite for_each_ext; [|intros acc z s'].
      2:{ erewrite for_each_ext; [|intros acc' y s''].
          2:{ erewrite (for_each_ext xs); [|intros acc'' x s3].
              2:{ symmetry. apply (for_each_singleton (z, y, x)). }
              apply (for_each_nested xs (λ x, [(z, y, x)])). }
          apply (for_each_nested ys (λ y, x ← xs; [(z, y, x)])). }
      rewrite (for_each_nested zs (λ z, y ← ys; x ← xs; [(z, y, x)])).
      fold (candidates zs ys xs).
      rewrite (negative_flat_run pid modalities label patch_size aff background_dir Hlabel).
      unfold accepted_windows. f_equal.
    + intros w. unfold accepted_windows. by rewrite list_elem_of_filter, (comm and).
    + unfold accepted_windows. apply Forall_forall.
      by intros w [? _]%list_elem_of_filter.
  - intros e Hraise. unfold negative_loop, lift. unfold mbind at 1 2 3. unfold io_bind.
    destruct (generate_indices (shape label).1.1 _ _) as [zs|ez]; [|eauto].
    destruct (generate_indices (shape label).1.2 _ _) as [ys|ey]; [|eauto].
    destruct (generate_indices (shape label).2 _ _) as [xs|ex]; [|eauto].
    by destruct Hraise as [?|[?|?]].
  - intros Hz Hy Hx.
    destruct (generate_indices_Ok (shape label).1.1 patch_size.1.1 _ Hz) as [zs Hzs].
    destruct (generate_indices_Ok (shape label).1.2 patch_size.1.2 _ Hy) as [ys Hys].
    destruct (generate_indices_Ok (shape label).2 patch_size.2 _ Hx) as [xs Hxs].
    by exists zs, ys, xs.
Qed.

Lemma negative_patches_all_zero_witness :
  negative_loop "P1" [("T1", Volume (1, 1, 6) [[[10; 20; 30; 40; 50; 60]]]%Q)]
    (Volume (1, 1, 6) [[[0; 0; 1; 0; 0; 0]]]%Q) (1, 1, 2) (1, 1, 1) [] "bg" []
  = ([] ++ concat (imap
            (λ i w, patch_files "P1" "negative" (Z.of_nat i)
                      (crop_all [("T1", Volume (1, 1, 6) [[[10; 20; 30; 40; 50; 60]]]%Q)]
                                (window_box (1, 1, 2) w))
                      (crop (Volume (1, 1, 6) [[[0; 0; 1; 0; 0; 0]]]%Q)
                            (window_box (1, 1, 2) w)) "bg" [])
            (accepted_windows (Volume (1, 1, 6) [[[0; 0; 1; 0; 0; 0]]]%Q) (1, 1, 2)
                              [0] [0] [0; 1; 2; 3; 4])),
     Ok (Z.of_nat (length (accepted_windows (Volume (1, 1, 6) [[[0; 0; 1; 0; 0; 0]]]%Q)
                             (1, 1, 2) [0] [0] [0; 1; 2; 3; 4])))).
Proof.
  destruct (negative_patches_all_zero "P1"
              [("T1", Volume (1, 1, 6) [[[10; 20; 30; 40; 50; 60]]]%Q)]
              (Volume (1, 1, 6) [[[0; 0; 1; 0; 0; 0]]]%Q) (1, 1, 2) (1, 1, 1) [] "bg" [])
    as (Hrun & _ & _).
  - repeat constructor; unfold Qle; cbn; lia.
  - destruct (Hrun [0] [0] [0; 1; 2; 3; 4]) as (Heq & _ & _); [reflexivity..|].
    exact Heq.
Defined.

(** ** ConnectedComponentExtractor *)

Lemma voxel_at_vmap {A B} (f : A → B) (v : volume A) (z y x : nat) :
  voxel_at (vmap f v) z y x = f <$> voxel_at v z y x.
Proof.
  unfold voxel_at, vmap. cbn [voxels]. rewrite list_lookup_fmap.
  destruct (voxels v !! z) as [plane|]; [|done]. cbn.
  rewrite list_lookup_fmap. destruct (plane !! y) as [row|]; [|done]. cbn.
  by rewrite list_lookup_fmap.
Qed.

Lemma voxel_at_bounds {A} (v : volume A) (z y x : nat) (a : A) :
  wf_volume v → voxel_at v z y x = Some a →
  Z.of_nat z < (shape v).1.1 ∧ Z.of_nat y < (shape v).1.2 ∧ Z.of_nat x < (shape v).2.
Proof.
  intros [Hd0 Hplanes]. unfold voxel_at.
  destruct (voxels v !! z) as [plane|] eqn:Hz; [|done]. cbn.
  destruct (plane !! y) as [row|] eqn:Hy; [|done]. cbn. intros Hx.
  pose proof (Forall_lookup_1 _ _ _ _ Hplanes Hz) as [Hd1 Hrows].
  pose proof (Forall_lookup_1 _ _ _ _ Hrows Hy) as Hd2. cbn beta in Hd2.
  apply lookup_lt_Some in Hz, Hy, Hx. lia.
Qed.

Lemma where3_spec (mask : volume bool) (c : Z * Z * Z) :
  c ∈ where3 mask ↔
  ∃ z y x : nat,
    c = (Z.of_nat z, Z.of_nat y, Z.of_nat x) ∧ voxel_at mask z y x = Some true.
Proof.
  unfold where3, voxel_at. split.
  - intros (cs1 & Hcs1 & Hc1)%elem_of_concat.
    apply elem_of_lookup_imap in Hcs1 as (z & plane & -> & Hz).
    apply elem_of_concat in Hc1 as (cs2 & Hcs2 & Hc2).
    apply elem_of_lookup_imap in Hcs2 as (y & row & -> & Hy).
    apply elem_of_concat in Hc2 as (cs3 & Hcs3 & Hc3).
    apply elem_of_lookup_imap in Hcs3 as (x & b & -> & Hx).
    destruct b; [|by apply elem_of_nil in Hc3].
    apply list_elem_of_singleton in Hc3 as ->.
    exists z, y, x. split; [done|]. by rewrite Hz; cbn; rewrite Hy.
  - intros (z & y & x & -> & Hv).
    destruct (voxels mask !! z) as [plane|] eqn:Hz; [|done]. cbn in Hv.
    destruct (plane !! y) as [row|] eqn:Hy; [|done]. cbn in Hv.
    apply elem_of_concat. eexists. split.
    { apply elem_of_lookup_imap. exists z, plane. split; [reflexivity|done]. }
    apply elem_of_concat. eexists. split.
    { apply elem_of_lookup_imap. exists y, row. split; [reflexivity|done]. }
    apply elem_of_concat. eexists. split.
    { apply elem_of_lookup_imap. exists x, true. split; [reflexivity|done]. }
    by apply list_elem_of_singleton.
Qed.

Lemma component_coords (labeled : volume Z) (comp : Z) (c : Z * Z * Z) :
  c ∈ where3 (vmap (λ v, v =? comp) labeled) ↔ in_component labeled comp c.
Proof.
  rewrite where3_spec. unfold in_component.
  split; intros (z & y & x & -> & Hv); exists z, y, x; (split; [done|]).
  - rewrite voxel_at_vmap in Hv. destruct (voxel_at labeled z y x) as [v|]; [|done].
    injection Hv as Hv. by apply Z.eqb_eq in Hv as ->.
  - rewrite voxel_at_vmap, Hv. cbn. by rewrite Z.eqb_refl.
Qed.

Lemma foldl_min_spec (x : Z) (c : list Z) :
  foldl Z.min x c ∈ x :: c ∧ ∀ y, y ∈ x :: c → foldl Z.min x c ≤ y.
Proof.
  revert x. induction c as [|a c IH]; intros x; cbn [foldl].
  - split; [left|]. intros y ->%list_elem_of_singleton. done.
  - destruct (IH (Z.min x a)) as [Hin Hle]. split.
    + apply elem_of_cons in Hin as [Heq|Hin]; [|by do 2 right].
      rewrite Heq. destruct (Z.min_spec x a) as [[_ ->]|[_ ->]]; [left|right; left].
    + intros y Hy. assert (Z.min x a ≤ y ∨ y ∈ c) as [Hm|Hyc].
      { apply elem_of_cons in Hy as [->|[->|?]%elem_of_cons]; [left; lia..|by right]. }
      * etrans; [|exact Hm]. apply Hle. left.
      * apply Hle. by right.
Qed.

Lemma foldl_max_spec (x : Z) (c : list Z) :
  foldl Z.max x c ∈ x :: c ∧ ∀ y, y ∈ x :: c → y ≤ foldl Z.max x c.
Proof.
  revert x. induction c as [|a c IH]; intros x; cbn [foldl].
  - split; [left|]. intros y ->%list_elem_of_singleton. done.
  - destruct (IH (Z.max x a)) as [Hin Hle]. split.
    + apply elem_of_cons in Hin as [Heq|Hin]; [|by do 2 right].
      rewrite Heq. destruct (Z.max_spec x a) as [[_ ->]|[_ ->]]; [right; left|left].
    + intros y Hy. assert (y ≤ Z.max x a ∨ y ∈ c) as [Hm|Hyc].
      { apply elem_of_cons in Hy as [->|[->|?]%elem_of_cons]; [left; lia..|by right]. }
      * etrans; [exact Hm|]. apply Hle. left.
      * apply Hle. by right.
Qed.

Lemma array_min_spec (c : list Z) :
  c ≠ [] → ∃ m, array_min c = Ok m ∧ m ∈ c ∧ ∀ y, y ∈ c → m ≤ y.
Proof.
  destruct c as [|x c]; [done|]. intros _. eexists. split; [done|].
  apply foldl_min_spec.
Qed.

Lemma array_max_spec (c : list Z) :
  c ≠ [] → ∃ m, array_max c = Ok m ∧ m ∈ c ∧ ∀ y, y ∈ c → y ≤ m.
Proof.
  destruct c as [|x c]; [done|]. intros _. eexists. split; [done|].
  apply foldl_max_spec.
Qed.

Lemma axis_extent (labeled : volume Z) (comp : Z) (proj : Z * Z * Z → Z) :
  (∃ c, in_component labeled comp c) →
  ∃ lo hi,
    array_min (proj <$> where3 (vmap (λ v, v =? comp) labeled)) = Ok lo ∧
    array_max (proj <$> where3 (vmap (λ v, v =? comp) labeled)) = Ok hi ∧
    bounding_interval labeled comp proj lo hi.
Proof.
  intros [c0 Hc0%component_coords].
  set (coords := where3 (vmap (λ v, v =? comp) labeled)) in *.
  assert (proj <$> coords ≠ []) as Hne.
  { intros Hnil. apply (list_elem_of_fmap_2 proj) in Hc0.
    rewrite Hnil in Hc0. by apply elem_of_nil in Hc0. }
  destruct (array_min_spec _ Hne) as (lo & Hlo & Hlo_in & Hlo_le).
  destruct (array_max_spec _ Hne) as (hi & Hhi & Hhi_in & Hhi_le).
  exists lo, hi. split; [done|]. split; [done|].
  apply list_elem_of_fmap in Hlo_in as (cl & -> & Hcl).
  apply list_elem_of_fmap in Hhi_in as (ch & -> & Hch).
  split; [|split].
  - exists cl. split; [by apply component_coords|done].
  - exists ch. split; [by apply component_coords|done].
  - intros c Hc%component_coords. apply (list_elem_of_fmap_2 proj) in Hc.
    split; [by apply Hlo_le|by apply Hhi_le].
Qed.

Lemma component_box_spec (labeled : volume Z) (label_shape : Z * Z * Z) (comp : Z) :
  wf_volume labeled → shape labeled = label_shape →
  (∃ c, in_component labeled comp c) →
  ∃ zlo zhi ylo yhi xlo xhi,
    bounding_interval labeled comp (λ c, c.1.1) zlo zhi ∧
    bounding_interval labeled comp (λ c, c.1.2) ylo yhi ∧
    bounding_interval labeled comp (λ c, c.2) xlo xhi ∧
    component_box labeled label_shape comp
    = Ok (padded zlo zhi label_shape.1.1, padded ylo yhi label_shape.1.2,
          padded xlo xhi label_shape.2) ∧
    ∀ c, in_component labeled comp c →
         inside (padded zlo zhi label_shape.1.1, padded ylo yhi label_shape.1.2,
                 padded xlo xhi label_shape.2) c.
Proof.
  intros Hwf Hshape Hne.
  destruct (axis_extent labeled comp (λ c, c.1.1) Hne) as (zlo & zhi & Hz1 & Hz2 & Hz).
  destruct (axis_extent labeled comp (λ c, c.1.2) Hne) as (ylo & yhi & Hy1 & Hy2 & Hy).
  destruct (axis_extent labeled comp (λ c, c.2) Hne) as (xlo & xhi & Hx1 & Hx2 & Hx).
  exists zlo, zhi, ylo, yhi, xlo, xhi. do 3 (split; [done|]). split.
  - unfold component_box. cbv zeta. rewrite Hz1, Hy1, Hx1, Hz2, Hy2, Hx2. done.
  - intros c Hc.
    destruct Hz as (_ & _ & Hz), Hy as (_ & _ & Hy), Hx as (_ & _ & Hx).
    specialize (Hz c Hc). specialize (Hy c Hc). specialize (Hx c Hc).
    destruct Hc as (z & y & x & -> & Hv).
    destruct (voxel_at_bounds labeled z y x comp Hwf Hv) as (Hbz & Hby & Hbx).
    rewrite Hshape in Hbz, Hby, Hbx.
    unfold inside, padded. cbn [fst snd] in *. lia.
Qed.

Section positive_facts.
Context (pid : string) (modalities : list (string * volume Q)) (label : volume Q).
Context (patch_size : Z * Z * Z) (aff : affine) (lesion_dir : string).
Context (labeled : volume Z).

Local Abbreviation files i box :=
  (patch_files pid "positive" i
     (crop_all modalities (enforce patch_size (shape label) box))
     (crop label (enforce patch_size (shape label) box)) lesion_dir aff).

Lemma save_positive_run (box : (Z * Z) * (Z * Z) * (Z * Z)) (pos_idx : Z) (s : fs) :
  save_positive pid modalities label patch_size aff lesion_dir box pos_idx s
  = (s ++ files pos_idx box, Ok (pos_idx + 1)).
Proof.
  destruct box as [[[zmin zmax] [ymin ymax]] [xmin xmax]].
  unfold save_positive, enforce, crop_all, crop. cbn [fst snd].
  destruct (ensure_size zmin zmax _ _) as [zmin' zmax'].
  destruct (ensure_size ymin ymax _ _) as [ymin' ymax'].
  destruct (ensure_size xmin xmax _ _) as [xmin' xmax'].
  unfold mbind, io_bind. by rewrite save_patch_run.
Qed.

Lemma positive_flat_run (ks : list Z) (boxes : list ((Z * Z) * (Z * Z) * (Z * Z)))
    (n0 : Z) (s : fs) :
  Forall2 (λ k box, component_box labeled (shape label) k = Ok box) ks boxes →
  for_each ks
    (λ pos_idx comp,
       box ← lift (component_box labeled (shape label) comp);
       save_positive pid modalities label patch_size aff lesion_dir box pos_idx)
    n0 s
  = (s ++ concat (imap (λ i box, files (n0 + Z.of_nat i) box) boxes),
     Ok (n0 + Z.of_nat (length boxes))).
Proof.
  intros Hboxes. revert n0 s.
  induction Hboxes as [|k box ks boxes Hk _ IH]; intros n0 s.
  - cbn. by rewrite app_nil_r, Z.add_0_r.
  - rewrite for_each_cons. unfold mbind at 1, io_bind at 1, lift at 1.
    rewrite Hk, save_positive_run, IH.
    cbn [imap concat length]. rewrite <- app_assoc, Z.add_0_r.
    f_equal; [|f_equal; lia]. do 3 f_equal.
    apply imap_ext. intros i b _. unfold compose.
    by replace (n0 + 1 + Z.of_nat i) with (n0 + Z.of_nat (S i)) by lia.
Qed.

End positive_facts.

Lemma range_components (num : Z) : range 1 (num + 1) 1 = Ok (seqZ 1 num).
Proof.
  unfold range, range_len. cbn [Z.eqb Z.ltb Z.compare].
  destruct (Z.ltb_spec 1 (num + 1)) as [Hlt|Hge]; f_equal.
  - replace ((num + 1 - 1 - 1) / 1 + 1) with num by (rewrite Z.div_1_r; lia).
    change (seqZ 1 num) with (seqZ (1 + 0) num).
    rewrite <- (fmap_add_seqZ 1 0 num). apply list_fmap_ext. intros _ i _. lia.
  - by rewrite (seqZ_nil 1 num) by lia.
Qed.

Lemma Forall2_choice {A B} (P : A → B → Prop) (l : list A) :
  (∀ a, a ∈ l → ∃ b, P a b) → ∃ bs, Forall2 P l bs.
Proof.
  induction l as [|a l IH]; intros Hl; [by exists []|].
  destruct (Hl a) as [b Hb]; [left|].
  destruct IH as [bs Hbs]; [intros a' Ha'; apply Hl; by right|].
  exists (b :: bs). by constructor.
Qed.

(** C7: for each component [k] of [1..num] the box [process_case] computes
    before [ensure_size] is the component's least bounding interval on
    each axis, widened by 10 voxels on each side and clamped to the volume,
    and holds every voxel of the component; the components are handled in
    increasing order and component [k] is written as positive patch
    [k - 1]. *)
Theorem positive_patches_boxes (pid : string)
    (modalities : list (string * volume Q)) (label : volume Q)
    (patch_size : Z * Z * Z) (aff : affine) (lesion_dir : string)
    (labeled : volume Z) (num : Z) (s : fs) :
  wf_volume labeled → shape labeled = shape label →
  (∀ k, 1 ≤ k ≤ num → ∃ c, in_component labeled k c) →
  ∃ boxes : list ((Z * Z) * (Z * Z) * (Z * Z)),
    (∀ k, 1 ≤ k ≤ num →
       ∃ box zlo zhi ylo yhi xlo xhi,
         boxes !! Z.to_nat (k - 1) = Some box ∧
         component_box labeled (shape label) k = Ok box ∧
         bounding_interval labeled k (λ c, c.1.1) zlo zhi ∧
         bounding_interval labeled k (λ c, c.1.2) ylo yhi ∧
         bounding_interval labeled k (λ c, c.2) xlo xhi ∧
         box = (padded zlo zhi (shape label).1.1, padded ylo yhi (shape label).1.2,
                padded xlo xhi (shape label).2) ∧
         ∀ c, in_component labeled k c → inside box c) ∧
    positive_loop pid modalities label patch_size aff lesion_dir labeled num s
    = (s ++ concat (imap
              (λ i box, patch_files pid "positive" (Z.of_nat i)
                          (crop_all modalities (enforce patch_size (shape label) box))
                          (crop label (enforce patch_size (shape label) box))
                          lesion_dir aff)
              boxes),
       Ok (Z.of_nat (length boxes))).
Proof.
  intros Hwf Hshape Hcomp.
  destruct (Forall2_choice
              (λ k box, component_box labeled (shape label) k = Ok box) (seqZ 1 num))
    as [boxes Hboxes].
  { intros k Hk%elem_of_seqZ.
    destruct (component_box_spec labeled (shape label) k Hwf Hshape)
      as (zlo & zhi & ylo & yhi & xlo & xhi & _ & _ & _ & Hbox & _); [|eauto].
    apply Hcomp. lia. }
  exists boxes. split.
  - intros k Hk.
    destruct (component_box_spec labeled (shape label) k Hwf Hshape (Hcomp k Hk))
      as (zlo & zhi & ylo & yhi & xlo & xhi & Hz & Hy & Hx & Hbox & Hin).
    eexists _, zlo, zhi, ylo, yhi, xlo, xhi.
    split; [|by do 5 (split; [done|])].
    assert (seqZ 1 num !! Z.to_nat (k - 1) = Some k) as Hlook.
    { apply lookup_seqZ. lia. }
    destruct (Forall2_lookup_l _ _ _ _ _ Hboxes Hlook) as (box & Hb & Hbk).
    rewrite Hb. f_equal. congruence.
  - unfold positive_loop. rewrite range_components.
    unfold mbind at 1, io_bind at 1, lift at 1.
    rewrite (positive_flat_run pid modalities label patch_size aff lesion_dir labeled
               _ boxes 0 s Hboxes).
    rewrite Z.add_0_l. f_equal.
Qed.

Lemma positive_patches_boxes_witness :
  ∃ boxes : list ((Z * Z) * (Z * Z) * (Z * Z)),
    (∀ k, 1 ≤ k ≤ 1 →
       ∃ box zlo zhi ylo yhi xlo xhi,
         boxes !! Z.to_nat (k - 1) = Some box ∧
         component_box (Volume (1, 1, 30) [[replicate 14 0 ++ [1; 1] ++ replicate 14 0]])
                       (1, 1, 30) k = Ok box ∧
         bounding_interval (Volume (1, 1, 30) [[replicate 14 0 ++ [1; 1] ++ replicate 14 0]])
                           k (λ c, c.1.1) zlo zhi ∧
         bounding_interval (Volume (1, 1, 30) [[replicate 14 0 ++ [1; 1] ++ replicate 14 0]])
                           k (λ c, c.1.2) ylo yhi ∧
         bounding_interval (Volume (1, 1, 30) [[replicate 14 0 ++ [1; 1] ++ replicate 14 0]])
                           k (λ c, c.2) xlo xhi ∧
         box = (padded zlo zhi 1, padded ylo yhi 1, padded xlo xhi 30) ∧
         ∀ c, in_component
                (Volume (1, 1, 30) [[replicate 14 0 ++ [1; 1] ++ replicate 14 0]]) k c →
              inside box c) ∧
    positive_loop "P1" [] (Volume (1, 1, 30) [[replicate 30 0%Q]]) (1, 1, 4) []
      "lesion_patches"
      (Volume (1, 1, 30) [[replicate 14 0 ++ [1; 1] ++ replicate 14 0]]) 1 []
    = ([] ++ concat (imap
              (λ i box, patch_files "P1" "positive" (Z.of_nat i)
                          (crop_all [] (enforce (1, 1, 4) (1, 1, 30) box))
                          (crop (Volume (1, 1, 30) [[replicate 30 0%Q]])
                                (enforce (1, 1, 4) (1, 1, 30) box))
                          "lesion_patches" [])
              boxes),
       Ok (Z.of_nat (length boxes))).
Proof.
  apply (positive_patches_boxes "P1" [] (Volume (1, 1, 30) [[replicate 30 0%Q]])
           (1, 1, 4) [] "lesion_patches"
           (Volume (1, 1, 30) [[replicate 14 0 ++ [1; 1] ++ replicate 14 0]]) 1 []).
  - split; [reflexivity|]. repeat constructor.
  - reflexivity.
  - intros k Hk. assert (k = 1) as -> by lia.
    exists (0, 0, 14), 0%nat, 0%nat, 14%nat. split; reflexivity.
Defined.

(** ** CaseProcessor *)

(** A case with a ground truth and at least one modality, whose
    volumes normalise, goes through the positive and then the negative
    phase. *)
Lemma process_case_phases `{Labeller} (pid : string)
    (case_files : list (string * nifti)) (output_dir : string)
    (patch_size stride : Z * Z * Z) (modalities_filter : option (list string))
    (first : string * nifti) (rest : list (string * nifti)) (gt_img : nifti)
    (modalities : list (string * volume Q)) (s : fs) :
  discover case_files modalities_filter = (first :: rest, Some gt_img) →
  for_each (first :: rest)
    (λ modalities '(modality, img),
       data ← lift (normalize_volume (get_fdata img));
       mret (dict_set modality data modalities))
    [] s = (s, Ok modalities) →
  process_case pid case_files output_dir patch_size stride modalities_filter s
  = (let label := get_fdata gt_img in
     let aff := nii_affine first.2 in
     let labeling := ndi_label (vmap (Qltb 0) label) in
     pos_idx ← positive_loop pid modalities label patch_size aff
                 (path_join output_dir "lesion_patches") labeling.1 labeling.2;
     neg_idx ← negative_loop pid modalities label patch_size stride aff
                 (path_join output_dir "background_patches");
     mret (Some (pos_idx, neg_idx))) s.
Proof.
  intros Hdisc Hnorm. unfold process_case. rewrite Hdisc.
  destruct first as [name first_img].
  unfold mbind at 1, io_bind at 1. rewrite Hnorm. cbv zeta. cbn [snd].
  by destruct (ndi_label _) as [labeled num].
Qed.

(* ===================================================================== *)
(** * Part III: further properties of the code                            *)
(* ===================================================================== *)

(** ** [ensure_size] *)

(** X1: an interval shorter than [min_size] on an axis that has room for
    [min_size] comes back exactly [min_size] long. *)
Theorem ensure_size_exact (start end_ min_size max_dim : Z) :
  0 ≤ start < end_ → end_ ≤ max_dim →
  end_ - start < min_size → min_size ≤ max_dim →
  (ensure_size start end_ min_size max_dim).2
  - (ensure_size start end_ min_size max_dim).1 = min_size.
Proof.
  intros Hse Hem Hshort Hroom.
  unfold_ensure_size; Z.div_mod_to_equations; lia.
Qed.

Lemma ensure_size_exact_witness :
  (ensure_size 0 3 8 20).2 - (ensure_size 0 3 8 20).1 = 8.
Proof. apply ensure_size_exact; lia. Defined.

(** X2: [ensure_size] is idempotent: enforcing the size again on its result
    changes nothing. *)
Theorem ensure_size_idempotent (start end_ min_size max_dim : Z) :
  0 ≤ start < end_ → end_ ≤ max_dim →
  ensure_size (ensure_size start end_ min_size max_dim).1
              (ensure_size start end_ min_size max_dim).2 min_size max_dim
  = ensure_size start end_ min_size max_dim.
Proof.
  intros Hse Hem.
  destruct (ensure_size start end_ min_size max_dim) as [s1 e1] eqn:Hfirst.
  cbn [fst snd].
  assert (0 ≤ s1 ∧ s1 < e1 ∧ e1 ≤ max_dim ∧
          (min_size ≤ e1 - s1 ∨ (s1 = 0 ∧ e1 = max_dim))) as (H1 & H2 & H3 & H4).
  { revert Hfirst. unfold_ensure_size; intros [= <- <-];
      Z.div_mod_to_equations; lia. }
  unfold_ensure_size; f_equal; Z.div_mod_to_equations; lia.
Qed.

Lemma ensure_size_idempotent_witness :
  ensure_size (ensure_size 17 19 8 20).1 (ensure_size 17 19 8 20).2 8 20
  = ensure_size 17 19 8 20.
Proof. apply ensure_size_idempotent; lia. Defined.

(** ** [generate_indices] *)

(** The starts for [dim > patch] and a positive stride, written out. *)
Lemma generate_indices_explicit (dim patch stride : Z) :
  patch < dim → 1 ≤ stride →
  generate_indices dim patch stride
  = Ok (((λ i, 0 + i * stride) <$> seqZ 0 ((dim - patch) / stride + 1))
        ++ (if decide ((dim - patch) / stride * stride = dim - patch)
            then [] else [dim - patch])).
Proof.
  intros Hdim Hstride. unfold generate_indices.
  destruct (Z.leb_spec dim patch); [lia|].
  rewrite range_pos by lia. cbn [mbind result_bind].
  replace (dim - patch + 1 - 1) with (dim - patch) by lia.
  assert (0 ≤ (dim - patch) / stride) as Hk by (apply Z.div_pos; lia).
  unfold last_item. rewrite last_fmap_seqZ by done. cbn [mbind result_bind].
  destruct (Z.eqb_spec (0 + (dim - patch) / stride * stride) (dim - patch)) as [Heq|Hne];
    cbn [negb]; (destruct (decide _) as [Hd|Hd]; [|]); try lia.
  - by rewrite app_nil_r.
  - done.
Qed.

Lemma generate_indices_steps_aux (dim patch stride : Z) :
  patch < dim → 1 ≤ stride →
  ∃ l, generate_indices dim patch stride = Ok l ∧
       (∀ s, s ∈ l → 0 ≤ s ∧ s + patch ≤ dim) ∧
       (∀ (i : nat) a b, l !! i = Some a → l !! S i = Some b → a < b ≤ a + stride) ∧
       (∀ v, dim - patch ≤ v < dim → ∃ s, s ∈ l ∧ s ≤ v < s + patch) ∧
       (∀ v, 0 ≤ v < dim - patch → ∃ s, s ∈ l ∧ s ≤ v < s + stride).
Proof.
  intros Hdim Hstride.
  rewrite generate_indices_explicit by done.
  set (d := dim - patch). set (k := d / stride).
  assert (0 ≤ k) as Hk by (apply Z.div_pos; lia).
  pose proof (Z.mul_div_le d stride ltac:(lia)) as Hkd.
  pose proof (Z.mul_succ_div_gt d stride ltac:(lia)) as Hkd'.
  fold k in Hkd, Hkd'.
  set (multiples := (λ i, 0 + i * stride) <$> seqZ 0 (k + 1)).
  assert (∀ (i : nat) a, multiples !! i = Some a ↔ a = Z.of_nat i * stride ∧ Z.of_nat i ≤ k)
    as Hmult.
  { intros i a. unfold multiples. rewrite list_lookup_fmap.
    destruct (seqZ 0 (k + 1) !! i) as [j|] eqn:Hj; cbn.
    - apply lookup_seqZ in Hj as [-> Hi]. split; [intros [= <-]; lia|intros [-> _]; f_equal; lia].
    - split; [done|]. intros [_ Hi].
      assert (seqZ 0 (k + 1) !! i = Some (0 + Z.of_nat i)) as Hsome
        by (apply lookup_seqZ; lia).
      congruence. }
  assert (length multiples = Z.to_nat (k + 1)) as Hlen
    by (unfold multiples; by rewrite length_fmap, length_seqZ).
  eexists. split; [done|]. split; [|split; [|split]].
  - intros s [Hs|Hs]%elem_of_app.
    + apply list_elem_of_lookup in Hs as [i [-> Hi]%Hmult]. nia.
    + destruct (decide _); [by apply elem_of_nil in Hs|].
      apply list_elem_of_singleton in Hs as ->. lia.
  - intros i a b Ha Hb.
    destruct (decide (S i < length multiples)%nat) as [Hin|Hout].
    + rewrite lookup_app_l in Ha, Hb by lia.
      apply Hmult in Ha as [-> _]. apply Hmult in Hb as [-> _]. nia.
    + destruct (decide (k * stride = d)) as [Heq|Hneq].
      { rewrite app_nil_r in Hb. apply lookup_lt_Some in Hb. lia. }
      assert (S i = length multiples) as HSi.
      { apply lookup_lt_Some in Hb. rewrite length_app in Hb. cbn in Hb. lia. }
      rewrite lookup_app_l in Ha by lia.
      rewrite lookup_app_r in Hb by lia.
      replace (S i - length multiples)%nat with 0%nat in Hb by lia.
      injection Hb as <-. apply Hmult in Ha as [-> _].
      assert (Z.of_nat i = k) as -> by lia. lia.
  - intros v Hv. exists d. split; [|lia].
    destruct (decide (k * stride = d)) as [Heq|Hneq].
    + rewrite app_nil_r. apply list_elem_of_lookup. exists (Z.to_nat k).
      apply Hmult. lia.
    + apply elem_of_app. right. by apply list_elem_of_singleton.
  - intros v Hv. exists (v / stride * stride).
    pose proof (Z.mul_div_le v stride ltac:(lia)).
    pose proof (Z.mul_succ_div_gt v stride ltac:(lia)).
    assert (0 ≤ v / stride) by (apply Z.div_pos; lia).
    assert (v / stride ≤ k) by (apply Z.div_le_mono; lia).
    split; [|lia]. apply elem_of_app. left.
    apply list_elem_of_lookup. exists (Z.to_nat (v / stride)). apply Hmult. lia.
Qed.

(** X3: for [dim > patch] and a stride of at least 1, every window lies
    inside the axis, the starts increase strictly, and two consecutive
    starts are never more than [stride] apart. *)
Theorem generate_indices_steps (dim patch stride : Z) :
  patch < dim → 1 ≤ stride →
  ∃ l, generate_indices dim patch stride = Ok l ∧
       (∀ s, s ∈ l → 0 ≤ s ∧ s + patch ≤ dim) ∧
       (∀ (i : nat) a b, l !! i = Some a → l !! S i = Some b → a < b ≤ a + stride).
Proof.
  intros Hdim Hstride.
  destruct (generate_indices_steps_aux dim patch stride Hdim Hstride)
    as (l & Hl & Hfit & Hstep & _).
  by exists l.
Qed.

Lemma generate_indices_steps_witness :
  ∃ l, generate_indices 300 128 64 = Ok l ∧
       (∀ s, s ∈ l → 0 ≤ s ∧ s + 128 ≤ 300) ∧
       (∀ (i : nat) a b, l !! i = Some a → l !! S i = Some b → a < b ≤ a + 64).
Proof. apply generate_indices_steps; lia. Defined.

(** X4: for [dim > patch], a zero stride is a [ValueError] (from [range])
    and a negative stride an [IndexError] (from [starts[-1]] on the empty
    list); for [dim ≤ patch] the stride is never looked at. *)
Theorem generate_indices_bad_stride (dim patch stride : Z) :
  (dim ≤ patch → generate_indices dim patch stride = Ok [0]) ∧
  (patch < dim → stride = 0 → generate_indices dim patch stride = Raise ValueError) ∧
  (patch < dim → stride < 0 → generate_indices dim patch stride = Raise IndexError).
Proof.
  unfold generate_indices, range, range_len. split; [|split].
  - intros Hle. by destruct (Z.leb_spec dim patch); [|lia].
  - intros Hlt ->. by destruct (Z.leb_spec dim patch); [lia|].
  - intros Hlt Hneg. destruct (Z.leb_spec dim patch); [lia|].
    destruct (Z.eqb_spec stride 0); [lia|].
    destruct (Z.ltb_spec 0 stride); [lia|].
    destruct (Z.ltb_spec (dim - patch + 1) 0); [lia|].
    by rewrite seqZ_nil.
Qed.

Lemma generate_indices_bad_stride_witness :
  generate_indices 10 4 0 = Raise ValueError ∧
  generate_indices 10 4 (-2) = Raise IndexError.
Proof.
  destruct (generate_indices_bad_stride 10 4 0) as (_ & Hzero & _).
  destruct (generate_indices_bad_stride 10 4 (-2)) as (_ & _ & Hneg).
  split; [apply Hzero|apply Hneg]; lia.
Defined.

(** X5: with the stride [main] takes when none is given, half the patch
    length, and a patch at least 2 long, the windows cover the axis and
    each one overlaps the next by at least half a patch (rounded up). *)
Theorem default_stride_overlap (dim patch : Z) :
  2 ≤ patch → patch < dim →
  ∃ l, generate_indices dim patch (patch / 2) = Ok l ∧
       window_cover dim patch l ∧
       ∀ (i : nat) a b, l !! i = Some a → l !! S i = Some b →
                        a < b ∧ patch - patch / 2 ≤ a + patch - b.
Proof.
  intros Hpatch Hdim.
  assert (1 ≤ patch / 2 ≤ patch) as Hhalf by (Z.div_mod_to_equations; lia).
  destruct (generate_indices_steps_aux dim patch (patch / 2) Hdim ltac:(lia))
    as (l & Hl & Hfit & Hstep & Htail & Hbody).
  exists l. split; [done|]. split.
  - intros v. split.
    + intros (s & Hs%Hfit & Hv). lia.
    + intros Hv. destruct (Z.lt_ge_cases v (dim - patch)) as [Hlt|Hge].
      * destruct (Hbody v ltac:(lia)) as (s & Hs & Hsv). exists s. split; [done|lia].
      * apply Htail. lia.
  - intros i a b Ha Hb. specialize (Hstep i a b Ha Hb). lia.
Qed.

Lemma default_stride_overlap_witness :
  ∃ l, generate_indices 300 128 (default_stride (128, 128, 128)).1.1 = Ok l ∧
       window_cover 300 128 l ∧
       ∀ (i : nat) a b, l !! i = Some a → l !! S i = Some b →
                        a < b ∧ 128 - 128 / 2 ≤ a + 128 - b.
Proof. apply (default_stride_overlap 300 128); lia. Defined.

(** X6: a patch length of 1 makes the default stride 0, and then every
    axis longer than one voxel makes [generate_indices] raise. *)
Theorem default_stride_unit_patch (dim : Z) (patch_size : Z * Z * Z) :
  patch_size.1.1 = 1 → 1 < dim →
  generate_indices dim patch_size.1.1 (default_stride patch_size).1.1
  = Raise ValueError.
Proof.
  intros Hp Hdim. unfold default_stride. cbn [fst snd]. rewrite Hp.
  unfold generate_indices, range. by destruct (Z.leb_spec dim 1); [lia|].
Qed.

Lemma default_stride_unit_patch_witness :
  generate_indices 5 (1, 128, 128).1.1 (default_stride (1, 128, 128)).1.1
  = Raise ValueError.
Proof. apply (default_stride_unit_patch 5 (1, 128, 128)); [reflexivity|lia]. Defined.

(** ** Slicing arrays *)

Lemma slice_bound_range (n i : Z) : 0 ≤ n → 0 ≤ slice_bound n i ≤ n.
Proof. intros Hn. unfold slice_bound. destruct (Z.ltb_spec i 0); lia. Qed.

Lemma length_slice {A} (start stop : Z) (l : list A) :
  Z.of_nat (length (slice start stop l)) = slice_len (Z.of_nat (length l)) start stop.
Proof.
  unfold slice, slice_len. rewrite length_take, length_drop.
  pose proof (slice_bound_range (Z.of_nat (length l)) start ltac:(lia)).
  pose proof (slice_bound_range (Z.of_nat (length l)) stop ltac:(lia)).
  lia.
Qed.

Lemma slice_len_inside (n a b : Z) : 0 ≤ a ≤ b → b ≤ n → slice_len n a b = b - a.
Proof.
  intros Hab Hbn. unfold slice_len, slice_bound.
  destruct (Z.ltb_spec a 0), (Z.ltb_spec b 0); lia.
Qed.

Lemma shape_crop {A} (v : volume A) (box : (Z * Z) * (Z * Z) * (Z * Z)) :
  box_within box (shape v) → shape (crop v box) = box_shape box.
Proof.
  destruct box as [[[z1 z2] [y1 y2]] [x1 x2]]. unfold box_within, crop, getitem3, box_shape.
  destruct (shape v) as [[d0 d1] d2]. cbn [fst snd shape].
  intros ((Hz & Hz') & (Hy & Hy') & (Hx & Hx')).
  by rewrite !slice_len_inside by done.
Qed.

(** X7: cutting a box out of a well-formed array gives a well-formed
    array, and every voxel of the result is a voxel of the source. *)
Theorem getitem3_wf {A} (v : volume A) (zs ys xs : Z * Z) :
  wf_volume v →
  wf_volume (getitem3 v zs ys xs) ∧
  ∀ a, a ∈ flatten (getitem3 v zs ys xs) → a ∈ flatten v.
Proof.
  intros [Hd0 Hplanes]. split; [|intros a; apply elem_of_flatten_getitem3].
  unfold wf_volume, getitem3 in *. destruct (shape v) as [[d0 d1] d2].
  cbn [fst snd shape voxels] in *. split.
  - by rewrite length_fmap, length_slice, Hd0.
  - apply Forall_fmap, Forall_forall. intros plane Hplane%elem_of_slice.
    pose proof (proj1 (Forall_forall _ _) Hplanes plane Hplane) as [Hd1 Hrows].
    unfold compose. split.
    + by rewrite length_fmap, length_slice, Hd1.
    + apply Forall_fmap, Forall_forall. intros row Hrow%elem_of_slice.
      pose proof (proj1 (Forall_forall _ _) Hrows row Hrow) as Hd2. cbn beta in *.
      unfold compose. by rewrite length_slice, Hd2.
Qed.

Lemma getitem3_wf_witness :
  wf_volume (getitem3 (Volume (1, 2, 3) [[[1; 2; 3]; [4; 5; 6]]]) (0, 1) (1, 5) (-2, 3)) ∧
  ∀ a, a ∈ flatten (getitem3 (Volume (1, 2, 3) [[[1; 2; 3]; [4; 5; 6]]])
                             (0, 1) (1, 5) (-2, 3)) →
       a ∈ flatten (Volume (1, 2, 3) [[[1; 2; 3]; [4; 5; 6]]]).
Proof.
  apply (getitem3_wf (Volume (1, 2, 3) [[[1; 2; 3]; [4; 5; 6]]])).
  split; [reflexivity|]. repeat constructor.
Defined.

(** The length of one window along an axis. *)
Lemma window_len (dim patch stride s : Z) (l : list Z) :
  0 ≤ dim → 1 ≤ patch → 1 ≤ stride →
  generate_indices dim patch stride = Ok l → s ∈ l →
  slice_len dim s (s + patch) = Z.min patch dim.
Proof.
  intros Hdim Hpatch Hstride Hl Hs.
  destruct (Z.le_gt_cases dim patch) as [Hle|Hgt].
  - unfold generate_indices in Hl. destruct (Z.leb_spec dim patch); [|lia].
    injection Hl as <-. apply list_elem_of_singleton in Hs as ->.
    unfold slice_len, slice_bound. cbn. destruct (Z.ltb_spec (0 + patch) 0); lia.
  - destruct (generate_indices_steps_aux dim patch stride ltac:(lia) Hstride)
      as (l' & Hl' & Hfit & _).
    rewrite Hl in Hl'. injection Hl' as <-. apply Hfit in Hs.
    rewrite slice_len_inside by lia. lia.
Qed.

Lemma elem_of_candidates (zs ys xs : list Z) (w : Z * Z * Z) :
  w ∈ candidates zs ys xs ↔ w.1.1 ∈ zs ∧ w.1.2 ∈ ys ∧ w.2 ∈ xs.
Proof.
  unfold candidates. destruct w as [[z y] x]. cbn [fst snd].
  rewrite list_elem_of_bind. split.
  - intros (z' & (y' & (x' & Hw & Hx)%list_elem_of_bind & Hy)%list_elem_of_bind & Hz).
    apply list_elem_of_singleton in Hw as [= -> -> ->]. done.
  - intros (Hz & Hy & Hx). exists z. split; [|done].
    apply list_elem_of_bind. exists y. split; [|done].
    apply list_elem_of_bind. exists x. split; [|done].
    by apply list_elem_of_singleton.
Qed.

(** X8: on a label array whose three extents are not negative, with
    patch lengths and strides of at least 1, every candidate window of the
    negative phase has the same shape: the patch size, cut down to the
    array on an axis shorter than the patch. *)
Theorem negative_window_shape (label : volume Q) (patch_size stride : Z * Z * Z)
    (z_starts y_starts x_starts : list Z) (w : Z * Z * Z) :
  0 ≤ (shape label).1.1 → 0 ≤ (shape label).1.2 → 0 ≤ (shape label).2 →
  1 ≤ patch_size.1.1 → 1 ≤ patch_size.1.2 → 1 ≤ patch_size.2 →
  1 ≤ stride.1.1 → 1 ≤ stride.1.2 → 1 ≤ stride.2 →
  generate_indices (shape label).1.1 patch_size.1.1 stride.1.1 = Ok z_starts →
  generate_indices (shape label).1.2 patch_size.1.2 stride.1.2 = Ok y_starts →
  generate_indices (shape label).2 patch_size.2 stride.2 = Ok x_starts →
  w ∈ candidates z_starts y_starts x_starts →
  shape (crop label (window_box patch_size w))
  = (Z.min patch_size.1.1 (shape label).1.1, Z.min patch_size.1.2 (shape label).1.2,
     Z.min patch_size.2 (shape label).2).
Proof.
  intros Hd0 Hd1 Hd2 Hp0 Hp1 Hp2 Hs0 Hs1 Hs2 Hzs Hys Hxs (Hz & Hy & Hx)%elem_of_candidates.
  unfold crop, window_box, getitem3.
  destruct (shape label) as [[d0 d1] d2]. cbn [fst snd shape] in *.
  by rewrite (window_len d0 _ _ _ _ Hd0 Hp0 Hs0 Hzs Hz),
             (window_len d1 _ _ _ _ Hd1 Hp1 Hs1 Hys Hy),
             (window_len d2 _ _ _ _ Hd2 Hp2 Hs2 Hxs Hx).
Qed.

Lemma negative_window_shape_witness :
  shape (crop (Volume (1, 1, 6) [[[0; 0; 1; 0; 0; 0]]]%Q) (window_box (4, 1, 2) (0, 0, 3)))
  = (Z.min 4 1, Z.min 1 1, Z.min 2 6).
Proof.
  apply (negative_window_shape (Volume (1, 1, 6) [[[0; 0; 1; 0; 0; 0]]]%Q)
           (4, 1, 2) (1, 1, 1) [0] [0] [0; 1; 2; 3; 4] (0, 0, 3));
    cbn [shape fst snd]; try lia; try reflexivity.
  apply elem_of_candidates. cbn [fst snd]. repeat split.
  - left.
  - left.
  - do 3 right. left.
Defined.

(** ** Positive patches after [ensure_size] *)

(** Whatever [min_size] is, the result of [ensure_size] stays on the
    axis, holds the interval it was given, and is at least
    [min (min_size, max_dim)] long. *)
Lemma ensure_size_general (start end_ min_size max_dim : Z) :
  0 ≤ start < end_ → end_ ≤ max_dim →
  0 ≤ (ensure_size start end_ min_size max_dim).1 ≤ start ∧
  end_ ≤ (ensure_size start end_ min_size max_dim).2 ≤ max_dim ∧
  Z.min min_size max_dim
  ≤ (ensure_size start end_ min_size max_dim).2 - (ensure_size start end_ min_size max_dim).1.
Proof.
  intros Hse Hem. unfold_ensure_size; Z.div_mod_to_equations; lia.
Qed.

(** X9: the box a positive patch is cut with, after [ensure_size], lies
    inside the volume, still holds every voxel of its component, and is
    on each axis at least as long as the patch size or, where the volume
    is shorter than that, as the volume; the label patch has the box's
    shape. *)
Theorem positive_patch_box (label : volume Q) (labeled : volume Z)
    (patch_size : Z * Z * Z) (comp : Z) :
  wf_volume labeled → shape labeled = shape label →
  (∃ c, in_component labeled comp c) →
  ∃ box,
    component_box labeled (shape label) comp = Ok box ∧
    box_within (enforce patch_size (shape label) box) (shape label) ∧
    (∀ c, in_component labeled comp c →
          inside (enforce patch_size (shape label) box) c) ∧
    shape (crop label (enforce patch_size (shape label) box))
    = box_shape (enforce patch_size (shape label) box) ∧
    Z.min patch_size.1.1 (shape label).1.1
      ≤ (box_shape (enforce patch_size (shape label) box)).1.1 ∧
    Z.min patch_size.1.2 (shape label).1.2
      ≤ (box_shape (enforce patch_size (shape label) box)).1.2 ∧
    Z.min patch_size.2 (shape label).2
      ≤ (box_shape (enforce patch_size (shape label) box)).2.
Proof.
  intros Hwf Hshape Hne.
  destruct (component_box_spec labeled (shape label) comp Hwf Hshape Hne)
    as (zlo & zhi & ylo & yhi & xlo & xhi & Hz & Hy & Hx & Hbox & Hin).
  eexists. split; [exact Hbox|].
  destruct Hne as [c0 Hc0].
  pose proof (Hin c0 Hc0) as (Hz0 & Hy0 & Hx0). cbn [fst snd] in Hz0, Hy0, Hx0.
  destruct (shape label) as [[d0 d1] d2] eqn:Hsh. cbn [fst snd] in *.
  assert (0 ≤ (padded zlo zhi d0).1 < (padded zlo zhi d0).2 ∧ (padded zlo zhi d0).2 ≤ d0)
    as [Hz1 Hz2] by (unfold padded in *; cbn [fst snd] in *; lia).
  assert (0 ≤ (padded ylo yhi d1).1 < (padded ylo yhi d1).2 ∧ (padded ylo yhi d1).2 ≤ d1)
    as [Hy1 Hy2] by (unfold padded in *; cbn [fst snd] in *; lia).
  assert (0 ≤ (padded xlo xhi d2).1 < (padded xlo xhi d2).2 ∧ (padded xlo xhi d2).2 ≤ d2)
    as [Hx1 Hx2] by (unfold padded in *; cbn [fst snd] in *; lia).
  pose proof (ensure_size_general _ _ patch_size.1.1 d0 Hz1 Hz2) as (Ez1 & Ez2 & Ez3).
  pose proof (ensure_size_general _ _ patch_size.1.2 d1 Hy1 Hy2) as (Ey1 & Ey2 & Ey3).
  pose proof (ensure_size_general _ _ patch_size.2 d2 Hx1 Hx2) as (Ex1 & Ex2 & Ex3).
  assert (box_within
            (enforce patch_size (d0, d1, d2)
               (padded zlo zhi d0, padded ylo yhi d1, padded xlo xhi d2)) (d0, d1, d2))
    as Hwithin.
  { unfold box_within, enforce. cbn [fst snd]. lia. }
  split; [done|]. split; [|split].
  - intros c Hc. specialize (Hin c Hc). unfold inside, enforce in *.
    cbn [fst snd] in *. lia.
  - apply shape_crop. by rewrite Hsh.
  - unfold box_shape, enforce. cbn [fst snd]. lia.
Qed.

Lemma positive_patch_box_witness :
  ∃ box,
    component_box (Volume (1, 1, 30) [[replicate 14 0 ++ [1; 1] ++ replicate 14 0]])
                  (1, 1, 30) 1 = Ok box ∧
    box_within (enforce (1, 1, 28) (1, 1, 30) box) (1, 1, 30) ∧
    (∀ c, in_component (Volume (1, 1, 30) [[replicate 14 0 ++ [1; 1] ++ replicate 14 0]]) 1 c →
          inside (enforce (1, 1, 28) (1, 1, 30) box) c) ∧
    shape (crop (Volume (1, 1, 30) [[replicate 30 0%Q]]) (enforce (1, 1, 28) (1, 1, 30) box))
    = box_shape (enforce (1, 1, 28) (1, 1, 30) box) ∧
    Z.min 1 1 ≤ (box_shape (enforce (1, 1, 28) (1, 1, 30) box)).1.1 ∧
    Z.min 1 1 ≤ (box_shape (enforce (1, 1, 28) (1, 1, 30) box)).1.2 ∧
    Z.min 28 30 ≤ (box_shape (enforce (1, 1, 28) (1, 1, 30) box)).2.
Proof.
  apply (positive_patch_box (Volume (1, 1, 30) [[replicate 30 0%Q]])
           (Volume (1, 1, 30) [[replicate 14 0 ++ [1; 1] ++ replicate 14 0]])
           (1, 1, 28) 1).
  - split; [reflexivity|]. repeat constructor.
  - reflexivity.
  - exists (0, 0, 14), 0%nat, 0%nat, 14%nat. split; reflexivity.
Defined.

(** X10: [component_box] raises exactly when no voxel carries the label:
    [c.min()] of an empty coordinate array is a [ValueError]. *)
Theorem component_box_absent (labeled : volume Z) (label_shape : Z * Z * Z) (comp : Z) :
  component_box labeled label_shape comp = Raise ValueError ↔
  ¬ ∃ c, in_component labeled comp c.
Proof.
  split.
  - intros Hraise [c Hc].
    destruct (axis_extent labeled comp (λ c, c.1.1) (ex_intro _ c Hc))
      as (zlo & zhi & Hz1 & Hz2 & _).
    destruct (axis_extent labeled comp (λ c, c.1.2) (ex_intro _ c Hc))
      as (ylo & yhi & Hy1 & Hy2 & _).
    destruct (axis_extent labeled comp (λ c, c.2) (ex_intro _ c Hc))
      as (xlo & xhi & Hx1 & Hx2 & _).
    unfold component_box in Hraise. cbv zeta in Hraise.
    by rewrite Hz1, Hy1, Hx1, Hz2, Hy2, Hx2 in Hraise.
  - intros Hnone. unfold component_box. cbv zeta.
    destruct (where3 (vmap (λ v, v =? comp) labeled)) as [|c cs] eqn:Hcoords; [done|].
    destruct Hnone. exists c. apply component_coords. rewrite Hcoords. left.
Qed.

(** ** The files of one patch *)

Lemma length_append (a b : string) :
  String.length (a +:+ b) = (String.length a + String.length b)%nat.
Proof. induction a as [|c a IH]; [done|]. rewrite append_cons. cbn. by rewrite IH. Qed.

Lemma append_inj_r (a b r : string) : a +:+ r = b +:+ r → a = b.
Proof.
  revert b. induction a as [|c a IH]; intros [|d b] Heq.
  - done.
  - apply (f_equal String.length) in Heq. rewrite append_empty, length_append in Heq.
    cbn in Heq. lia.
  - apply (f_equal String.length) in Heq. rewrite append_empty, length_append in Heq.
    cbn in Heq. lia.
  - rewrite !append_cons in Heq. injection Heq as -> Heq. f_equal. by apply IH.
Qed.

Lemma modality_filename_inj (pid patch_type : string) (patch_idx : Z) (m1 m2 : string) :
  modality_filename pid m1 patch_type patch_idx
  = modality_filename pid m2 patch_type patch_idx → m1 = m2.
Proof.
  unfold modality_filename. intros Heq.
  apply (inj (String.app pid)) in Heq. apply (inj (String.app "_")) in Heq.
  by apply append_inj_r in Heq.
Qed.

(** The paths in [patch_files] are pairwise different exactly when the
    modality names are and none of them is ["label"]. *)
Lemma patch_files_NoDup (pid patch_type : string) (patch_idx : Z)
    (modalities : list (string * volume Q)) (label : volume Q)
    (out_dir : string) (aff : affine) :
  NoDup (patch_files pid patch_type patch_idx modalities label out_dir aff).*1
  ↔ NoDup modalities.*1 ∧ "label" ∉ modalities.*1.
Proof.
  unfold patch_files. rewrite fmap_app. cbn [fmap list_fmap fst].
  set (path := λ m, path_join out_dir (modality_filename pid m patch_type patch_idx)).
  assert (((λ '(modality, data),
              (path_join out_dir (modality_filename pid modality patch_type patch_idx),
               Nifti data aff)) <$> modalities).*1 = path <$> modalities.*1) as ->.
  { rewrite <- !list_fmap_compose. apply list_fmap_ext. by intros _ [m d] _. }
  assert (Inj (=) (=) path) as Hinj.
  { intros m1 m2 Heq. unfold path, path_join in Heq.
    apply (inj (String.app out_dir)) in Heq. apply (inj (String.app "/")) in Heq.
    by apply modality_filename_inj in Heq. }
  assert (path "label" = path_join out_dir (label_filename pid patch_type patch_idx))
    as Hlabel.
  { unfold path. f_equal. }
  rewrite <- Hlabel, NoDup_app, (NoDup_fmap path). split.
  - intros (Hnd & Hdisj & _). split; [done|]. intros Hin.
    apply (Hdisj (path "label")); [by apply list_elem_of_fmap_2|left].
  - intros [Hnd Hnot]. split; [done|]. split; [|apply NoDup_singleton].
    intros p (m & -> & Hm)%list_elem_of_fmap ->%list_elem_of_singleton%(inj path).
    done.
Qed.

(** X11: one [save_patch] call appends one file per modality, in the
    order of the modalities, and then the label file, each under the
    path its name gives in [out_dir] and with the affine. The paths
    are pairwise different exactly when the modality names are pairwise
    different and none of them is ["label"]: a modality called
    ["label"] has the path of the label file, which is written after
    it. *)
Theorem save_patch_paths (pid patch_type : string) (patch_idx : Z)
    (modalities : list (string * volume Q)) (label : volume Q)
    (out_dir : string) (aff : affine) (s : fs) :
  ∃ written,
    save_patch pid patch_type patch_idx modalities label out_dir aff s
    = (s ++ written, Ok ()) ∧
    written.*1
    = ((λ m, path_join out_dir (modality_filename pid m patch_type patch_idx))
         <$> modalities.*1)
      ++ [path_join out_dir (label_filename pid patch_type patch_idx)] ∧
    written.*2 = ((λ data, Nifti data aff) <$> modalities.*2) ++ [Nifti label aff] ∧
    (NoDup written.*1 ↔ NoDup modalities.*1 ∧ "label" ∉ modalities.*1) ∧
    path_join out_dir (modality_filename pid "label" patch_type patch_idx)
    = path_join out_dir (label_filename pid patch_type patch_idx).
Proof.
  exists (patch_files pid patch_type patch_idx modalities label out_dir aff).
  split; [apply save_patch_run|]. split; [|split; [|split]].
  - unfold patch_files. rewrite fmap_app. f_equal.
    rewrite <- !list_fmap_compose. apply list_fmap_ext. by intros _ [m d] _.
  - unfold patch_files. rewrite fmap_app. f_equal.
    rewrite <- !list_fmap_compose. apply list_fmap_ext. by intros _ [m d] _.
  - apply patch_files_NoDup.
  - reflexivity.
Qed.

(** ** Sorting the files of a case *)

Lemma dict_set_spec {V} (k : string) (v : V) (d : list (string * V)) :
  NoDup d.*1 →
  NoDup (dict_set k v d).*1 ∧
  (∀ k' v', (k', v') ∈ dict_set k v d ↔ (k' = k ∧ v' = v) ∨ (k' ≠ k ∧ (k', v') ∈ d)) ∧
  (∀ k', k' ∈ (dict_set k v d).*1 ↔ k' = k ∨ k' ∈ d.*1).
Proof.
  induction d as [|[k0 v0] d IH]; intros Hnd; cbn [dict_set].
  - split; [apply NoDup_singleton|]. split.
    + intros k' v'. rewrite list_elem_of_singleton. split.
      * intros [= -> ->]. by left.
      * intros [[-> ->]|[_ []%elem_of_nil]]. done.
    + intros k'. cbn. rewrite list_elem_of_singleton. split; [by left|].
      by intros [?|[]%elem_of_nil].
  - cbn [fmap list_fmap fst] in Hnd. apply NoDup_cons in Hnd as [Hk0 Hnd].
    destruct (decide (k0 = k)) as [->|Hne].
    + split; [by apply NoDup_cons|]. split.
      * intros k' v'. rewrite !elem_of_cons. split.
        -- intros [[= -> ->]|Hin]; [by left|]. right. split; [|by right].
           intros ->. apply Hk0. by apply (list_elem_of_fmap_2 fst) in Hin.
        -- intros [[-> ->]|[Hk' [[= ? _]|Hin]]]; [by left|done|by right].
      * intros k'. cbn. rewrite !elem_of_cons. tauto.
    + destruct (IH Hnd) as (IH1 & IH2 & IH3). split; [|split].
      * cbn. apply NoDup_cons. split; [|done]. rewrite IH3. tauto.
      * intros k' v'. rewrite !elem_of_cons, IH2. split.
        -- intros [[= -> ->]|[[-> ->]|[Hk' Hin]]]; [right|by left|right]; split;
             try done; [by left|by right].
        -- intros [[-> ->]|[Hk' [[= -> ->]|Hin]]]; [right; by left|by left|].
           right. right. done.
      * intros k'. cbn. rewrite !elem_of_cons, IH3. tauto.
Qed.

(** What the loop over the files has found after any number of files. *)
Lemma discover_spec (case_files : list (string * nifti))
    (modalities_filter : option (list string)) :
  NoDup (discover case_files modalities_filter).1.*1 ∧
  (∀ m img, (m, img) ∈ (discover case_files modalities_filter).1 →
     ∃ name, (name, img) ∈ case_files ∧ m = strip_ext name ∧
             String.prefix "gt" (lower name) = false ∧
             ∀ allowed, modalities_filter = Some allowed → m ∈ allowed) ∧
  (∀ name img, (name, img) ∈ case_files →
     String.prefix "gt" (lower name) = false →
     (∀ allowed, modalities_filter = Some allowed → strip_ext name ∈ allowed) →
     strip_ext name ∈ (discover case_files modalities_filter).1.*1) ∧
  (∀ img, (discover case_files modalities_filter).2 = Some img →
     ∃ name, (name, img) ∈ case_files ∧ String.prefix "gt" (lower name) = true) ∧
  ((discover case_files modalities_filter).2 = None ↔
   ∀ name img, (name, img) ∈ case_files → String.prefix "gt" (lower name) = false).
Proof.
  unfold discover.
  induction case_files as [|[name img] files IH] using rev_ind.
  - cbn. split; [apply NoDup_nil_2|]. split; [by intros ?? ?%elem_of_nil|].
    split; [by intros ?? ?%elem_of_nil|]. split; [done|].
    split; [by intros _ ?? ?%elem_of_nil|done].
  - rewrite foldl_app. cbn [foldl].
    destruct (foldl _ _ files) as [mods gt] eqn:Hfold. cbn [fst snd] in IH.
    destruct IH as (IH1 & IH2 & IH3 & IH4 & IH5).
    destruct (String.prefix "gt" (lower name)) eqn:Hgt.
    + cbn [fst snd]. split; [done|]. split; [|split; [|split; [|split]]].
      * intros m i Hm. destruct (IH2 m i Hm) as (n & Hn & Hrest).
        exists n. split; [|done]. apply elem_of_app. by left.
      * intros n i [Hn|Hn%list_elem_of_singleton]%elem_of_app Hpre Hall.
        -- by apply (IH3 n i).
        -- injection Hn as -> ->. congruence.
      * intros i [= <-]. exists name. split; [|done].
        apply elem_of_app. right. by apply list_elem_of_singleton.
      * done.
      * intros Hall. specialize (Hall name img). rewrite Hgt in Hall.
        discriminate Hall. apply elem_of_app. right. by apply list_elem_of_singleton.
    + assert (∀ (b : bool),
        (if b then (dict_set (strip_ext name) img mods, gt) else (mods, gt)).2 = gt)
        as Hsnd by (by intros []).
      destruct (dict_set_spec (strip_ext name) img mods IH1) as (D1 & D2 & D3).
      set (pass := match modalities_filter with
                   | Some allowed => bool_decide (strip_ext name ∈ allowed)
                   | None => true
                   end).
      assert (pass = true ↔
              ∀ allowed, modalities_filter = Some allowed → strip_ext name ∈ allowed)
        as Hpass.
      { unfold pass. destruct modalities_filter as [allowed|].
        - rewrite bool_decide_eq_true. split; [by intros ? ? [= <-]|eauto].
        - split; [done|done]. }
      split; [|split; [|split; [|split]]].
      * destruct pass; [done|done].
      * intros m i Hm. destruct pass eqn:Hp; cbn [fst] in Hm.
        -- apply D2 in Hm as [[-> ->]|[_ Hm]].
           ++ exists name. split; [apply elem_of_app; right; by apply list_elem_of_singleton|].
              split; [done|]. split; [done|]. by apply Hpass.
           ++ destruct (IH2 m i Hm) as (n & Hn & Hrest).
              exists n. split; [|done]. apply elem_of_app. by left.
        -- destruct (IH2 m i Hm) as (n & Hn & Hrest).
           exists n. split; [|done]. apply elem_of_app. by left.
      * intros n i [Hn|Hn%list_elem_of_singleton]%elem_of_app Hpre Hall.
        -- specialize (IH3 n i Hn Hpre Hall).
           destruct pass; cbn [fst]; [|done]. apply D3. by right.
        -- injection Hn as -> ->. apply Hpass in Hall. rewrite Hall. cbn [fst].
           apply D3. by left.
      * rewrite Hsnd. intros i Hi. destruct (IH4 i Hi) as (n & Hn & Hrest).
        exists n. split; [|done]. apply elem_of_app. by left.
      * rewrite Hsnd, IH5. split.
        -- intros Hall n i [Hn|Hn%list_elem_of_singleton]%elem_of_app; [by eapply Hall|].
           by injection Hn as -> ->.
        -- intros Hall n i Hn. apply (Hall n i). apply elem_of_app. by left.
Qed.

(** X12: the modalities [process_case] finds have pairwise different
    names; each comes from a file whose lower-cased name does not start
    with ["gt"] and, when an allow-list is given, is on it; every such
    file's modality is found; the ground truth comes from a file whose
    lower-cased name starts with ["gt"] and is missing only when there
    is no such file. *)
Theorem discover_sound (case_files : list (string * nifti))
    (modalities_filter : option (list string)) :
  NoDup (discover case_files modalities_filter).1.*1 ∧
  (∀ m img, (m, img) ∈ (discover case_files modalities_filter).1 →
     ∃ name, (name, img) ∈ case_files ∧ m = strip_ext name ∧
             String.prefix "gt" (lower name) = false ∧
             ∀ allowed, modalities_filter = Some allowed → m ∈ allowed) ∧
  (∀ name img, (name, img) ∈ case_files →
     String.prefix "gt" (lower name) = false →
     (∀ allowed, modalities_filter = Some allowed → strip_ext name ∈ allowed) →
     strip_ext name ∈ (discover case_files modalities_filter).1.*1) ∧
  (∀ img, (discover case_files modalities_filter).2 = Some img →
     ∃ name, (name, img) ∈ case_files ∧ String.prefix "gt" (lower name) = true) ∧
  ((discover case_files modalities_filter).2 = None ↔
   ∀ name img, (name, img) ∈ case_files → String.prefix "gt" (lower name) = false).
Proof. apply discover_spec. Qed.

(** ** Skipped cases *)

(** X13: [process_case] takes the early return of lines 103-104, giving
    no counts and with no [nib.save] before it, so that the files written
    so far are the same as before the call, exactly when no file's
    lower-cased name starts with ["gt"] or every other file is kept out
    by the allow-list; in every other case it either raises or returns
    the two counts. (The two output directories exist by then: they are
    made at lines 89-90, before the files of the case are looked at.) *)
Theorem process_case_skip `{Labeller} (pid : string)
    (case_files : list (string * nifti)) (output_dir : string)
    (patch_size stride : Z * Z * Z) (modalities_filter : option (list string))
    (s : fs) :
  ((∀ name img, (name, img) ∈ case_files → String.prefix "gt" (lower name) = false) ∨
   (∀ name img, (name, img) ∈ case_files → String.prefix "gt" (lower name) = false →
      ∃ allowed, modalities_filter = Some allowed ∧ strip_ext name ∉ allowed) →
   process_case pid case_files output_dir patch_size stride modalities_filter s
   = (s, Ok None)) ∧
  ((process_case pid case_files output_dir patch_size stride modalities_filter s).2
   = Ok None →
   (∀ name img, (name, img) ∈ case_files → String.prefix "gt" (lower name) = false) ∨
   (∀ name img, (name, img) ∈ case_files → String.prefix "gt" (lower name) = false →
      ∃ allowed, modalities_filter = Some allowed ∧ strip_ext name ∉ allowed)).
Proof.
  destruct (discover_spec case_files modalities_filter) as (D1 & D2 & D3 & D4 & D5).
  unfold process_case.
  destruct (discover case_files modalities_filter) as [mods gt]. cbn [fst snd] in *.
  split.
  - intros [Hnogt|Hnomod].
    + apply D5 in Hnogt as ->. done.
    + assert (mods = []) as ->; [|by destruct gt].
      destruct mods as [|[m img] mods]; [done|].
      destruct (D2 m img) as (name & Hname & -> & Hpre & Hall); [left|].
      destruct (Hnomod name img Hname Hpre) as (allowed & Hf & Hnot).
      destruct Hnot. by apply Hall.
  - destruct gt as [gt_img|]; [|intros _; left; by apply D5].
    destruct mods as [|[m first_img] mods].
    + intros _. right. intros name img Hname Hpre.
      destruct modalities_filter as [allowed|].
      * exists allowed. split; [done|]. intros Hin.
        specialize (D3 name img Hname Hpre). cbn in D3.
        apply (not_elem_of_nil (strip_ext name)), D3. by intros ? [= <-].
      * specialize (D3 name img Hname Hpre). cbn in D3.
        destruct (not_elem_of_nil (strip_ext name)). by apply D3.
    + unfold mbind at 1, io_bind at 1.
      destruct (for_each _ _ _ s) as [s1 [modalities|e]]; [|done].
      destruct (ndi_label _) as [labeled num].
      unfold mbind at 1, io_bind at 1.
      destruct (positive_loop _ _ _ _ _ _ _ _ s1) as [s2 [pos|e]]; [|done].
      unfold mbind at 1, io_bind at 1.
      destruct (negative_loop _ _ _ _ _ _ _ s2) as [s3 [neg|e]]; done.
Qed.

Lemma process_case_skip_witness :
  process_case (H := λ mask, (vmap (λ _, 0) mask, 0)) "P1"
    [("T1.nii.gz", Nifti (Volume (0, 0, 0) []) []);
     ("b1000.nii.gz", Nifti (Volume (0, 0, 0) []) [])]
    "out" (128, 128, 128) (64, 64, 64) None []
  = ([], Ok None).
Proof.
  apply (process_case_skip (H := λ mask, (vmap (λ _, 0) mask, 0))). left.
  intros name img Hin.
  apply elem_of_cons in Hin as [Hin|Hin]; [by injection Hin as -> _|].
  apply list_elem_of_singleton in Hin. by injection Hin as -> _.
Defined.

(** ** [main] *)

Section main_facts.
Context `{L : Labeller}.

Local Abbreviation by_name :=
  (λ e1 e2 : dir_entry, String.le (entry_name e1) (entry_name e2)).

Lemma by_name_transitive : Transitive by_name.
Proof. intros e1 e2 e3 H12 H23. cbn in *. by etrans. Qed.

Lemma by_name_total : Total by_name.
Proof. intros e1 e2. apply (total String.le). Qed.

Lemma sorted_entries_Sorted (entries : list dir_entry) :
  Sorted by_name (sorted_entries entries).
Proof. apply (Sorted_merge_sort by_name (Total0 := by_name_total)). Qed.

Lemma NoDup_fmap_eq {A B} (f : A → B) (l : list A) (x y : A) :
  NoDup (f <$> l) → x ∈ l → y ∈ l → f x = f y → x = y.
Proof.
  induction l as [|a l IH]; intros Hnd Hx Hy Hf; [by apply elem_of_nil in Hx|].
  cbn in Hnd. apply NoDup_cons in Hnd as [Ha Hnd].
  apply elem_of_cons in Hx as [->|Hx], Hy as [->|Hy]; [done| | |by apply IH].
  - destruct Ha. rewrite Hf. by apply list_elem_of_fmap_2.
  - destruct Ha. rewrite <- Hf. by apply list_elem_of_fmap_2.
Qed.

Lemma sorted_entries_unique (entries1 entries2 : list dir_entry) :
  NoDup (entry_name <$> entries1) → entries1 ≡ₚ entries2 →
  sorted_entries entries1 = sorted_entries entries2.
Proof.
  intros Hnd Hperm.
  apply (Sorted_unique_strong by_name (Transitive0 := by_name_transitive));
    [|apply sorted_entries_Sorted..|].
  - intros e1 e2 He1 He2 H12 H21.
    unfold sorted_entries in He1, He2. rewrite merge_sort_Permutation in He1, He2.
    rewrite <- Hperm in He2.
    apply (NoDup_fmap_eq entry_name entries1); [done..|].
    by apply (anti_symm String.le).
  - unfold sorted_entries. by rewrite !merge_sort_Permutation.
Qed.

(** The loop of [main] passes over what is not a directory. *)
Lemma main_loop_dirs (entries : list dir_entry) (body : dir_entry → io ()) (s : fs) :
  for_each entries (λ (_ : ()) case, if entry_is_dir case then body case else mret ()) () s
  = for_each (filter (λ e, entry_is_dir e = true) entries) (λ (_ : ()) case, body case) () s.
Proof.
  revert s. induction entries as [|e entries IH]; intros s; [done|].
  rewrite filter_cons, for_each_cons.
  destruct (entry_is_dir e) eqn:Hdir.
  - rewrite decide_True by done. rewrite for_each_cons.
    destruct (body e s) as [s' [[]|err]]; [apply IH|done].
  - rewrite decide_False by done. apply IH.
Qed.

Lemma StronglySorted_filter {A} (R : relation A) (P : A → Prop)
    `{∀ x, Decision (P x)} (l : list A) :
  StronglySorted R l → StronglySorted R (filter P l).
Proof.
  induction 1 as [|x l Hl IH Hx]; [constructor|].
  rewrite filter_cons. destruct (decide (P x)); [|done].
  constructor; [done|]. apply Forall_forall. intros y [_ Hy]%list_elem_of_filter.
  by eapply Forall_forall in Hx.
Qed.

Lemma filter_all {A} (P : A → Prop) `{∀ x, Decision (P x)} (l : list A) :
  Forall P l → filter P l = l.
Proof.
  induction 1 as [|x l Hx Hl IH]; [done|].
  by rewrite filter_cons, decide_True, IH.
Qed.

Lemma sorted_entries_dirs (entries : list dir_entry) :
  NoDup (entry_name <$> entries) →
  filter (λ e, entry_is_dir e = true) (sorted_entries entries)
  = sorted_entries (filter (λ e, entry_is_dir e = true) entries).
Proof.
  intros Hnd.
  apply (StronglySorted_unique_strong by_name).
  - intros e1 e2 [_ He1]%list_elem_of_filter He2 H12 H21.
    unfold sorted_entries in He1, He2. rewrite merge_sort_Permutation in He1, He2.
    apply list_elem_of_filter in He2 as [_ He2].
    apply (NoDup_fmap_eq entry_name entries); [done..|].
    by apply (anti_symm String.le).
  - apply StronglySorted_filter.
    apply (Sorted_StronglySorted by_name (Transitive0 := by_name_transitive)),
      sorted_entries_Sorted.
  - apply (Sorted_StronglySorted by_name (Transitive0 := by_name_transitive)),
      sorted_entries_Sorted.
  - unfold sorted_entries. by rewrite !merge_sort_Permutation.
Qed.

End main_facts.

(** X14: [main] does not depend on the order in which the directory is
    listed: entries with pairwise different names are always taken in
    the order of their names. *)
Theorem main_listing_order `{Labeller} (entries1 entries2 : list dir_entry)
    (output_dir : string) (a : cli_args) (s : fs) :
  NoDup (entry_name <$> entries1) → entries1 ≡ₚ entries2 →
  main entries1 output_dir a s = main entries2 output_dir a s.
Proof.
  intros Hnd Hperm. unfold main. by rewrite (sorted_entries_unique _ _ Hnd Hperm).
Qed.

Lemma main_listing_order_witness :
  main (H := λ mask, (vmap (λ _, 0) mask, 0))
    [DirEntry "P2" true []; DirEntry "P1" true []; DirEntry "notes.txt" false []]
    "out" (CliArgs (128, 128, 128) None None) []
  = main (H := λ mask, (vmap (λ _, 0) mask, 0))
    [DirEntry "P1" true []; DirEntry "P2" true []; DirEntry "notes.txt" false []]
    "out" (CliArgs (128, 128, 128) None None) [].
Proof.
  apply (main_listing_order (H := λ mask, (vmap (λ _, 0) mask, 0))).
  - cbn [fmap list_fmap entry_name]. repeat (apply NoDup_cons; split).
    + intros Hin. repeat (apply elem_of_cons in Hin as [Hin|Hin]; [discriminate Hin|]).
      by apply elem_of_nil in Hin.
    + intros Hin. repeat (apply elem_of_cons in Hin as [Hin|Hin]; [discriminate Hin|]).
      by apply elem_of_nil in Hin.
    + intros Hin. by apply elem_of_nil in Hin.
    + apply NoDup_nil_2.
  - apply perm_swap.
Defined.

(** X15: entries of [input_dir] that are not directories change nothing:
    [main] does what it does on the directories alone. *)
Theorem main_ignores_files `{Labeller} (entries : list dir_entry)
    (output_dir : string) (a : cli_args) (s : fs) :
  NoDup (entry_name <$> entries) →
  main entries output_dir a s
  = main (filter (λ e, entry_is_dir e = true) entries) output_dir a s.
Proof.
  intros Hnd. unfold main. cbv zeta.
  rewrite !(main_loop_dirs _
    (λ case, _ ← process_case (entry_name case) (entry_files case) output_dir
               (cli_patch_size a)
               match cli_stride a with
               | Some stride => stride
               | None => default_stride (cli_patch_size a)
               end (cli_modalities a); mret ())).
  rewrite (sorted_entries_dirs entries Hnd). f_equal.
  symmetry. apply filter_all, Forall_forall. intros e He.
  unfold sorted_entries in He. rewrite merge_sort_Permutation in He.
  by apply list_elem_of_filter in He as [? _].
Qed.

Lemma main_ignores_files_witness :
  main (H := λ mask, (vmap (λ _, 0) mask, 0))
    [DirEntry "P2" true []; DirEntry "notes.txt" false []; DirEntry "P1" true []]
    "out" (CliArgs (128, 128, 128) None None) []
  = main (H := λ mask, (vmap (λ _, 0) mask, 0))
    (filter (λ e, entry_is_dir e = true)
       [DirEntry "P2" true []; DirEntry "notes.txt" false []; DirEntry "P1" true []])
    "out" (CliArgs (128, 128, 128) None None) [].
Proof.
  apply (main_ignores_files (H := λ mask, (vmap (λ _, 0) mask, 0))).
  cbn [fmap list_fmap entry_name]. repeat (apply NoDup_cons; split).
  - intros Hin. repeat (apply elem_of_cons in Hin as [Hin|Hin]; [discriminate Hin|]).
    by apply elem_of_nil in Hin.
  - intros Hin. repeat (apply elem_of_cons in Hin as [Hin|Hin]; [discriminate Hin|]).
    by apply elem_of_nil in Hin.
  - intros Hin. by apply elem_of_nil in Hin.
  - apply NoDup_nil_2.
Defined.

(** ** The folds of [train_validate_dicts] *)

(** The lengths of the chunks of line 56: every chunk but the last has
    [c] elements, the last one between 1 and [c]. *)
Lemma chunk_lengths {A} (l : list A) (c : Z) (i : nat) (chunk : list A) :
  1 ≤ c →
  let n := Z.of_nat (length l) in
  ((λ i, slice i (i + c) l) <$> ((λ i, 0 + i * c) <$> seqZ 0 (chunk_count n c))) !! i
    = Some chunk →
  Z.of_nat i < chunk_count n c ∧
  (Z.of_nat i + 1 < chunk_count n c → Z.of_nat (length chunk) = c) ∧
  1 ≤ Z.of_nat (length chunk) ≤ c.
Proof.
  intros Hc n. rewrite !list_lookup_fmap.
  destruct (seqZ 0 (chunk_count n c) !! i) as [j|] eqn:Hj; [|done].
  apply lookup_seqZ in Hj as [-> Hi]. cbn [fmap option_fmap option_map].
  intros [= <-]. rewrite length_slice. fold n.
  unfold chunk_count in *. destruct (Z.ltb_spec 0 n) as [Hn|Hn]; [|lia].
  pose proof (Z.mul_div_le (n - 1) c ltac:(lia)) as Hle.
  pose proof (Z.mul_succ_div_gt (n - 1) c ltac:(lia)) as Hgt.
  assert (0 ≤ (n - 1) / c) by (apply Z.div_pos; lia).
  split; [lia|].
  unfold slice_len, slice_bound.
  destruct (Z.ltb_spec (0 + (0 + Z.of_nat i) * c) 0); [nia|].
  destruct (Z.ltb_spec (0 + (0 + Z.of_nat i) * c + c) 0); [nia|].
  split; [intros Hlt|]; nia.
Qed.

Lemma make_folds_fold_lengths {A} (l : list A) (max_splits : Z)
    (folds : list (list A)) (i : nat) (fold : list A) :
  make_folds l max_splits = Ok folds → folds !! i = Some fold →
  let c := Z.max 1 (Z.of_nat (length l) / max_splits) in
  (S i < length folds → Z.of_nat (length fold) = c)%nat ∧
  1 ≤ Z.of_nat (length fold) ≤ 2 * c.
Proof.
  destruct (decide (max_splits = 0)) as [->|Hms]; [done|].
  destruct (make_folds_unfold l max_splits Hms) as (-> & _ & Hlen).
  cbv zeta in *.
  set (n := Z.of_nat (length l)) in *. set (c := Z.max 1 (n / max_splits)) in *.
  match type of Hlen with context [length ?x] => set (chunks := x) in * end.
  assert (∀ j chunk, chunks !! j = Some chunk →
            (Z.of_nat j + 1 < Z.of_nat (length chunks) → Z.of_nat (length chunk) = c) ∧
            1 ≤ Z.of_nat (length chunk) ≤ c) as Hchunks.
  { intros j chunk Hj. rewrite Hlen. by apply (chunk_lengths l c j chunk); [lia|]. }
  clearbody chunks. clear Hlen.
  destruct (Z.ltb_spec max_splits (Z.of_nat (length chunks))) as [Hlt|Hge].
  - intros Hm Hi. destruct (Nat.lt_ge_cases (length chunks) 2) as [Hshort|Hlong];
      [by rewrite merge_tail_short in Hm|].
    destruct (snoc2_decompose chunks Hlong) as (init & a & b & ->).
    rewrite merge_tail_snoc2 in Hm. injection Hm as <-.
    rewrite length_app in *. cbn [length] in *.
    destruct (decide (i < length init)%nat) as [Hin|Hout].
    + rewrite lookup_app_l in Hi by done.
      destruct (Hchunks i fold) as [Hfull _]; [by rewrite lookup_app_l|].
      split; [intros _|]; lia.
    + rewrite lookup_app_r in Hi by lia.
      destruct (i - length init)%nat as [|k] eqn:Hk; [|done].
      injection Hi as <-.
      destruct (Hchunks (length init) a) as [Ha _].
      { by rewrite list_lookup_middle. }
      destruct (Hchunks (S (length init)) b) as [_ Hb].
      { rewrite lookup_app_r by lia.
        by replace (S (length init) - length init)%nat with 1%nat by lia. }
      rewrite length_app. split; [lia|]. lia.
  - intros [= <-] Hi. destruct (Hchunks i fold Hi) as [Hfull Hbound].
    split; [intros ?; apply Hfull|]; lia.
Qed.

(** X16: the sizes of the folds: with [c = max(1, N // max_splits)],
    every fold but the last holds exactly [c] patients, and the last
    one, merged or not, between 1 and [2 c]. *)
Theorem make_folds_sizes {A} (l : list A) (max_splits : Z)
    (folds : list (list A)) (i : nat) (fold : list A) :
  make_folds l max_splits = Ok folds → folds !! i = Some fold →
  ((S i < length folds)%nat →
   Z.of_nat (length fold) = Z.max 1 (Z.of_nat (length l) / max_splits)) ∧
  1 ≤ Z.of_nat (length fold) ≤ 2 * Z.max 1 (Z.of_nat (length l) / max_splits).
Proof. apply make_folds_fold_lengths. Qed.

Lemma make_folds_sizes_witness :
  ((2 < length [["p1"; "p2"]; ["p3"; "p4"]; ["p5"; "p6"; "p7"]])%nat →
   Z.of_nat (length ["p3"; "p4"])
   = Z.max 1 (Z.of_nat (length ["p1"; "p2"; "p3"; "p4"; "p5"; "p6"; "p7"]) / 3)) ∧
  1 ≤ Z.of_nat (length ["p3"; "p4"])
    ≤ 2 * Z.max 1 (Z.of_nat (length ["p1"; "p2"; "p3"; "p4"; "p5"; "p6"; "p7"]) / 3).
Proof.
  apply (make_folds_sizes ["p1"; "p2"; "p3"; "p4"; "p5"; "p6"; "p7"] 3
           [["p1"; "p2"]; ["p3"; "p4"]; ["p5"; "p6"; "p7"]] 1 ["p3"; "p4"]);
    reflexivity.
Defined.

(** X17: how many folds there are. A corpus of at most [max_splits]
    patients gives one fold per patient. A larger one never gives fewer
    than [max_splits] folds, and gives exactly [max_splits] just when
    [N mod max_splits ≤ N // max_splits]. *)
Theorem make_folds_count {A} (l : list A) (max_splits : Z) (folds : list (list A)) :
  1 ≤ max_splits → make_folds l max_splits = Ok folds →
  let n := Z.of_nat (length l) in
  (n ≤ max_splits → Z.of_nat (length folds) = n) ∧
  (max_splits ≤ n →
   max_splits ≤ Z.of_nat (length folds) ∧
   (Z.of_nat (length folds) = max_splits ↔ n mod max_splits ≤ n / max_splits)).
Proof.
  intros Hms Hfolds n. rewrite (make_folds_length _ _ _ Hfolds). fold n.
  unfold chunk_count. split.
  - intros Hn. destruct (Z.ltb_spec 0 n) as [Hpos|Hzero].
    + assert (Z.max 1 (n / max_splits) = 1) as ->.
      { destruct (Z.eq_dec n max_splits) as [->|Hne].
        - rewrite Z.div_same by lia. lia.
        - rewrite Z.div_small by lia. lia. }
      rewrite Z.div_1_r. destruct (Z.ltb_spec max_splits (n - 1 + 1)); lia.
    + destruct (Z.ltb_spec max_splits 0); lia.
  - intros Hn. destruct (Z.ltb_spec 0 n) as [_|]; [|lia].
    pose proof (Z.div_mod n max_splits ltac:(lia)) as Hdm.
    pose proof (Z.mod_pos_bound n max_splits ltac:(lia)) as Hr.
    assert (1 ≤ n / max_splits) as Hq.
    { apply Z.div_le_lower_bound; lia. }
    set (q := n / max_splits) in *. set (r := n mod max_splits) in *.
    rewrite Z.max_r by lia.
    destruct (Z.eq_dec r 0) as [Hr0|Hr0].
    + assert ((n - 1) / q = max_splits - 1) as ->.
      { symmetry. apply (Z.div_unique _ _ _ (q - 1)); [lia|nia]. }
      destruct (Z.ltb_spec max_splits (max_splits - 1 + 1)); lia.
    + destruct (Z.le_gt_cases r q) as [Hle|Hgt].
      * assert ((n - 1) / q = max_splits) as ->.
        { symmetry. apply (Z.div_unique _ _ _ (r - 1)); [lia|nia]. }
        destruct (Z.ltb_spec max_splits (max_splits + 1)); lia.
      * assert (max_splits + 1 ≤ (n - 1) / q) as Hk.
        { apply Z.div_le_lower_bound; [lia|nia]. }
        destruct (Z.ltb_spec max_splits ((n - 1) / q + 1)); lia.
Qed.

Lemma make_folds_count_witness :
  (20 ≤ 7 → Z.of_nat (length [[1; 2]; [3; 4]; [5; 6]; [7; 8]; [9; 10]; [11; 12];
                               [13; 14]; [15; 16]; [17; 18; 19; 20]]) = 20) ∧
  (7 ≤ 20 →
   7 ≤ Z.of_nat (length [[1; 2]; [3; 4]; [5; 6]; [7; 8]; [9; 10]; [11; 12];
                         [13; 14]; [15; 16]; [17; 18; 19; 20]]) ∧
   (Z.of_nat (length [[1; 2]; [3; 4]; [5; 6]; [7; 8]; [9; 10]; [11; 12];
                      [13; 14]; [15; 16]; [17; 18; 19; 20]]) = 7 ↔ 20 mod 7 ≤ 20 / 7)).
Proof.
  apply (make_folds_count (seqZ 1 20) 7
           [[1; 2]; [3; 4]; [5; 6]; [7; 8]; [9; 10]; [11; 12];
            [13; 14]; [15; 16]; [17; 18; 19; 20]]); [lia|reflexivity].
Defined.

(** X18: [split] counts folds from 1 and wraps around: [split = i + 1],
    plus any multiple of the number of folds, validates on fold [i] and
    trains on the other folds, in their order. *)
Theorem select_fold_wraps {A} (folds : list (list A)) (i : nat) (fold : list A)
    (k : Z) :
  folds !! i = Some fold →
  select_fold folds (Z.of_nat i + 1 + k * Z.of_nat (length folds))
  = Ok (concat (take i folds ++ drop (S i) folds), fold).
Proof.
  intros Hi. pose proof (lookup_lt_Some _ _ _ Hi) as Hlt.
  unfold select_fold, modulo, item, item_pos.
  destruct (Z.eqb_spec (Z.of_nat (length folds)) 0) as [|_]; [lia|].
  cbn [mbind result_bind].
  replace (Z.of_nat i + 1 + k * Z.of_nat (length folds) - 1)
    with (Z.of_nat i + k * Z.of_nat (length folds)) by lia.
  rewrite Z_mod_plus_full, Z.mod_small by lia.
  destruct (Z.ltb_spec (Z.of_nat i) 0); [lia|].
  destruct (Z.leb_spec 0 (Z.of_nat i)); [|lia].
  destruct (Z.ltb_spec (Z.of_nat i) (Z.of_nat (length folds))); [|lia].
  cbn [andb mbind result_bind]. rewrite Nat2Z.id, Hi. cbn [mbind result_bind].
  destruct (imap_skip_one folds i (λ j, Z.of_nat j = Z.of_nat i)) as [->|Hge].
  - intros j. lia.
  - by rewrite !concat_app.
  - lia.
Qed.

Lemma select_fold_wraps_witness :
  select_fold [["a"]; ["b"]; ["c"; "d"]] (Z.of_nat 2 + 1 + -1 * Z.of_nat 3)
  = Ok (concat (take 2 [["a"]; ["b"]; ["c"; "d"]] ++ drop 3 [["a"]; ["b"]; ["c"; "d"]]),
        ["c"; "d"]).
Proof. apply (select_fold_wraps [["a"]; ["b"]; ["c"; "d"]] 2 ["c"; "d"] (-1)). reflexivity. Defined.

(** X19: a corpus without a single patient ID never yields a partition:
    the call raises, in [N // max_splits] for [max_splits = 0], in
    [folds[-2]] for a negative [max_splits], and otherwise in the
    modulus by [len(folds) = 0]. *)
Theorem train_validate_empty_corpus `{G : BitGenerator} (g : rng_state)
    (lesion_files background_files : list string) (a : args) :
  (∀ p, ¬ corpus_id (lesion_files ++ background_files) p) →
  train_validate_dicts g lesion_files background_files a
  = Raise (if default 7 (max_splits a) <? 0 then IndexError else ZeroDivisionError).
Proof.
  intros Hempty.
  destruct (collect_patient_ids_spec (lesion_files ++ background_files)) as [_ Hin].
  unfold train_validate_dicts.
  destruct (collect_patient_ids (lesion_files ++ background_files)) as [|p ids].
  - change (merge_sort String.le []) with (@nil string).
    change (shuffle (rng_seed 42) (@nil string)) with (Ok (@nil string, rng_seed 42)).
    cbn [mbind result_bind]. unfold make_folds, floordiv. cbn [length Z.of_nat].
    destruct (Z.eqb_spec (default 7 (max_splits a)) 0) as [->|Hms]; [done|].
    cbn [mbind result_bind]. rewrite Z.div_0_l by done.
    change (range 0 (Z.of_nat 0) (Z.max 1 0)) with (Ok (@nil Z)).
    cbn [mbind result_bind fmap list_fmap length]. change (Z.of_nat 0) with 0.
    destruct (Z.ltb_spec (default 7 (max_splits a)) 0); reflexivity.
  - destruct (Hempty p). apply Hin. left.
Qed.

Lemma train_validate_empty_corpus_witness :
  train_validate_dicts (G:=lcg) 5%N
    ["out/lesion_patches/P1_label_positive_0000.nii.gz"] ["out/background_patches/notes.nii"]
    {| split_ := 1; max_splits := None |}
  = Raise (if default 7 None <? 0 then IndexError else ZeroDivisionError).
Proof.
  apply (train_validate_empty_corpus (G:=lcg)).
  intros p (f & Hf & Hp).
  repeat (apply elem_of_cons in Hf as [->|Hf]; [by vm_compute in Hp|]).
  by apply elem_of_nil in Hf.
Defined.

(** X20: the validation list of a returning call is never empty, and
    holds at most [2 max(1, N // max_splits)] of the [N] patients. *)
Theorem train_validate_val_size `{G : BitGenerator} (g : rng_state)
    (lesion_files background_files : list string) (a : args)
    (train val : list string) (g' : rng_state) :
  train_validate_dicts g lesion_files background_files a = Ok (train, val, g') →
  1 ≤ Z.of_nat (length val)
    ≤ 2 * Z.max 1 (Z.of_nat (length (train ++ val)) / default 7 (max_splits a)).
Proof.
  unfold train_validate_dicts.
  destruct (shuffle (rng_seed 42) _) as [[shuffled g1]|] eqn:Hsh; [|done].
  cbn [mbind result_bind].
  destruct (make_folds shuffled _) as [folds|] eqn:Hfolds; [|done].
  cbn [mbind result_bind].
  destruct (select_fold folds (split_ a)) as [[train' val']|] eqn:Hsel; [|done].
  cbn [mbind result_bind]. intros [= <- <- <-].
  apply select_fold_Permutation in Hsel as [Hval Hsel].
  apply list_elem_of_lookup in Hval as [i Hi].
  destruct (make_folds_fold_lengths _ _ _ _ _ Hfolds Hi) as [_ Hbound].
  apply make_folds_concat in Hfolds. by rewrite Hsel, Hfolds.
Qed.

Lemma train_validate_val_size_witness :
  ∃ train val g',
    train_validate_dicts (G:=lcg) 0%N
      ["P1_T1_positive_0000.nii.gz"; "P2_T1_positive_0000.nii.gz"]
      ["P3_T1_negative_0000.nii.gz"] {| split_ := 2; max_splits := Some 2 |}
    = Ok (train, val, g') ∧
    1 ≤ Z.of_nat (length val) ≤ 2 * Z.max 1 (Z.of_nat (length (train ++ val)) / 2).
Proof.
  destruct (train_validate_dicts (G:=lcg) 0%N
      ["P1_T1_positive_0000.nii.gz"; "P2_T1_positive_0000.nii.gz"]
      ["P3_T1_negative_0000.nii.gz"] {| split_ := 2; max_splits := Some 2 |})
    as [[[train val] g']|] eqn:Hrun; [|by vm_compute in Hrun].
  exists train, val, g'. split; [done|].
  exact (train_validate_val_size (G:=lcg) _ _ _ _ _ _ _ Hrun).
Defined.

(** ** Patch indices in file names *)

Lemma zeros_value (k : nat) (s : string) :
  N.of_uint <$> NilEmpty.uint_of_string (zeros k +:+ s)
  = N.of_uint <$> NilEmpty.uint_of_string s.
Proof.
  induction k as [|k IH]; [done|]. cbn [zeros]. rewrite append_cons.
  cbn [NilEmpty.uint_of_string]. rewrite <- IH.
  by destruct (NilEmpty.uint_of_string (zeros k +:+ s)).
Qed.

(** Reading [f"{n:04d}"] back as a number gives [n]. *)
Lemma format_04d_value (n : Z) :
  0 ≤ n → N.of_uint <$> NilEmpty.uint_of_string (format_04d n) = Some (Z.to_N n).
Proof.
  intros Hn. unfold format_04d. destruct (Z.ltb_spec n 0); [lia|].
  rewrite zeros_value. replace (Z.abs_N n) with (Z.to_N n) by lia.
  pose proof (DecimalN.Unsigned.of_to (Z.to_N n)) as Hof.
  destruct (N.to_uint (Z.to_N n)) as [|d|d|d|d|d|d|d|d|d|d] eqn:Hd;
    [by rewrite <- Hof|..];
    cbn [NilZero.string_of_uint]; by rewrite NilEmpty.usu, <- Hof.
Qed.

Lemma format_04d_inj (i j : Z) : 0 ≤ i → 0 ≤ j → format_04d i = format_04d j → i = j.
Proof.
  intros Hi Hj Heq. pose proof (format_04d_value i Hi) as Hvi.
  rewrite Heq, format_04d_value in Hvi by done. injection Hvi. lia.
Qed.

(** A file name tells the modality and the patch index apart. *)
Lemma modality_filename_inj_idx (pid patch_type m1 m2 : string) (i j : Z) :
  0 ≤ i → 0 ≤ j →
  modality_filename pid m1 patch_type i = modality_filename pid m2 patch_type j →
  m1 = m2 ∧ i = j.
Proof.
  intros Hi Hj Heq. unfold modality_filename in Heq.
  apply (inj (String.app pid)) in Heq. apply (inj (String.app "_")) in Heq.
  rewrite !(append_cons "_" EmptyString), !append_empty in Heq.
  apply (f_equal (split "_")) in Heq. rewrite !split_app in Heq.
  rewrite !(split_lacks "_" (format_04d _ +:+ _)) in Heq
    by (by rewrite contains_char_app, format_04d_lacks).
  rewrite !app_assoc in Heq. apply app_inj_tail in Heq as [Heq Htail].
  apply app_inv_tail in Heq. apply append_inj_r, format_04d_inj in Htail; [|done..].
  split; [|done].
  by rewrite <- (join_split "_" m1), <- (join_split "_" m2), Heq.
Qed.

Section patch_paths.
Context (pid patch_type out_dir : string) (aff : affine).

Local Abbreviation path i :=
  (λ m, path_join out_dir (modality_filename pid m patch_type i)).

Lemma patch_files_fst (i : Z) (modalities : list (string * volume Q))
    (label : volume Q) :
  (patch_files pid patch_type i modalities label out_dir aff).*1
  = path i <$> (modalities.*1 ++ ["label"]).
Proof.
  unfold patch_files. rewrite !fmap_app. f_equal.
  rewrite <- !list_fmap_compose. apply list_fmap_ext. by intros _ [m d] _.
Qed.

Lemma patch_path_inj (m1 m2 : string) (i j : Z) :
  0 ≤ i → 0 ≤ j → path i m1 = path j m2 → m1 = m2 ∧ i = j.
Proof.
  intros Hi Hj Heq. unfold path_join in Heq.
  apply (inj (String.app out_dir)) in Heq. apply (inj (String.app "/")) in Heq.
  by apply modality_filename_inj_idx in Heq.
Qed.

(** The files of consecutive [save_patch] calls over the same
    modalities: no path comes twice. *)
Lemma patch_groups_paths (names : list string)
    (groups : list (list (string * volume Q) * volume Q)) (n0 : Z) :
  0 ≤ n0 → NoDup names → "label" ∉ names →
  Forall (λ g, g.1.*1 = names) groups →
  let written :=
    concat (imap (λ i g, patch_files pid patch_type (n0 + Z.of_nat i) g.1 g.2 out_dir aff)
                 groups) in
  NoDup written.*1 ∧
  length written = (length groups * (length names + 1))%nat ∧
  ∀ p, p ∈ written.*1 → ∃ m i, n0 ≤ i ∧ p = path i m.
Proof.
  intros Hn0 Hnd Hlabel Hgroups. revert n0 Hn0.
  induction Hgroups as [|[mods label] groups Hg _ IH]; intros n0 Hn0.
  - cbn. split; [apply NoDup_nil_2|]. split; [done|]. by intros p ?%elem_of_nil.
  - cbn [fst snd] in Hg. rewrite imap_cons. cbn [concat fst snd].
    rewrite (imap_ext _ (λ i g, patch_files pid patch_type (n0 + 1 + Z.of_nat i)
                                  g.1 g.2 out_dir aff)).
    2:{ intros i g _. unfold compose. f_equal. lia. }
    destruct (IH (n0 + 1) ltac:(lia)) as (IHnd & IHlen & IHin).
    rewrite fmap_app, length_app, IHlen, patch_files_fst, Hg, Z.add_0_r.
    assert (NoDup (names ++ ["label"])) as Hnames.
    { apply NoDup_app. split; [done|]. split; [|apply NoDup_singleton].
      by intros m Hm ->%list_elem_of_singleton. }
    split; [|split].
    + apply NoDup_app. split; [|split; [|done]].
      * apply NoDup_fmap_2_strong; [|done].
        intros m1 m2 _ _ Heq. by apply patch_path_inj in Heq as [? _].
      * intros p (m & -> & _)%list_elem_of_fmap (m' & i & Hi & Heq)%IHin.
        apply patch_path_inj in Heq as [_ ?]; lia.
    + unfold patch_files. rewrite length_app, !length_fmap.
      rewrite <- Hg, length_fmap. cbn [length]. lia.
    + intros p [(m & -> & _)%list_elem_of_fmap|(m & i & Hi & ->)%IHin]%elem_of_app.
      * exists m, n0. split; [lia|done].
      * exists m, i. split; [lia|done].
Qed.

End patch_paths.

(** ** The files of a processed case *)

Lemma dict_set_fresh {V} (k : string) (v : V) (d : list (string * V)) :
  k ∉ d.*1 → dict_set k v d = d ++ [(k, v)].
Proof.
  induction d as [|[k' v'] d IH]; intros Hk; [done|]. cbn [dict_set].
  cbn [fmap list_fmap fst] in Hk. apply not_elem_of_cons in Hk as [Hne Hk].
  destruct (decide (k' = k)); [congruence|]. by rewrite IH.
Qed.

(** Lines 106-113: the normalised modalities keep the names and the
    order of [modality_paths]; the loop writes nothing. *)
Lemma normalise_loop (l : list (string * nifti)) (acc r : list (string * volume Q))
    (s s' : fs) :
  for_each l
    (λ modalities '(modality, img),
       data ← lift (normalize_volume (get_fdata img));
       mret (dict_set modality data modalities))
    acc s = (s', Ok r) →
  NoDup (acc.*1 ++ l.*1) → s' = s ∧ r.*1 = acc.*1 ++ l.*1.
Proof.
  revert acc. induction l as [|[m img] l IH]; intros acc.
  - intros [= <- <-] _. by rewrite app_nil_r.
  - rewrite for_each_cons. unfold mbind at 1, io_bind at 1, lift at 1.
    destruct (normalize_volume (get_fdata img)) as [data|e]; [|done].
    unfold mret at 1, io_ret at 1.
    cbn [fmap list_fmap fst]. intros Hrun Hnd.
    assert (m ∉ acc.*1) as Hfresh.
    { apply NoDup_app in Hnd as (_ & Hdisj & _). intros Hin.
      apply (Hdisj m Hin). left. }
    rewrite dict_set_fresh in Hrun by done.
    apply IH in Hrun as [-> ->].
    + split; [done|]. rewrite fmap_app. cbn. by rewrite <- app_assoc.
    + rewrite fmap_app. cbn. by rewrite <- app_assoc.
Qed.

Lemma crop_all_fst (modalities : list (string * volume Q))
    (box : (Z * Z) * (Z * Z) * (Z * Z)) :
  (crop_all modalities box).*1 = modalities.*1.
Proof.
  unfold crop_all. rewrite <- list_fmap_compose. apply list_fmap_ext.
  by intros _ [m img] _.
Qed.

Section written_files.
Context (pid : string) (modalities : list (string * volume Q)) (label : volume Q).
Context (patch_size stride : Z * Z * Z) (aff : affine).

Local Abbreviation patches_written := (patches_written pid modalities aff).

Lemma patches_written_step (patch_type out_dir : string) (n0 : Z) (s s' : fs) (n : Z)
    (g : list (string * volume Q) * volume Q) :
  g.1.*1 = modalities.*1 →
  patches_written patch_type out_dir (n0 + 1)
    (s ++ patch_files pid patch_type n0 g.1 g.2 out_dir aff) s' n →
  patches_written patch_type out_dir n0 s s' n.
Proof.
  intros Hg (groups & Hgroups & -> & ->). exists (g :: groups).
  split; [by constructor|]. rewrite imap_cons. cbn [concat length].
  rewrite <- app_assoc, Z.add_0_r. split; [|lia]. do 3 f_equal.
  apply imap_ext. intros i g' _. unfold compose. f_equal. lia.
Qed.

Lemma positive_written (lesion_dir : string) (labeled : volume Z) (ks : list Z)
    (n0 : Z) (s s' : fs) (n : Z) :
  for_each ks
    (λ pos_idx comp,
       box ← lift (component_box labeled (shape label) comp);
       save_positive pid modalities label patch_size aff lesion_dir box pos_idx)
    n0 s = (s', Ok n) →
  patches_written "positive" lesion_dir n0 s s' n.
Proof.
  revert n0 s. induction ks as [|k ks IH]; intros n0 s.
  - intros [= <- <-]. exists []. cbn. by rewrite app_nil_r, Z.add_0_r.
  - rewrite for_each_cons. unfold mbind at 1, io_bind at 1, lift at 1.
    destruct (component_box labeled (shape label) k) as [box|e]; [|done].
    rewrite save_positive_run. intros Hrun%IH.
    by apply (patches_written_step _ _ _ _ _ _
                (crop_all modalities (enforce patch_size (shape label) box),
                 crop label (enforce patch_size (shape label) box)));
      [apply crop_all_fst|].
Qed.

Lemma negative_written (background_dir : string) (ws : list (Z * Z * Z))
    (n0 : Z) (s s' : fs) (n : Z) :
  for_each ws (negative_window pid modalities label patch_size aff background_dir) n0 s
  = (s', Ok n) →
  patches_written "negative" background_dir n0 s s' n.
Proof.
  revert n0 s. induction ws as [|[[z y] x] ws IH]; intros n0 s.
  - intros [= <- <-]. exists []. cbn. by rewrite app_nil_r, Z.add_0_r.
  - rewrite for_each_cons. unfold negative_window at 1.
    destruct (existsb _ _); [apply IH|].
    unfold mbind at 1, io_bind at 1. rewrite save_patch_run.
    unfold mret at 1, io_ret at 1. intros Hrun%IH.
    by apply (patches_written_step _ _ _ _ _ _
                (crop_all modalities (window_box patch_size (z, y, x)),
                 crop label (window_box patch_size (z, y, x))));
      [apply crop_all_fst|].
Qed.

Lemma negative_loop_flat (background_dir : string) (zs ys xs : list Z) (s : fs) :
  generate_indices (shape label).1.1 patch_size.1.1 stride.1.1 = Ok zs →
  generate_indices (shape label).1.2 patch_size.1.2 stride.1.2 = Ok ys →
  generate_indices (shape label).2 patch_size.2 stride.2 = Ok xs →
  negative_loop pid modalities label patch_size stride aff background_dir s
  = for_each (candidates zs ys xs)
      (negative_window pid modalities label patch_size aff background_dir) 0 s.
Proof.
  intros Hzs Hys Hxs. unfold negative_loop. rewrite Hzs, Hys, Hxs. unfold lift.
  unfold mbind at 1 2 3. unfold io_bind.
  erewrite for_each_ext; [|intros acc z s'].
  2:{ erewrite for_each_ext; [|intros acc' y s''].
      2:{ erewrite (for_each_ext xs); [|intros acc'' x s3].
          2:{ symmetry. apply (for_each_singleton (z, y, x)). }
          apply (for_each_nested xs (λ x, [(z, y, x)])). }
      apply (for_each_nested ys (λ y, x ← xs; [(z, y, x)])). }
  by rewrite (for_each_nested zs (λ z, y ← ys; x ← xs; [(z, y, x)])).
Qed.

End written_files.

Lemma append_assoc (a b c : string) : (a +:+ b) +:+ c = a +:+ (b +:+ c).
Proof.
  induction a as [|x a IH]; [done|]. by rewrite !append_cons, IH.
Qed.

(** Lesion patches and background patches go to different paths. *)
Lemma patch_dirs_apart (output_dir name1 name2 : string) :
  path_join (path_join output_dir "lesion_patches") name1
  ≠ path_join (path_join output_dir "background_patches") name2.
Proof.
  unfold path_join. rewrite !append_assoc. intros Heq.
  apply (inj (String.app output_dir)) in Heq. discriminate Heq.
Qed.

(** X21: a case that [process_case] processes to the end leaves
    [(pos_idx + neg_idx) (k + 1)] new files behind, [k] the number of
    modalities, and, when no modality is called ["label"], no two of
    them under the same path; what was written before is still there. *)
Theorem process_case_files `{Labeller} (pid : string)
    (case_files : list (string * nifti)) (output_dir : string)
    (patch_size stride : Z * Z * Z) (modalities_filter : option (list string))
    (s s' : fs) (pos neg : Z) :
  process_case pid case_files output_dir patch_size stride modalities_filter s
  = (s', Ok (Some (pos, neg))) →
  "label" ∉ (discover case_files modalities_filter).1.*1 →
  ∃ written,
    s' = s ++ written ∧ NoDup written.*1 ∧ 0 ≤ pos ∧ 0 ≤ neg ∧
    Z.of_nat (length written)
    = (pos + neg) * (Z.of_nat (length (discover case_files modalities_filter).1) + 1).
Proof.
  intros Hrun Hlabel.
  destruct (discover_spec case_files modalities_filter) as (Hnd & _).
  unfold process_case in Hrun.
  destruct (discover case_files modalities_filter) as [mods gt]. cbn [fst snd] in *.
  destruct gt as [gt_img|]; [|by destruct mods].
  destruct mods as [|[m first_img] mods]; [done|].
  unfold mbind at 1, io_bind at 1 in Hrun.
  destruct (for_each _ _ [] s) as [s1 [modalities|e]] eqn:Hnorm; [|done].
  apply normalise_loop in Hnorm as [-> Hnames]; [|done].
  change ([].*1 ++ ?l) with l in Hnames.
  destruct (ndi_label _) as [labeled num].
  unfold mbind at 1, io_bind at 1 in Hrun.
  destruct (positive_loop _ _ _ _ _ _ _ _ s) as [s2 [pos'|e]] eqn:Hpos; [|done].
  unfold mbind at 1, io_bind at 1 in Hrun.
  destruct (negative_loop _ _ _ _ _ _ _ s2) as [s3 [neg'|e]] eqn:Hneg; [|done].
  injection Hrun as <- <- <-.
  unfold positive_loop in Hpos. unfold mbind at 1, io_bind at 1, lift at 1 in Hpos.
  destruct (range 1 (num + 1) 1) as [ks|e]; [|done].
  apply positive_written in Hpos as (gp & Hgp & -> & ->).
  destruct (generate_indices (shape (get_fdata gt_img)).1.1 patch_size.1.1 stride.1.1)
    as [zs|e] eqn:Hzs; [|by unfold negative_loop in Hneg; rewrite Hzs in Hneg].
  destruct (generate_indices (shape (get_fdata gt_img)).1.2 patch_size.1.2 stride.1.2)
    as [ys|e] eqn:Hys; [|by unfold negative_loop in Hneg; rewrite Hzs, Hys in Hneg].
  destruct (generate_indices (shape (get_fdata gt_img)).2 patch_size.2 stride.2)
    as [xs|e] eqn:Hxs; [|by unfold negative_loop in Hneg; rewrite Hzs, Hys, Hxs in Hneg].
  rewrite (negative_loop_flat _ _ _ _ _ _ _ zs ys xs _ Hzs Hys Hxs) in Hneg.
  apply negative_written in Hneg as (gn & Hgn & -> & ->).
  rewrite Hnames in Hgp, Hgn.
  destruct (patch_groups_paths pid "positive" (path_join output_dir "lesion_patches")
              (nii_affine first_img) _ gp 0 ltac:(lia) Hnd Hlabel Hgp)
    as (Pnd & Plen & Pin).
  destruct (patch_groups_paths pid "negative" (path_join output_dir "background_patches")
              (nii_affine first_img) _ gn 0 ltac:(lia) Hnd Hlabel Hgn)
    as (Nnd & Nlen & Nin).
  eexists. split; [by rewrite <- app_assoc|].
  split; [|split; [lia|split; [lia|]]].
  - rewrite fmap_app. apply NoDup_app. split; [done|]. split; [|done].
    intros p (m1 & i1 & _ & ->)%Pin (m2 & i2 & _ & Heq)%Nin.
    by apply patch_dirs_apart in Heq.
  - rewrite length_app, Plen, Nlen, length_fmap. cbn [length]. lia.
Qed.

Lemma process_case_files_witness :
  ∃ written,
    process_case (H := λ mask, (vmap (λ _, 0) mask, 0)) "P1"
      [("T1.nii.gz", Nifti (Volume (1, 1, 2) [[[1; 3]]]%Q) []);
       ("gt.nii.gz", Nifti (Volume (1, 1, 2) [[[0; 0]]]%Q) [])]
      "out" (1, 1, 1) (1, 1, 1) None []
    = ([] ++ written, Ok (Some (0, 2))) ∧
    NoDup written.*1 ∧ Z.of_nat (length written) = 4.
Proof.
  destruct (process_case_files (H := λ mask, (vmap (λ _, 0) mask, 0)) "P1"
      [("T1.nii.gz", Nifti (Volume (1, 1, 2) [[[1; 3]]]%Q) []);
       ("gt.nii.gz", Nifti (Volume (1, 1, 2) [[[0; 0]]]%Q) [])]
      "out" (1, 1, 1) (1, 1, 1) None []
      (fst (process_case (H := λ mask, (vmap (λ _, 0) mask, 0)) "P1"
        [("T1.nii.gz", Nifti (Volume (1, 1, 2) [[[1; 3]]]%Q) []);
         ("gt.nii.gz", Nifti (Volume (1, 1, 2) [[[0; 0]]]%Q) [])]
        "out" (1, 1, 1) (1, 1, 1) None [])) 0 2)
    as (written & Hs & Hnd & _ & _ & Hlen).
  - vm_compute. reflexivity.
  - vm_compute. intros Hin. apply list_elem_of_singleton in Hin. discriminate Hin.
  - exists written. split; [|split; [done|exact Hlen]].
    rewrite <- Hs. vm_compute. reflexivity.
Defined.

(** X22: the name of a patch file tells the modality and the patch
    index: two patches of a case, or two modalities of a patch, never
    get the same name, and a label file gets the name of a modality
    file only for a modality called ["label"]. *)
Theorem patch_filename_inj (pid patch_type m1 m2 : string) (i j : Z) :
  0 ≤ i → 0 ≤ j →
  (modality_filename pid m1 patch_type i = modality_filename pid m2 patch_type j →
   m1 = m2 ∧ i = j) ∧
  (label_filename pid patch_type i = label_filename pid patch_type j → i = j) ∧
  (label_filename pid patch_type i = modality_filename pid m1 patch_type j →
   m1 = "label" ∧ i = j).
Proof.
  intros Hi Hj. split; [by apply modality_filename_inj_idx|]. split.
  - intros Heq.
    by apply (modality_filename_inj_idx pid patch_type "label" "label" i j Hi Hj).
  - intros Heq.
    destruct (modality_filename_inj_idx pid patch_type "label" m1 i j Hi Hj Heq).
    done.
Qed.

Lemma patch_filename_inj_witness :
  (modality_filename "P1" "T1" "negative" 3 = modality_filename "P1" "b1000" "negative" 12 →
   "T1" = "b1000" ∧ 3 = 12) ∧
  (label_filename "P1" "negative" 3 = label_filename "P1" "negative" 12 → 3 = 12) ∧
  (label_filename "P1" "negative" 3 = modality_filename "P1" "T1" "negative" 12 →
   "T1" = "label" ∧ 3 = 12).
Proof. apply (patch_filename_inj "P1" "negative" "T1" "b1000" 3 12); lia. Defined.

(** ** Normalisation *)

Lemma percentile_bounds (a : list Q) (q lo hi p : Q) :
  (0 <= q <= 100)%Q → Forall (λ x, lo <= x <= hi)%Q a →
  percentile a q = Ok p → (lo <= p <= hi)%Q.
Proof.
  intros Hq Ha. unfold percentile.
  destruct (Z.eqb_spec (Z.of_nat (length a)) 0) as [|Hn]; [done|].
  cbv zeta. intros Hp%Ok_inj. rewrite <- Hp. clear Hp p.
  assert (Forall (λ x, lo <= x <= hi)%Q (merge_sort Qle a)) as Hs
    by (by rewrite merge_sort_Permutation).
  assert (length (merge_sort Qle a) = length a) as Hlen
    by (by rewrite merge_sort_Permutation).
  set (sorted := merge_sort Qle a) in *. set (n := Z.of_nat (length a)) in *.
  set (h := (inject_Z (n - 1) * q / 100)%Q).
  assert (0 <= inject_Z (n - 1))%Q as Hn1.
  { change 0%Q with (inject_Z 0). rewrite <- Zle_Qle. lia. }
  assert (0 <= h <= inject_Z (n - 1))%Q as Hh.
  { unfold h. split.
    - apply Qle_shift_div_l; [lra|]. nra.
    - apply Qle_shift_div_r; [lra|]. nra. }
  pose proof (Qfloor_le h) as Hfl. pose proof (Qlt_floor h) as Hfu.
  rewrite inject_Z_plus in Hfu.
  assert (0 ≤ Qfloor h ≤ n - 1) as Hj.
  { split.
    - change 0 with (Qfloor 0). apply Qfloor_resp_le, Hh.
    - rewrite <- (Qfloor_Z (n - 1)). apply Qfloor_resp_le, Hh. }
  destruct (lookup_lt_is_Some_2 sorted (Z.to_nat (Qfloor h))) as [x Hx]; [lia|].
  destruct (lookup_lt_is_Some_2 sorted (Z.to_nat (Z.min (Qfloor h + 1) (n - 1))))
    as [y Hy]; [lia|].
  rewrite Hx, Hy. cbn [default].
  apply list_elem_of_lookup_2 in Hx, Hy.
  eapply Forall_forall in Hx; [|exact Hs]. eapply Forall_forall in Hy; [|exact Hs].
  cbn beta in Hx, Hy. set (g := (h - inject_Z (Qfloor h))%Q).
  assert (0 <= g < 1)%Q as Hg by (unfold g; change (inject_Z 1) with 1%Q in Hfu; lra).
  clearbody g. unfold id. clear Hfl Hfu Hh Hn1.
  pose proof (Qmult_le_0_compat (x - lo) (1 - g) ltac:(lra) ltac:(lra)).
  pose proof (Qmult_le_0_compat (y - lo) g ltac:(lra) ltac:(lra)).
  pose proof (Qmult_le_0_compat (hi - x) (1 - g) ltac:(lra) ltac:(lra)).
  pose proof (Qmult_le_0_compat (hi - y) g ltac:(lra) ltac:(lra)).
  split; lra.
Qed.

(** X23: a volume whose voxels all have the same intensity is
    normalised to zeros: the two percentiles coincide and nothing is
    divided by their difference. *)
Theorem normalize_volume_constant (img : volume Q) (c : Q) :
  flatten img ≠ [] → Forall (λ x, x == c)%Q (flatten img) →
  normalize_volume img = Ok (vmap (λ _, 0%Q) img).
Proof.
  intros Hne Hconst.
  assert (Forall (λ x, c <= x <= c)%Q (flatten img)) as Hbounds.
  { eapply Forall_impl; [exact Hconst|]. intros x Hx. cbn beta in *. lra. }
  destruct (percentile_Ok (flatten img) 1 Hne) as [p1 Hp1].
  destruct (percentile_Ok (flatten img) 99 Hne) as [p99 Hp99].
  pose proof (percentile_bounds _ 1 c c p1 ltac:(lra) Hbounds Hp1).
  pose proof (percentile_bounds _ 99 c c p99 ltac:(lra) Hbounds Hp99).
  unfold normalize_volume. rewrite Hp1, Hp99. cbn [mbind result_bind].
  assert (Qle_bool p99 p1 = true) as -> by (apply Qle_bool_iff; lra). done.
Qed.

Lemma normalize_volume_constant_witness :
  normalize_volume (Volume (1, 2, 2) [[[7; 7]; [7; 7]]]%Q)
  = Ok (vmap (λ _, 0%Q) (Volume (1, 2, 2) [[[7; 7]; [7; 7]]]%Q)).
Proof.
  apply (normalize_volume_constant _ 7%Q); [discriminate|].
  repeat constructor.
Defined.

Lemma clip_mono `{A : Arith} `{!IEEE A} (p1 p99 a b : num) :
  num_finite p1 = true → num_finite p99 = true →
  num_finite a = true → num_finite b = true →
  num_le p1 p99 = true → num_le a b = true →
  num_le (Ieee.clip p1 p99 a) (Ieee.clip p1 p99 b) = true.
Proof.
  intros H1 H99 Ha Hb Hle Hab.
  destruct (clip_between p1 p99 a H1 H99 Ha Hle) as (_ & Ha1 & Ha99 & Haid & Halo & _).
  destruct (clip_between p1 p99 b H1 H99 Hb Hle) as (_ & Hb1 & Hb99 & Hbid & _ & Hbhi).
  destruct (num_le a p1) eqn:Hap.
  - apply (ieee_le_trans _ p1); [by apply Halo|done].
  - pose proof (ieee_lt_le p1 a H1 Ha Hap) as Hpa.
    destruct (num_le b p99) eqn:Hbp.
    + rewrite Haid, Hbid; try done.
      * by apply (ieee_le_trans p1 a b).
      * by apply (ieee_le_trans a b p99).
    + pose proof (ieee_lt_le p99 b H99 Hb Hbp) as Hpb.
      apply (ieee_le_trans _ p99); [done|by apply Hbhi].
Qed.

(** X24: in IEEE arithmetic, normalisation keeps every voxel where it
    is and, where [p99 - p1] does not overflow, keeps the order of the
    finite intensities: of two finite voxels, the one that was not
    brighter is not brighter afterwards. *)
Theorem normalize_volume_monotone `{A : Arith} `{!IEEE A} (img out : volume num)
    (p1 p99 : num) (z y x z' y' x' : nat) (a b : num) :
  np_percentile (flatten img) 1 = Ok p1 →
  np_percentile (flatten img) 99 = Ok p99 →
  num_le p99 p1 = true ∨ num_finite (num_sub p99 p1) = true →
  Ieee.normalize_volume img = Ok out →
  voxel_at img z y x = Some a → voxel_at img z' y' x' = Some b →
  num_finite a = true → num_finite b = true → num_le a b = true →
  ∃ a' b', voxel_at out z y x = Some a' ∧ voxel_at out z' y' x' = Some b' ∧
           num_le a' b' = true.
Proof.
  intros Hp1 Hp99 Hd. unfold Ieee.normalize_volume. rewrite Hp1, Hp99.
  cbn [mbind result_bind]. destruct (num_le p99 p1) eqn:Hle.
  - intros Hout%Ok_inj Hva Hvb _ _ _. subst out. exists num_zero, num_zero.
    rewrite !voxel_at_vmap, Hva, Hvb. split; [done|]. split; [done|].
    apply ieee_le_zero_one.
  - destruct Hd as [?|Hd]; [done|].
    intros Hout%Ok_inj Hva Hvb Ha Hb Hab. subst out.
    rewrite !voxel_at_vmap, Hva, Hvb. cbn [fmap option_fmap option_map].
    eexists _, _. split; [done|]. split; [done|].
    destruct (ieee_sub_finite _ _ Hd) as [H99 H1].
    pose proof (ieee_lt_le p1 p99 H1 H99 Hle) as H199.
    destruct (clip_between p1 p99 a H1 H99 Ha H199) as (Hca & _).
    destruct (clip_between p1 p99 b H1 H99 Hb H199) as (Hcb & _).
    apply ieee_div_mono; [|done|by apply ieee_sub_pos].
    apply ieee_sub_mono; [done..|]. by apply clip_mono.
Qed.

Lemma normalize_volume_monotone_witness :
  ∃ p1 p99 out a' b',
    np_percentile (Arith := exact) [2; 3; 4]%Q 1 = Ok p1 ∧
    np_percentile (Arith := exact) [2; 3; 4]%Q 99 = Ok p99 ∧
    Ieee.normalize_volume (A := exact) (Volume (1, 1, 3) [[[2; 3; 4]]]%Q) = Ok out ∧
    voxel_at out 0 0 0 = Some a' ∧ voxel_at out 0 0 2 = Some b' ∧
    num_le (Arith := exact) a' b' = true.
Proof.
  destruct (np_percentile (Arith := exact) [2; 3; 4]%Q 1) as [p1|] eqn:H1;
    [|by vm_compute in H1].
  destruct (np_percentile (Arith := exact) [2; 3; 4]%Q 99) as [p99|] eqn:H99;
    [|by vm_compute in H99].
  destruct (Ieee.normalize_volume (A := exact) (Volume (1, 1, 3) [[[2; 3; 4]]]%Q))
    as [out|] eqn:Hout; [|by vm_compute in Hout].
  destruct (normalize_volume_monotone (A := exact) (IEEE0 := exact_IEEE)
              (Volume (1, 1, 3) [[[2; 3; 4]]]%Q) out p1 p99
              0 0 0 0 0 2 2%Q 4%Q H1 H99) as (a' & b' & Ha & Hb & Hab);
    [by right|done|reflexivity|reflexivity|reflexivity|reflexivity|reflexivity|].
  by exists p1, p99, out, a', b'.
Defined.

(** ** Reading a patient ID off a file name *)

Lemma split_parts_lack (sep : ascii) (s t : string) :
  t ∈ split sep s → contains (String sep EmptyString) t = false.
Proof.
  revert t. induction s as [|c s IH]; intros t; cbn [split].
  - by intros ->%list_elem_of_singleton.
  - destruct (decide (c = sep)) as [->|Hne].
    + intros [->|Hin]%elem_of_cons; [done|]. by apply IH.
    + destruct (split_nonempty sep s) as (t0 & ts & Hs). rewrite Hs in *.
      intros [->|Hin]%elem_of_cons.
      * rewrite contains_char, (IH t0) by left.
        by rewrite bool_decide_eq_false_2 by congruence.
      * apply IH. by right.
Qed.

Lemma join_snoc (sep : string) (parts : list string) (x : string) :
  parts ≠ [] → join sep (parts ++ [x]) = join sep parts +:+ sep +:+ x.
Proof.
  unfold join. induction parts as [|p parts IH]; [done|]. intros _.
  destruct parts as [|p' parts]; [done|].
  change (String.concat sep ((p :: p' :: parts) ++ [x]))
    with (p +:+ sep +:+ String.concat sep ((p' :: parts) ++ [x])).
  rewrite IH by done.
  change (String.concat sep (p :: p' :: parts))
    with (p +:+ sep +:+ String.concat sep (p' :: parts)).
  by rewrite !append_assoc.
Qed.

Lemma snoc3_decompose {A} (l : list A) :
  (4 ≤ length l)%nat → ∃ init a b c, l = init ++ [a; b; c] ∧ init ≠ [].
Proof.
  intros Hlen.
  destruct l as [|c l _] using rev_ind; [cbn in Hlen; lia|].
  destruct l as [|b l _] using rev_ind; [cbn in Hlen; lia|].
  destruct l as [|a l _] using rev_ind; [cbn in Hlen; lia|].
  exists l, a, b, c. split; [by rewrite <- !app_assoc|].
  intros ->. cbn in Hlen. lia.
Qed.

(** X25: where a patient ID comes from. A file name yields an ID only
    if it does not contain ["label"] and, its extension taken off, has
    at least four underscore-separated tokens; the ID is then what stands
    before the last three tokens. *)
Theorem patient_id_of_sound (filename p : string) :
  patient_id_of filename = Some p →
  contains "label" filename = false ∧
  ∃ a b c,
    strip_ext filename = p +:+ "_" +:+ a +:+ "_" +:+ b +:+ "_" +:+ c ∧
    contains "_" a = false ∧ contains "_" b = false ∧ contains "_" c = false.
Proof.
  unfold patient_id_of. destruct (contains "label" filename); [done|].
  destruct (Nat.ltb_spec (length (split "_" (strip_ext filename))) 4) as [|Hlen];
    [done|].
  intros [= <-]. split; [done|].
  pose proof (split_parts_lack "_" (strip_ext filename)) as Hlack.
  pose proof (join_split "_" (strip_ext filename)) as Hjoin.
  destruct (snoc3_decompose _ Hlen) as (init & a & b & c & Hparts & Hne).
  rewrite Hparts in *. rewrite slice_drop_last3. exists a, b, c.
  split; [|split; [|split]].
  - rewrite <- Hjoin.
    change (init ++ [a; b; c]) with (init ++ [a] ++ [b] ++ [c]).
    rewrite !app_assoc.
    rewrite !join_snoc; [|done|by destruct init..].
    by rewrite !append_assoc.
  - apply Hlack. rewrite elem_of_app. right. left.
  - apply Hlack. rewrite elem_of_app. right. right. left.
  - apply Hlack. rewrite elem_of_app. right. right. right. left.
Qed.

Lemma patient_id_of_sound_witness :
  contains "label" "site_A_P7_T1_positive_0003.nii.gz" = false ∧
  ∃ a b c,
    strip_ext "site_A_P7_T1_positive_0003.nii.gz"
    = "site_A_P7" +:+ "_" +:+ a +:+ "_" +:+ b +:+ "_" +:+ c ∧
    contains "_" a = false ∧ contains "_" b = false ∧ contains "_" c = false.
Proof.
  apply (patient_id_of_sound "site_A_P7_T1_positive_0003.nii.gz" "site_A_P7").
  reflexivity.
Defined.

(** ** One fold *)

(** X26: with [max_splits = 1], or with a single patient, there is one
    fold only: every patient is validated on and the training list is
    empty. *)
Theorem train_validate_single_fold `{G : BitGenerator} (g : rng_state)
    (lesion_files background_files : list string) (a : args)
    (train val : list string) (g' : rng_state) :
  train_validate_dicts g lesion_files background_files a = Ok (train, val, g') →
  default 7 (max_splits a) = 1 ∨
    (1 ≤ default 7 (max_splits a) ∧ length (train ++ val) = 1%nat) →
  train = [].
Proof.
  unfold train_validate_dicts.
  destruct (shuffle (rng_seed 42) _) as [[shuffled g1]|] eqn:Hsh; [|done].
  cbn [mbind result_bind].
  destruct (make_folds shuffled _) as [folds|] eqn:Hfolds; [|done].
  cbn [mbind result_bind].
  destruct (select_fold folds (split_ a)) as [[train' val']|] eqn:Hsel; [|done].
  cbn [mbind result_bind]. intros [= <- <- <-] Hone.
  apply select_fold_Permutation in Hsel as [Hval Hsel].
  pose proof (make_folds_length _ _ _ Hfolds) as Hcount. cbv zeta in Hcount.
  pose proof (make_folds_concat _ _ _ Hfolds) as Hcat.
  assert (length (train' ++ val') = length shuffled) as Hlen by (by rewrite Hsel, Hcat).
  assert (length folds = 1%nat) as Hfolds1.
  { unfold chunk_count in Hcount.
    destruct (Z.ltb_spec 0 (Z.of_nat (length shuffled))) as [Hpos|Hzero].
    - destruct Hone as [Hms|[Hms Hn]].
      + rewrite Hms, Z.div_1_r, Z.max_r in Hcount by lia.
        rewrite Z.div_small in Hcount by lia.
        change (1 <? 0 + 1) with false in Hcount. cbv iota in Hcount. lia.
      + rewrite Hlen in Hn. rewrite Hn in Hcount.
        change (Z.of_nat 1 - 1) with 0 in Hcount. rewrite Z.div_0_l in Hcount by lia.
        destruct (Z.ltb_spec (default 7 (max_splits a)) (0 + 1)); lia.
    - destruct folds; [by apply elem_of_nil in Hval|].
      destruct (Z.ltb_spec (default 7 (max_splits a)) 0); cbn [length] in Hcount; lia. }
  destruct folds as [|fold [|]]; [done| |done].
  apply list_elem_of_singleton in Hval as ->. cbn [concat] in Hsel.
  rewrite app_nil_r in Hsel. apply Permutation_length in Hsel.
  rewrite length_app in Hsel. destruct train'; [done|cbn in Hsel; lia].
Qed.

Lemma train_validate_single_fold_witness :
  ∃ val g',
    train_validate_dicts (G:=lcg) 0%N
      ["P1_T1_positive_0000.nii.gz"; "P2_T1_positive_0000.nii.gz"]
      ["P3_T1_negative_0000.nii.gz"] {| split_ := 4; max_splits := Some 1 |}
    = Ok ([], val, g').
Proof.
  destruct (train_validate_dicts (G:=lcg) 0%N
      ["P1_T1_positive_0000.nii.gz"; "P2_T1_positive_0000.nii.gz"]
      ["P3_T1_negative_0000.nii.gz"] {| split_ := 4; max_splits := Some 1 |})
    as [[[train val] g']|] eqn:Hrun; [|by vm_compute in Hrun].
  exists val, g'.
  rewrite (train_validate_single_fold (G:=lcg) _ _ _ _ _ _ _ Hrun); [done|].
  by left.
Defined.

(** ** A case without lesions *)

Lemma length_candidates (zs ys xs : list Z) :
  length (candidates zs ys xs) = (length zs * length ys * length xs)%nat.
Proof.
  unfold candidates. induction zs as [|z zs IH]; [done|]. cbn [mbind list_bind].
  rewrite length_app, IH. cbn [length].
  assert (length (ys ≫= λ y, xs ≫= λ x, [(z, y, x)]) = (length ys * length xs)%nat)
    as ->; [|lia].
  clear. induction ys as [|y ys IH]; [done|]. cbn [mbind list_bind].
  rewrite length_app, IH. cbn [length].
  assert (length (xs ≫= λ x, [(z, y, x)]) = length xs) as ->; [|lia].
  clear. induction xs as [|x xs IH]; [done|]. cbn [mbind list_bind app length].
  by rewrite IH.
Qed.

(** X27: over a label volume that is zero everywhere, the negative phase
    passes over no window: every candidate window becomes a background
    patch, one per combination of the starts along the three axes. *)
Theorem negative_patches_no_lesion (pid : string)
    (modalities : list (string * volume Q)) (label : volume Q)
    (patch_size stride : Z * Z * Z) (aff : affine) (background_dir : string)
    (zs ys xs : list Z) (s : fs) :
  all_zero label →
  generate_indices (shape label).1.1 patch_size.1.1 stride.1.1 = Ok zs →
  generate_indices (shape label).1.2 patch_size.1.2 stride.1.2 = Ok ys →
  generate_indices (shape label).2 patch_size.2 stride.2 = Ok xs →
  accepted_windows label patch_size zs ys xs = candidates zs ys xs ∧
  (negative_loop pid modalities label patch_size stride aff background_dir s).2
  = Ok (Z.of_nat (length zs * length ys * length xs)).
Proof.
  intros Hzero Hzs Hys Hxs.
  assert (accepted_windows label patch_size zs ys xs = candidates zs ys xs) as Hall.
  { unfold accepted_windows. apply filter_all, Forall_forall. intros w _.
    apply Forall_forall. intros v Hv%elem_of_flatten_getitem3.
    by eapply Forall_forall in Hzero. }
  split; [done|].
  assert (Forall (λ x, 0 <= x)%Q (flatten label)) as Hlabel.
  { eapply Forall_impl; [exact Hzero|]. intros v Hv. cbn beta in Hv. lra. }
  rewrite (negative_loop_flat _ _ _ _ _ _ _ zs ys xs _ Hzs Hys Hxs).
  rewrite (negative_flat_run pid modalities label patch_size aff background_dir Hlabel).
  cbn [snd]. fold (accepted_windows label patch_size zs ys xs). rewrite Hall.
  rewrite length_candidates. by f_equal.
Qed.

Lemma negative_patches_no_lesion_witness :
  accepted_windows (Volume (1, 2, 3) [[[0; 0; 0]; [0; 0; 0]]]%Q) (1, 1, 2) [0] [0; 1] [0; 1]
  = candidates [0] [0; 1] [0; 1] ∧
  (negative_loop "P1" [("T1", Volume (1, 2, 3) [[[1; 2; 3]; [4; 5; 6]]]%Q)]
     (Volume (1, 2, 3) [[[0; 0; 0]; [0; 0; 0]]]%Q) (1, 1, 2) (1, 1, 1) [] "bg" []).2
  = Ok (Z.of_nat (length [0] * length [0; 1] * length [0; 1])).
Proof.
  apply (negative_patches_no_lesion "P1" [("T1", Volume (1, 2, 3) [[[1; 2; 3]; [4; 5; 6]]]%Q)]
           (Volume (1, 2, 3) [[[0; 0; 0]; [0; 0; 0]]]%Q) (1, 1, 2) (1, 1, 1) [] "bg").
  - repeat constructor.
  - reflexivity.
  - reflexivity.
  - reflexivity.
Defined.

(** ** A stride the negative phase cannot use *)

Lemma negative_loop_raises (pid : string) (modalities : list (string * volume Q))
    (label : volume Q) (patch_size stride : Z * Z * Z) (aff : affine)
    (background_dir : string) (s : fs) (e : exn) :
  generate_indices (shape label).1.1 patch_size.1.1 stride.1.1 = Raise e ∨
  generate_indices (shape label).1.2 patch_size.1.2 stride.1.2 = Raise e ∨
  generate_indices (shape label).2 patch_size.2 stride.2 = Raise e →
  ∃ e', negative_loop pid modalities label patch_size stride aff background_dir s
        = (s, Raise e').
Proof.
  intros Hraise. unfold negative_loop, lift. unfold mbind at 1 2 3. unfold io_bind.
  destruct (generate_indices (shape label).1.1 _ _) as [zs|ez]; [|eauto].
  destruct (generate_indices (shape label).1.2 _ _) as [ys|ey]; [|eauto].
  destruct (generate_indices (shape label).2 _ _) as [xs|ex]; [|eauto].
  by destruct Hraise as [?|[?|?]].
Qed.

(** X28: the start indices of the negative phase are computed only after
    the positive phase has run: when [generate_indices] raises on one of
    the axes, [process_case] raises too, with every positive patch of the
    case already written and no background patch. *)
Theorem process_case_partial_output `{Labeller} (pid : string)
    (case_files : list (string * nifti)) (output_dir : string)
    (patch_size stride : Z * Z * Z) (modalities_filter : option (list string))
    (first : string * nifti) (rest : list (string * nifti)) (gt_img : nifti)
    (modalities : list (string * volume Q)) (s s2 : fs) (pos : Z) (e : exn) :
  discover case_files modalities_filter = (first :: rest, Some gt_img) →
  for_each (first :: rest)
    (λ modalities '(modality, img),
       data ← lift (normalize_volume (get_fdata img));
       mret (dict_set modality data modalities))
    [] s = (s, Ok modalities) →
  positive_loop pid modalities (get_fdata gt_img) patch_size (nii_affine first.2)
    (path_join output_dir "lesion_patches")
    (ndi_label (vmap (Qltb 0) (get_fdata gt_img))).1
    (ndi_label (vmap (Qltb 0) (get_fdata gt_img))).2 s = (s2, Ok pos) →
  generate_indices (shape (get_fdata gt_img)).1.1 patch_size.1.1 stride.1.1 = Raise e ∨
  generate_indices (shape (get_fdata gt_img)).1.2 patch_size.1.2 stride.1.2 = Raise e ∨
  generate_indices (shape (get_fdata gt_img)).2 patch_size.2 stride.2 = Raise e →
  ∃ e', process_case pid case_files output_dir patch_size stride modalities_filter s
        = (s2, Raise e').
Proof.
  intros Hdisc Hnorm Hpos Hraise.
  rewrite (process_case_phases _ _ _ _ _ _ _ _ _ _ _ Hdisc Hnorm). cbv zeta.
  unfold mbind at 1, io_bind at 1. rewrite Hpos.
  unfold mbind at 1, io_bind at 1.
  destruct (negative_loop_raises pid modalities (get_fdata gt_img) patch_size stride
              (nii_affine first.2) (path_join output_dir "background_patches") s2 e
              Hraise) as [e' ->].
  by exists e'.
Qed.

Lemma process_case_partial_output_witness :
  ∃ e',
    process_case (H := λ mask, (vmap (λ b : bool, if b then 1 else 0) mask, 1)) "P1"
      [("T1.nii.gz", Nifti (Volume (1, 1, 3) [[[1; 3; 5]]]%Q) []);
       ("gt.nii.gz", Nifti (Volume (1, 1, 3) [[[0; 1; 0]]]%Q) [])]
      "out" (1, 1, 1) (default_stride (1, 1, 1)) None []
    = (patch_files "P1" "positive" 0
         [("T1", Volume (1, 1, 3) [[[0 # 392000000; 1960000 # 3920000;
                                      392000000 # 392000000]]]%Q)]
         (Volume (1, 1, 3) [[[0; 1; 0]]]%Q) "out/lesion_patches" [],
       Raise e').
Proof.
  apply (process_case_partial_output
           (H := λ mask, (vmap (λ b : bool, if b then 1 else 0) mask, 1)) "P1"
           [("T1.nii.gz", Nifti (Volume (1, 1, 3) [[[1; 3; 5]]]%Q) []);
            ("gt.nii.gz", Nifti (Volume (1, 1, 3) [[[0; 1; 0]]]%Q) [])]
           "out" (1, 1, 1) (default_stride (1, 1, 1)) None
           ("T1", Nifti (Volume (1, 1, 3) [[[1; 3; 5]]]%Q) []) []
           (Nifti (Volume (1, 1, 3) [[[0; 1; 0]]]%Q) [])
           [("T1", Volume (1, 1, 3) [[[0 # 392000000; 1960000 # 3920000;
                                        392000000 # 392000000]]]%Q)]
           [] _ 1 ValueError).
  - reflexivity.
  - vm_compute. reflexivity.
  - vm_compute. reflexivity.
  - right. right. reflexivity.
Defined.
